(** * Screen grabbing: a shallow embedding of [src/utils/screengrabber.cpp]

    The development follows the C++ file function by function, for the
    Linux/Unix build (the branches under [Q_OS_MACOS] and [Q_OS_WIN] are
    compiled out there).

    - [int] values are integers of [Z]; the narrowing conversions of the
      source ([static_cast<int>], [std::llround]) are written out.
    - [qreal]/[double] values are IEEE 754 binary64 numbers, [float] values
      binary32 numbers: the operations are those of the Standard Library's
      [SpecFloat], instantiated at the two formats.
    - [QRect], [QRectF], [QSize] and [QPixmap] are modelled with the
      fields and the member functions of Qt that the file uses.
    - Everything the file does to the outside world (log messages, child
      processes, files, the session bus) is recorded, in program order, in a
      trace of events; what the outside world answers is read from an
      environment record. *)

From Stdlib Require Import ZArith List Bool String Ascii Lia Permutation.
From Stdlib Require Import SpecFloat.
Import ListNotations.

Local Open Scope Z_scope.

(** ** Machine numbers *)

Module Num.

(** [static_cast<int>] of a [long long]: reduction modulo 2^32 into the
    signed range. *)
Definition INT_MAX : Z := 2 ^ 31 - 1.
Definition LLONG_MIN : Z := - 2 ^ 63.
Definition LLONG_MAX : Z := 2 ^ 63 - 1.

Definition int_of_longlong (z : Z) : Z :=
  (z + 2 ^ 31) mod 2 ^ 32 - 2 ^ 31.

(** *** binary64 *)

Definition qreal := spec_float.

Definition prec64 : Z := 53.
Definition emax64 : Z := 1024.

Definition dadd : qreal -> qreal -> qreal := SFadd prec64 emax64.
Definition dsub : qreal -> qreal -> qreal := SFsub prec64 emax64.
Definition ddiv : qreal -> qreal -> qreal := SFdiv prec64 emax64.
Definition dltb : qreal -> qreal -> bool := SFltb.
Definition dleb : qreal -> qreal -> bool := SFleb.
Definition deqb : qreal -> qreal -> bool := SFeqb.

(** The number [m * 2^e] as a double (rounded when it needs more than 53
    bits). *)
Definition dyadic (m e : Z) : qreal := binary_normalize prec64 emax64 m e false.

(** [static_cast<qreal>(i)] for an [int] [i]: exact. *)
Definition double_of_int (i : Z) : qreal := dyadic i 0.

Definition dzero : qreal := S754_zero false.
Definition done : qreal := double_of_int 1.

Definition is_double (x : qreal) : bool := valid_binary prec64 emax64 x.

(** [qMin] and [qMax] of qglobal.h: [(a < b) ? a : b] and
    [(a < b) ? b : a]. *)
Definition qMin (a b : qreal) : qreal := if dltb a b then a else b.
Definition qMax (a b : qreal) : qreal := if dltb a b then b else a.

(** Largest integer below and least integer above a finite double; the
    conversion of an infinity or a NaN to [int] is undefined in C++, the
    model gives 0 there. *)
Definition dfloor (x : qreal) : Z :=
  match x with
  | S754_finite s m e =>
      let sm := cond_Zopp s (Zpos m) in
      if 0 <=? e then sm * 2 ^ e else sm / 2 ^ (- e)
  | _ => 0
  end.

Definition dceil (x : qreal) : Z :=
  match x with
  | S754_finite s m e =>
      let sm := cond_Zopp s (Zpos m) in
      if 0 <=? e then sm * 2 ^ e else - ((- sm) / 2 ^ (- e))
  | _ => 0
  end.

(** [std::llround]: nearest integer, halfway cases away from zero. The
    result for an argument outside the range of [long long] (or an
    infinity, or a NaN) is unspecified; the model gives [LLONG_MIN], as
    x86-64 does. *)
Definition round_half_away (m : positive) (e : Z) : Z :=
  if 0 <=? e then Zpos m * 2 ^ e
  else (2 * Zpos m + 2 ^ (- e)) / 2 ^ (- e + 1).

Definition llround (x : qreal) : Z :=
  match x with
  | S754_zero _ => 0
  | S754_finite s m e =>
      let r := cond_Zopp s (round_half_away m e) in
      if (LLONG_MIN <=? r) && (r <=? LLONG_MAX) then r else LLONG_MIN
  | _ => LLONG_MIN
  end.

(** *** binary32 *)

Definition prec32 : Z := 24.
Definition emax32 : Z := 128.

Definition float_of_int (i : Z) : spec_float :=
  binary_normalize prec32 emax32 i 0 false.
Definition fmul : spec_float -> spec_float -> spec_float := SFmul prec32 emax32.
Definition fdiv : spec_float -> spec_float -> spec_float := SFdiv prec32 emax32.
Definition fone : spec_float := float_of_int 1.

(** Widening of a [float] to a [double]: exact, the result is the
    binary64 representation of the same number. *)
Definition double_of_float (f : spec_float) : qreal :=
  match f with
  | S754_finite s m e => binary_round prec64 emax64 s m e
  | _ => f
  end.

End Num.
Import Num.

(** ** Qt value types *)

Record QSize : Type := mkQSize { wd : Z; ht : Z }.

Definition QSize_eqb (a b : QSize) : bool :=
  (wd a =? wd b) && (ht a =? ht b).

(** [QRect] keeps its two corners; the default rectangle is the null
    rectangle [(0,0,-1,-1)], of width and height 0. The coordinates are
    [int]s in the code and integers here: sums and differences are those
    of the code as long as they stay within the range of [int], which the
    properties that depend on it state for the coordinates they take. *)
Record QRect : Type := mkQRect { x1 : Z; y1 : Z; x2 : Z; y2 : Z }.

Module Rect.

Definition null : QRect := mkQRect 0 0 (-1) (-1).

(** [QRect(left, top, width, height)] *)
Definition make (lft top width height : Z) : QRect :=
  mkQRect lft top (lft + width - 1) (top + height - 1).

Definition x (r : QRect) : Z := x1 r.
Definition y (r : QRect) : Z := y1 r.
Definition width (r : QRect) : Z := x2 r - x1 r + 1.
Definition height (r : QRect) : Z := y2 r - y1 r + 1.
Definition size (r : QRect) : QSize := mkQSize (width r) (height r).

Definition isNull (r : QRect) : bool :=
  (x2 r =? x1 r - 1) && (y2 r =? y1 r - 1).

(** [QRect::united], that is [QRect::operator|]. *)
Definition united (a r : QRect) : QRect :=
  if isNull a then r
  else if isNull r then a
  else
    let '(l1, r1) := if x2 a <? x1 a - 1 then (x2 a + 1, x1 a - 1) else (x1 a, x2 a) in
    let '(l2, r2) := if x2 r <? x1 r - 1 then (x2 r + 1, x1 r - 1) else (x1 r, x2 r) in
    let '(t1, b1) := if y2 a <? y1 a - 1 then (y2 a + 1, y1 a - 1) else (y1 a, y2 a) in
    let '(t2, b2) := if y2 r <? y1 r - 1 then (y2 r + 1, y1 r - 1) else (y1 r, y2 r) in
    mkQRect (Z.min l1 l2) (Z.min t1 t2) (Z.max r1 r2) (Z.max b1 b2).

End Rect.

(** [QRectF] keeps a corner and a size, as doubles. *)
Record QRectF : Type := mkQRectF { xp : qreal; yp : qreal; w : qreal; h : qreal }.

Module RectF.

Definition null : QRectF := mkQRectF dzero dzero dzero dzero.

Definition isNull (r : QRectF) : bool :=
  deqb (w r) dzero && deqb (h r) dzero.

(** One axis of [QRectF::operator|]: the extent [(lft, rgt)] of the
    union of [(p, s)] and [(rp, rs)]. *)
Definition span (p s rp rs : qreal) : qreal * qreal :=
  let '(lft, rgt) :=
    if dltb s dzero then (dadd p s, p) else (p, dadd p s) in
  if dltb rs dzero
  then (qMin lft (dadd rp rs), qMax rgt rp)
  else (qMin lft rp, qMax rgt (dadd rp rs)).

(** [QRectF::united], that is [QRectF::operator|]. *)
Definition united (a r : QRectF) : QRectF :=
  if isNull a then r
  else if isNull r then a
  else
    let '(lft, rgt) := span (xp a) (w a) (xp r) (w r) in
    let '(top, bottom) := span (yp a) (h a) (yp r) (h r) in
    mkQRectF lft top (dsub rgt lft) (dsub bottom top).

(** [QRectF::toAlignedRect]: the smallest integer rectangle around. *)
Definition toAlignedRect (r : QRectF) : QRect :=
  let xmin := dfloor (xp r) in
  let xmax := dceil (dadd (xp r) (w r)) in
  let ymin := dfloor (yp r) in
  let ymax := dceil (dadd (yp r) (h r)) in
  Rect.make xmin ymin (xmax - xmin) (ymax - ymin).

End RectF.

(** [QPixmap], as far as the file looks at it: a null pixmap, or a pixel
    buffer with its size in pixels and its device pixel ratio. *)
Inductive QPixmap : Type :=
| NullPixmap
| Pixmap (width height : Z) (ratio : qreal).

Module Pix.

Definition isNull (p : QPixmap) : bool :=
  match p with NullPixmap => true | Pixmap _ _ _ => false end.

Definition size (p : QPixmap) : QSize :=
  match p with
  | NullPixmap => mkQSize 0 0
  | Pixmap wi he _ => mkQSize wi he
  end.

Definition height (p : QPixmap) : Z := ht (size p).

Definition devicePixelRatio (p : QPixmap) : qreal :=
  match p with
  | NullPixmap => done
  | Pixmap _ _ r => r
  end.

(** [QPixmap::setDevicePixelRatio] returns at once on a null pixmap. *)
Definition setDevicePixelRatio (p : QPixmap) (scaleFactor : qreal) : QPixmap :=
  match p with
  | NullPixmap => NullPixmap
  | Pixmap wi he _ => Pixmap wi he scaleFactor
  end.

End Pix.

(** [QJsonValue]; numbers are doubles. *)
#[warnings="-register-all"]
Inductive QJsonValue : Type :=
| JUndefined
| JNull
| JBool (b : bool)
| JDouble (d : qreal)
| JString (s : string)
| JArray (items : list QJsonValue)
| JObject (members : list (string * QJsonValue)).

Module Json.

(** [QJsonObject::value]: the member of that name, [Undefined] without. *)
Fixpoint value (members : list (string * QJsonValue)) (key : string) : QJsonValue :=
  match members with
  | [] => JUndefined
  | (k, v) :: rest => if String.eqb k key then v else value rest key
  end.

(** [QJsonValue::toDouble(defaultValue)] *)
Definition toDouble (v : QJsonValue) (defaultValue : qreal) : qreal :=
  match v with
  | JDouble d => d
  | _ => defaultValue
  end.

End Json.

(** ** The outside world *)

(** Modelled from the spec: the enumeration [DesktopInfo::WM] is declared in
    [desktopinfo.h], which is not among the sources. It has the seven
    families that [grabEntireDesktop] names; [UNCLASSIFIED] stands for every
    other value, which the [switch] sends to [default]. *)
Inductive WM : Type :=
| GNOME | KDE | COSMIC | QTILE | WLROOTS | HYPRLAND | OTHER | UNCLASSIFIED.

Definition WM_eqb (a b : WM) : bool :=
  match a, b with
  | GNOME, GNOME | KDE, KDE | COSMIC, COSMIC | QTILE, QTILE
  | WLROOTS, WLROOTS | HYPRLAND, HYPRLAND | OTHER, OTHER
  | UNCLASSIFIED, UNCLASSIFIED => true
  | _, _ => false
  end.

(** One [QScreen]: its [geometry()] and its [devicePixelRatio()]. *)
Record QScreen : Type := mkQScreen {
  geometry : QRect;
  devicePixelRatio : qreal
}.

(** What becomes of a child process: it cannot be started, it exits with a
    code after some milliseconds, or it never exits. *)
Inductive ProcessRun : Type :=
| FailedToStart
| Exits (exitCode : Z) (after_ms : Z)
| Hangs.

(** [QProcess::waitForFinished(msecs)]: true when the process has finished
    within the bound, whatever its exit code. *)
Definition waitForFinished (run : ProcessRun) (msecs : Z) : bool :=
  match run with
  | Exits _ t => t <=? msecs
  | _ => false
  end.

(** What the nested event loop of [freeDesktopPortal] is handed, one event
    after the other: the [Response] signal of the request object, with its
    status and the local file that [results["uri"]] names (empty without
    one), or an event that is none of the function's business. *)
Inductive LoopEvent : Type :=
| Response (status : Z) (uriLocalFile : string)
| Unrelated.

Record Env : Type := mkEnv {
  (* DesktopInfo *)
  waylandDetected : bool;
  windowManager : WM;
  (* ConfigHandler *)
  useGrimAdapter : bool;
  disabledGrimWarning : bool;
  (* QGuiApplication *)
  screens : list QScreen;
  appDevicePixelRatio : qreal;
  grabWindow : Z -> Z -> Z -> Z -> QPixmap;
  (* processes and files *)
  runtimeDir : string;
  grimRun : ProcessRun;
  hyprctlRun : ProcessRun;
  hyprctlJson : option QJsonValue;   (* [None]: the output does not parse *)
  hyprctlParseError : string;        (* [QJsonParseError::errorString()] *)
  imageFile : string -> QPixmap;     (* null where no image can be loaded *)
  (* session bus *)
  serviceRegistered : bool;
  baseService : string;
  createUuid : string;
  busEvents : nat -> LoopEvent
}.

Inductive LogLevel : Type := Warning | Error.

Inductive Event : Type :=
| Log (level : LogLevel) (message : string)
| ProcessStart (program : string) (arguments : list string)
| LoadImage (path : string)
| RemoveFile (path : string)
| GrabWindow (x y width height : Z)
| IsServiceRegistered (service : string)
| NewInterface (service path interface : string)
| NewRequest (service path : string)
| Connect (signal : string)
| Call (method : string) (handle_token : string) (interactive : bool)
| Disconnect (signal : string)
| Close
| DeleteLater.

(** ** Computations

    A computation gives a result and the events it caused, or nothing when
    it does not return. *)

Definition M (A : Type) : Type := option (A * list Event).

Definition ret {A} (a : A) : M A := Some (a, []).

Definition bind {A B} (m : M A) (k : A -> M B) : M B :=
  match m with
  | None => None
  | Some (a, t) =>
      match k a with
      | None => None
      | Some (b, t') => Some (b, t ++ t')
      end
  end.

Definition tell (e : Event) : M unit := Some (tt, [e]).

Definition never {A} : M A := None.

Declare Scope comp_scope.
Delimit Scope comp_scope with comp.
Notation "x <- m ;; k" := (bind m (fun x => k))
  (at level 61, m at next level, right associativity) : comp_scope.
Notation "' p <- m ;; k" := (bind m (fun x => let p := x in k))
  (at level 61, p pattern, m at next level, right associativity) : comp_scope.
Notation "m ;; k" := (bind m (fun _ => k))
  (at level 61, right associativity) : comp_scope.

Definition result {A} (m : M A) : option A := option_map fst m.
Definition events {A} (m : M A) : list Event :=
  match m with Some (_, t) => t | None => [] end.

(** ** Runs seen from outside

    The events that a function has caused so far, and its result once it
    has returned: a run that is still waiting has its events all the
    same. *)

Definition Run (A : Type) : Type := list Event * option A.

Definition finished {A} (a : A) : Run A := ([], Some a).

Definition andThen {A B} (m : Run A) (k : A -> Run B) : Run B :=
  match m with
  | (t, None) => (t, None)
  | (t, Some a) => let '(t', b) := k a in (t ++ t', b)
  end.

Definition emit (e : Event) : Run unit := ([e], Some tt).

Definition waiting {A} : Run A := ([], None).

(** A computation that is run to its end. *)
Definition observe {A} (m : M A) : Run A :=
  match m with
  | Some (a, t) => (t, Some a)
  | None => ([], None)
  end.

Declare Scope run_scope.
Delimit Scope run_scope with run.
Notation "x <- m ;; k" := (andThen m (fun x => k))
  (at level 61, m at next level, right associativity) : run_scope.
Notation "m ;; k" := (andThen m (fun _ => k))
  (at level 61, right associativity) : run_scope.

(** ** The program *)

Module ScreenGrabber.

Local Open Scope comp_scope.
Local Open Scope string_scope.
Local Open Scope Z_scope.

(** The texts handed to [AbstractLogger]. *)
Definition msgGrimMissing : string :=
  "The universal wayland screen capture adapter requires Grim as the screen capture component of wayland. If the screen capture component is missing, please install it!".
Definition msgNoPortal : string :=
  "Could not locate the `org.freedesktop.portal.Desktop` service".
Definition msgDbusAdvice : string :=
  "If the useGrimAdapter setting is not enabled, the dbus protocol will be used. It should be noted that using the dbus protocol under wayland is not recommended. It is recommended to enable the useGrimAdapter setting in flameshot.ini to activate the grim-based general wayland screenshot adapter".
Definition msgGrimAdvice : string :=
  "grim's screenshot component is implemented based on wlroots, it may not be used in GNOME or similar desktop environments".
Definition msgNoDesktop : string :=
  "Unable to detect desktop environment (GNOME? KDE? Qile? Sway? ...)".
Definition msgDesktopHint : string :=
  "Hint: try setting the XDG_CURRENT_DESKTOP environment variable.".
Definition msgNoCapture : string := "Unable to capture screen".
Definition msgHyprctlQuery : string :=
  "Unable to query Hyprland monitors via hyprctl.".
(** [tr("... %1").arg(errorString)]: the marker is replaced by the text
    of the parse error. *)
Definition msgHyprctlParse (errorString : string) : string :=
  "Failed to parse hyprctl monitor output: " ++ errorString.

(** [QString::remove(QChar)] and [QString::replace(QChar, QChar)] *)
Fixpoint remove (c : ascii) (s : string) : string :=
  match s with
  | EmptyString => EmptyString
  | String a rest =>
      if Ascii.eqb a c then remove c rest else String a (remove c rest)
  end.

Fixpoint replace (c by_ : ascii) (s : string) : string :=
  match s with
  | EmptyString => EmptyString
  | String a rest =>
      String (if Ascii.eqb a c then by_ else a) (replace c by_ rest)
  end.

Section WithEnv.

Variable env : Env.

(** *** hyprlandDesktopGeometries *)

Definition toInt (value : qreal) : Z := int_of_longlong (llround value).

(** The body of the loop over [doc.array()]; the state is
    [(physicalUnion, logicalUnion, gotMonitor)]. *)
Definition monitorEntry (acc : QRect * QRect * bool) (value : QJsonValue)
  : QRect * QRect * bool :=
  let '(physicalUnion, logicalUnion, gotMonitor) := acc in
  match value with
  | JObject obj =>
      let width := Json.toDouble (Json.value obj "width") dzero in
      let height := Json.toDouble (Json.value obj "height") dzero in
      let x := Json.toDouble (Json.value obj "x") dzero in
      let y := Json.toDouble (Json.value obj "y") dzero in
      let scale := Json.toDouble (Json.value obj "scale") done in
      if dleb width dzero || dleb height dzero || dleb scale dzero
      then acc
      else
        let physicalRect :=
          Rect.make (toInt x) (toInt y) (toInt width) (toInt height) in
        let logicalRect :=
          Rect.make (toInt (ddiv x scale)) (toInt (ddiv y scale))
                    (toInt (ddiv width scale)) (toInt (ddiv height scale)) in
        (Rect.united physicalUnion physicalRect,
         Rect.united logicalUnion logicalRect,
         true)
  | _ => acc
  end.

Definition monitorLoop (items : list QJsonValue) : QRect * QRect * bool :=
  fold_left monitorEntry items (Rect.null, Rect.null, false).

(** The two reference parameters are passed in and handed back. *)
Definition hyprlandDesktopGeometries (physical logical : QRect)
  : M (bool * QRect * QRect) :=
  if negb (waylandDetected env && WM_eqb (windowManager env) HYPRLAND)
  then ret (false, physical, logical)
  else
    tell (ProcessStart "hyprctl" ["monitors"; "-j"]) ;;
    if negb (waitForFinished (hyprctlRun env) 1000)
    then
      tell (Log Warning msgHyprctlQuery) ;;
      ret (false, physical, logical)
    else
      match hyprctlJson env with
      | Some (JArray items) =>
          let '(physicalUnion, logicalUnion, gotMonitor) := monitorLoop items in
          if gotMonitor
          then ret (true, physicalUnion, logicalUnion)
          else ret (false, physical, logical)
      | _ =>
          tell (Log Warning (msgHyprctlParse (hyprctlParseError env))) ;;
          ret (false, physical, logical)
      end.

(** *** desktopGeometry and logicalDesktopGeometry *)

(** The loops over [QGuiApplication::screens()]. *)
Definition screensUnion (l : list QScreen) : QRect :=
  fold_left (fun geo screen => Rect.united geo (geometry screen)) l Rect.null.

Definition logicalRect (screen : QScreen) : QRectF :=
  let screenRect := geometry screen in
  let dpr := devicePixelRatio screen in
  mkQRectF (ddiv (double_of_int (Rect.x screenRect)) dpr)
           (ddiv (double_of_int (Rect.y screenRect)) dpr)
           (ddiv (double_of_int (Rect.width screenRect)) dpr)
           (ddiv (double_of_int (Rect.height screenRect)) dpr).

Definition screensLogicalUnion (l : list QScreen) : QRectF :=
  fold_left (fun geo screen => RectF.united geo (logicalRect screen)) l RectF.null.

Definition desktopGeometry : M QRect :=
  '(got, hyprPhysical, hyprLogical) <-
    hyprlandDesktopGeometries Rect.null Rect.null ;;
  if got then ret hyprPhysical
  else ret (screensUnion (screens env)).

Definition logicalDesktopGeometry : M QRect :=
  '(got, hyprPhysical, hyprLogical) <-
    hyprlandDesktopGeometries Rect.null Rect.null ;;
  if got then ret hyprLogical
  else ret (RectF.toAlignedRect (screensLogicalUnion (screens env))).

(** *** adjustDevicePixelRatio *)

(** [pixmap.height() * 1.0f / logicalGeo.height()]: a [float] product
    and quotient, widened to the [qreal] parameter. *)
Definition heightRatio (pixmapHeight logicalHeight : Z) : qreal :=
  double_of_float
    (fdiv (fmul (float_of_int pixmapHeight) fone) (float_of_int logicalHeight)).

Definition adjustDevicePixelRatio (pixmap : QPixmap) : M QPixmap :=
  physicalGeo <- desktopGeometry ;;
  logicalGeo <- logicalDesktopGeometry ;;
  if QSize_eqb (Pix.size pixmap) (Rect.size physicalGeo)
  then ret (Pix.setDevicePixelRatio pixmap (appDevicePixelRatio env))
  else if negb (QSize_eqb (Pix.size pixmap) (Rect.size logicalGeo))
  then ret (Pix.setDevicePixelRatio pixmap
              (heightRatio (Pix.height pixmap) (Rect.height logicalGeo)))
  else ret pixmap.

(** *** generalGrimScreenshot *)

(** The default bound of [QProcess::waitForFinished()]. *)
Definition defaultWait : Z := 30000.

Definition imgPath : string := runtimeDir env ++ "/flameshot.ppm".

Definition generalGrimScreenshot (ok : bool) (res : QPixmap) : M (bool * QPixmap) :=
  if negb (useGrimAdapter env) then ret (ok, res)
  else
    tell (ProcessStart "grim" ["-t"; "ppm"; imgPath]) ;;
    if waitForFinished (grimRun env) defaultWait
    then
      tell (LoadImage imgPath) ;;
      let res := imageFile env imgPath in
      tell (RemoveFile imgPath) ;;
      res <- adjustDevicePixelRatio res ;;
      ret (true, res)
    else
      tell (Log Error msgGrimMissing) ;;
      ret (false, res).

(** *** freeDesktopPortal *)

Definition service : string := "org.freedesktop.portal.Desktop".
Definition responseSignal : string := "Response".

Definition token : string :=
  remove "}" (remove "{" (remove "-" (createUuid env))).

Definition requestPath : string :=
  "/org/freedesktop/portal/desktop/request/"
  ++ replace "." "_" (remove ":" (baseService env)) ++ "/" ++ token.

(** [loop.exec()]: events are handled one after the other until a
    handler calls [loop.quit()]; the only handler that does is
    [gotSignal], connected to the request's [Response]. The result is
    the arguments of that call; [fuel] bounds the number of events
    looked at. *)
Fixpoint loopExec (fuel : nat) (next : nat) : option (Z * string) :=
  match fuel with
  | O => None
  | S fuel' =>
      match busEvents env next with
      | Response status uriLocalFile => Some (status, uriLocalFile)
      | Unrelated => loopExec fuel' (S next)
      end
  end.

(** The lambda [gotSignal], up to its [loop.quit()]. *)
Definition gotSignal (res : QPixmap) (status : Z) (uriString : string) : M QPixmap :=
  if status =? 0
  then
    tell (LoadImage uriString) ;;
    let res := imageFile env uriString in
    res <- adjustDevicePixelRatio res ;;
    tell (RemoveFile uriString) ;;
    ret res
  else ret res.

Definition freeDesktopPortal (fuel : nat) (ok : bool) (res : QPixmap)
  : M (bool * QPixmap) :=
  tell (IsServiceRegistered service) ;;
  if negb (serviceRegistered env)
  then
    tell (Log Error msgNoPortal) ;;
    ret (false, res)
  else
    tell (NewInterface service "/org/freedesktop/portal/desktop"
                       "org.freedesktop.portal.Screenshot") ;;
    tell (NewRequest service requestPath) ;;
    tell (Connect responseSignal) ;;
    tell (Call "Screenshot" token false) ;;
    match loopExec fuel 0 with
    | None => never
    | Some (status, uriString) =>
        res <- gotSignal res status uriString ;;
        tell (Disconnect responseSignal) ;;
        tell Close ;;
        tell DeleteLater ;;
        if Pix.isNull res then ret (false, res) else ret (ok, res)
    end.

(** *** grabEntireDesktop *)

(** Conversion of a [double] argument to an [int] parameter: towards
    zero. *)
Definition dtrunc (x : qreal) : Z :=
  match x with
  | S754_finite s m e =>
      cond_Zopp s (if 0 <=? e then Zpos m * 2 ^ e else Zpos m / 2 ^ (- e))
  | _ => 0
  end.

Definition grabEntireDesktop (fuel : nat) : M (bool * QPixmap) :=
  let ok := true in
  if waylandDetected env
  then
    let res := NullPixmap in
    '(ok, res) <-
      match windowManager env with
      | GNOME | KDE | COSMIC => freeDesktopPortal fuel ok res
      | QTILE | WLROOTS | HYPRLAND | OTHER =>
          if negb (useGrimAdapter env)
          then
            (if negb (disabledGrimWarning env)
             then tell (Log Warning msgDbusAdvice) else ret tt) ;;
            freeDesktopPortal fuel ok res
          else
            (if negb (disabledGrimWarning env)
             then tell (Log Warning msgGrimAdvice) else ret tt) ;;
            generalGrimScreenshot ok res
      | UNCLASSIFIED =>
          tell (Log Error msgNoDesktop) ;;
          tell (Log Error msgDesktopHint) ;;
          ret (false, res)
      end ;;
    (if negb ok then tell (Log Error msgNoCapture) else ret tt) ;;
    ret (ok, res)
  else
    geo <- desktopGeometry ;;
    match screens env with
    | [] => never   (* [primaryScreen()] is null *)
    | primaryScreen :: _ =>
        let r := geometry primaryScreen in
        let gx := dtrunc (ddiv (double_of_int (- Rect.x r)) (devicePixelRatio primaryScreen)) in
        let gy := dtrunc (ddiv (double_of_int (- Rect.y r)) (devicePixelRatio primaryScreen)) in
        tell (GrabWindow gx gy (Rect.width geo) (Rect.height geo)) ;;
        ret (ok, grabWindow env gx gy (Rect.width geo) (Rect.height geo))
    end.

End WithEnv.

(** *** screenGeometry and grabScreen *)

(** [QRect::moveTo]: the rectangle with its top-left corner at [(ax, ay)]
    and its size kept. *)
Definition moveTo (r : QRect) (ax ay : Z) : QRect :=
  mkQRect ax ay (x2 r + (ax - x1 r)) (y2 r + (ay - y1 r)).

Section WithScreens.

Variable env : Env.

(** Three things that the file takes from elsewhere: the screen that
    [QGuiAppCurrentScreen().currentScreen()] gives (declared in
    [qguiappcurrentscreen.h]), [QScreen::grabWindow] of a given screen, and
    [QPixmap::copy]. *)
Variable currentScreen : QScreen.
Variable grabWindowOf : QScreen -> Z -> Z -> Z -> Z -> QPixmap.
Variable copy : QPixmap -> QRect -> QPixmap.

(** On Linux the loop over the screens under [Q_OS_WIN] is compiled out,
    and [topLeft] stays [(0, 0)]. *)
Definition screenGeometry (screen : QScreen) : QRect :=
  if waylandDetected env
  then
    let topLeftX := 0 in
    let topLeftY := 0 in
    let geo := geometry screen in
    moveTo geo (x1 geo - topLeftX) (y1 geo - topLeftY)
  else geometry currentScreen.

Definition grabScreen (fuel : nat) (screen : QScreen) : M (bool * QPixmap) :=
  let geo := screenGeometry screen in
  if waylandDetected env
  then
    '(ok, p) <- grabEntireDesktop env fuel ;;
    if ok then ret (ok, copy p geo) else ret (ok, p)
  else
    tell (GrabWindow (Rect.x geo) (Rect.y geo) (Rect.width geo) (Rect.height geo)) ;;
    ret (true, grabWindowOf screen (Rect.x geo) (Rect.y geo)
                            (Rect.width geo) (Rect.height geo)).

End WithScreens.

(** *** freeDesktopPortal, seen from outside *)

(** The same function, with the events of a run that is still inside
    [loop.exec()] after [fuel] events: what has been done on the bus by
    then, and the result once [gotSignal] has made the loop quit. *)
Definition freeDesktopPortalRun (env : Env) (fuel : nat) (ok : bool) (res : QPixmap)
  : Run (bool * QPixmap) :=
  (emit (IsServiceRegistered service) ;;
   if negb (serviceRegistered env)
   then
     emit (Log Error msgNoPortal) ;;
     finished (false, res)
   else
     emit (NewInterface service "/org/freedesktop/portal/desktop"
                        "org.freedesktop.portal.Screenshot") ;;
     emit (NewRequest service (requestPath env)) ;;
     emit (Connect responseSignal) ;;
     emit (Call "Screenshot" (token env) false) ;;
     match loopExec env fuel 0 with
     | None => waiting
     | Some (status, uriString) =>
         res <- observe (gotSignal env res status uriString) ;;
         emit (Disconnect responseSignal) ;;
         emit Close ;;
         emit DeleteLater ;;
         if Pix.isNull res then finished (false, res) else finished (ok, res)
     end)%run.

End ScreenGrabber.

Import ScreenGrabber.

(** * The vocabulary of the properties *)

(** The computation returns. *)
Definition returns {A} (m : M A) : Prop := exists a t, m = Some (a, t).

(** The test that makes the loop skip an object. *)
Definition nonPositive (obj : list (string * QJsonValue)) : bool :=
  dleb (Json.toDouble (Json.value obj "width") dzero) dzero
  || dleb (Json.toDouble (Json.value obj "height") dzero) dzero
  || dleb (Json.toDouble (Json.value obj "scale") done) dzero.

(** The entries that the loop takes into the unions. *)
Definition accepted (v : QJsonValue) : bool :=
  match v with
  | JObject obj => negb (nonPositive obj)
  | _ => false
  end.

(** The session in which the query is made at all. *)
Definition hyprlandSession (env : Env) : bool :=
  waylandDetected env && WM_eqb (windowManager env) HYPRLAND.

(** The query gives no geometry: the tool does not finish within a
    second, its output is not a JSON array, or no entry is accepted. *)
Definition queryFails (env : Env) : bool :=
  negb (waitForFinished (hyprctlRun env) 1000)
  || match hyprctlJson env with
     | Some (JArray items) => negb (existsb accepted items)
     | _ => true
     end.

(** What [freeDesktopPortal] does on the bus before it waits. *)
Definition portalPrologue (env : Env) : list Event :=
  [IsServiceRegistered service;
   NewInterface service "/org/freedesktop/portal/desktop"
                "org.freedesktop.portal.Screenshot";
   NewRequest service (requestPath env);
   Connect responseSignal;
   Call "Screenshot" (token env) false].

(** A request object is made, or a method of the broker is called. *)
Definition requestOrCall (e : Event) : bool :=
  match e with
  | NewInterface _ _ _ | NewRequest _ _ | Connect _ | Call _ _ _
  | Disconnect _ | Close | DeleteLater => true
  | _ => false
  end.

(** The claim of C5, as the spec has it: the wait for the response always
    ends. *)
Definition waitAlwaysEnds : Prop :=
  forall env ok res, exists fuel, returns (freeDesktopPortal env fuel ok res).

(** The two capture backends of a Wayland session. *)
Inductive Backend : Type := PermissionBroker | HelperTool.

(** The events of [freeDesktopPortal] on the bus. *)
Definition brokerEvent (e : Event) : bool :=
  match e with
  | IsServiceRegistered _ => true
  | _ => requestOrCall e
  end.

(** The event of [generalGrimScreenshot]: grim is started. *)
Definition startsGrim (e : Event) : bool :=
  match e with
  | ProcessStart program _ => String.eqb program "grim"
  | _ => false
  end.

(** A backend has been invoked when the trace has one of its events. *)
Definition invoked (b : Backend) (t : list Event) : bool :=
  existsb (match b with
           | PermissionBroker => brokerEvent
           | HelperTool => startsGrim
           end) t.

(** The warning before a backend is entered, and the error after a backend
    that failed. *)
Definition advise (env : Env) (message : string) : M unit :=
  if negb (disabledGrimWarning env) then tell (Log Warning message) else ret tt.

Definition conclude (r : bool * QPixmap) : M (bool * QPixmap) :=
  bind (if negb (fst r) then tell (Log Error msgNoCapture) else ret tt)
       (fun _ => ret r).

(** The backend that the switch of [grabEntireDesktop] names for a family. *)
Definition chosen (env : Env) : option Backend :=
  match windowManager env with
  | GNOME | KDE | COSMIC => Some PermissionBroker
  | QTILE | WLROOTS | HYPRLAND | OTHER =>
      if useGrimAdapter env then Some HelperTool else Some PermissionBroker
  | UNCLASSIFIED => None
  end.

Definition Backend_eqb (a b : Backend) : bool :=
  match a, b with
  | PermissionBroker, PermissionBroker | HelperTool, HelperTool => true
  | _, _ => false
  end.

Definition is_chosen (env : Env) (b : Backend) : bool :=
  match chosen env with
  | Some c => Backend_eqb c b
  | None => false
  end.

(** Events of neither backend. *)
Definition quiet {A} (m : M A) : Prop :=
  forall b, invoked b (events m) = false.

(** A rectangle with at least one pixel. *)
Definition proper (r : QRect) : Prop := x1 r <= x2 r /\ y1 r <= y2 r.

(** [outer] reaches at least as far as [inner] on every side. *)
Definition encloses (outer inner : QRect) : Prop :=
  x1 outer <= x1 inner /\ y1 outer <= y1 inner
  /\ x2 inner <= x2 outer /\ y2 inner <= y2 outer.

(** The generic path is taken when the session is not Hyprland or the
    monitor query fails. *)
Definition genericPath (env : Env) : bool :=
  negb (hyprlandSession env && negb (queryFails env)).

(** Something was lost in the shifts so far. *)
Definition inexact (mrs : shr_record) : bool := shr_r mrs || shr_s mrs.

(** A double that is zero, or positive and at most the integer [N]. *)
Definition atMost (x : qreal) (N : Z) : Prop :=
  match x with
  | S754_zero _ => True
  | S754_finite false m e => e <= 0 /\ Zpos m <= N * 2 ^ (- e)
  | _ => False
  end.

(** A zero of either sign; a finite double above zero. *)
Definition isZero (x : qreal) : Prop :=
  match x with S754_zero _ => True | _ => False end.

Definition isPositive (x : qreal) : Prop :=
  match x with S754_finite false _ _ => True | _ => False end.

(** A finite double that is at least 1. *)
Definition scaleAtLeastOne (s : qreal) : bool :=
  match s with
  | S754_finite false _ _ => is_double s && dleb done s
  | _ => false
  end.

(** The claim of C8, as the spec has it. *)
Definition logicalNeverExceedsPhysical : Prop :=
  forall env physical logical,
    forallb (fun s => scaleAtLeastOne (devicePixelRatio s)) (screens env) = true ->
    result (desktopGeometry env) = Some physical ->
    result (logicalDesktopGeometry env) = Some logical ->
    wd (Rect.size logical) <= wd (Rect.size physical)
    /\ ht (Rect.size logical) <= ht (Rect.size physical).

(** The characters of a string. *)
Definition chars (s : string) : list ascii := list_ascii_of_string s.

(** One of the three characters that [token] drops from the UUID. *)
Definition isUuidPunctuation (a : ascii) : bool :=
  Ascii.eqb a "-" || Ascii.eqb a "{" || Ascii.eqb a "}".

(** No event of the computation satisfies [P]. *)
Definition avoids (P : Event -> bool) {A} (m : M A) : Prop :=
  existsb P (events m) = false.

(** The message that ends a failed capture. *)
Definition isNoCapture (e : Event) : bool :=
  match e with
  | Log Error message => String.eqb message msgNoCapture
  | _ => false
  end.

(** The files that a trace loads, and the files that it removes, in
    order. *)
Definition loads (t : list Event) : list string :=
  flat_map (fun e => match e with LoadImage path => [path] | _ => [] end) t.

Definition removes (t : list Event) : list string :=
  flat_map (fun e => match e with RemoveFile path => [path] | _ => [] end) t.

Definition fileEvent (e : Event) : bool :=
  match e with
  | LoadImage _ | RemoveFile _ => true
  | _ => false
  end.

(** The capture has to wait for the broker: Wayland, the broker backend
    chosen, and its service registered. *)
Definition waitsForBroker (env : Env) : bool :=
  waylandDetected env && is_chosen env PermissionBroker && serviceRegistered env.

(** What [grabEntireDesktop] logs on Wayland before it enters a backend. *)
Definition preamble (env : Env) : list Event :=
  match windowManager env with
  | GNOME | KDE | COSMIC => []
  | QTILE | WLROOTS | HYPRLAND | OTHER =>
      if disabledGrimWarning env then []
      else [Log Warning (if useGrimAdapter env then msgGrimAdvice else msgDbusAdvice)]
  | UNCLASSIFIED => [Log Error msgNoDesktop; Log Error msgDesktopHint]
  end.

(** The run of the backend that [grabEntireDesktop] has chosen. *)
Definition backendRun (env : Env) (fuel : nat) : M (bool * QPixmap) :=
  match chosen env with
  | Some PermissionBroker => freeDesktopPortal env fuel true NullPixmap
  | Some HelperTool => generalGrimScreenshot env true NullPixmap
  | None => ret (false, NullPixmap)
  end.

(** A rectangle of at least one pixel whose corners lie strictly between
    [-2^30] and [2^30]: no [int] of the geometry functions overflows on
    such rectangles. *)
Definition small (r : QRect) : Prop :=
  - 2 ^ 30 < x1 r /\ x1 r <= x2 r /\ x2 r < 2 ^ 30
  /\ - 2 ^ 30 < y1 r /\ y1 r <= y2 r /\ y2 r < 2 ^ 30.

(** A screen at scale 1.0 with such a rectangle. *)
Definition unscaledScreen (s : QScreen) : Prop :=
  small (geometry s) /\ devicePixelRatio s = done.

(** [QRectF(const QRect &)]: the same rectangle in doubles. *)
Definition toRectF (r : QRect) : QRectF :=
  mkQRectF (double_of_int (Rect.x r)) (double_of_int (Rect.y r))
           (double_of_int (Rect.width r)) (double_of_int (Rect.height r)).

(** An entry of the monitor list whose numbers are doubles and whose scale
    is 1.0 or absent. *)
Definition unscaledMonitor (v : QJsonValue) : Prop :=
  match v with
  | JObject obj =>
      Json.toDouble (Json.value obj "scale") done = done
      /\ is_double (Json.toDouble (Json.value obj "x") dzero) = true
      /\ is_double (Json.toDouble (Json.value obj "y") dzero) = true
      /\ is_double (Json.toDouble (Json.value obj "width") dzero) = true
      /\ is_double (Json.toDouble (Json.value obj "height") dzero) = true
  | _ => True
  end.

(** A whole number strictly between [-2^30] and [2^30]. *)
Definition modest (n : Z) : Prop := - 2 ^ 30 < n < 2 ^ 30.

(** The entry is an object that gives the position and the size [m] of a
    monitor as whole numbers, at scale 1.0 or without a scale. *)
Definition wholeMonitor (v : QJsonValue) (m : Z * Z * Z * Z) : Prop :=
  let '(x, y, width, height) := m in
  modest x /\ modest y /\ modest width /\ modest height
  /\ exists obj,
       v = JObject obj
       /\ Json.value obj "x" = JDouble (double_of_int x)
       /\ Json.value obj "y" = JDouble (double_of_int y)
       /\ Json.value obj "width" = JDouble (double_of_int width)
       /\ Json.value obj "height" = JDouble (double_of_int height)
       /\ Json.toDouble (Json.value obj "scale") done = done.

(** The monitor has a positive size; its rectangle. *)
Definition shown (m : Z * Z * Z * Z) : bool :=
  let '(_, _, width, height) := m in (0 <? width) && (0 <? height).

Definition monitorRect (m : Z * Z * Z * Z) : QRect :=
  let '(x, y, width, height) := m in Rect.make x y width height.

(** The same session with another run of grim. *)
Definition withGrimRun (env : Env) (run : ProcessRun) : Env :=
  {| waylandDetected := waylandDetected env;
     windowManager := windowManager env;
     useGrimAdapter := useGrimAdapter env;
     disabledGrimWarning := disabledGrimWarning env;
     screens := screens env;
     appDevicePixelRatio := appDevicePixelRatio env;
     grabWindow := grabWindow env;
     runtimeDir := runtimeDir env;
     grimRun := run;
     hyprctlRun := hyprctlRun env;
     hyprctlJson := hyprctlJson env;
     hyprctlParseError := hyprctlParseError env;
     imageFile := imageFile env;
     serviceRegistered := serviceRegistered env;
     baseService := baseService env;
     createUuid := createUuid env;
     busEvents := busEvents env |}.

(** The monitor query is started: [hyprctl monitors -j]. *)
Definition isHyprctlStart (e : Event) : bool :=
  match e with
  | ProcessStart program arguments =>
      String.eqb program "hyprctl"
      && match arguments with
         | [a; b] => String.eqb a "monitors" && String.eqb b "-j"
         | _ => false
         end
  | _ => false
  end.

(** How often a trace starts the monitor query. *)
Definition hyprctlStarts (t : list Event) : nat :=
  List.length (filter isHyprctlStart t).

(** The claim of C4 on cleanup, as the spec has it: whenever the request
    object has been made, the round trip comes to a point at which [Close]
    has been called and the handler disconnected, be it by a response or by
    a timeout. *)
Definition cleanupOnEveryPath : Prop :=
  forall env ok res,
    serviceRegistered env = true ->
    exists fuel,
      In Close (fst (freeDesktopPortalRun env fuel ok res))
      /\ In (Disconnect responseSignal) (fst (freeDesktopPortalRun env fuel ok res)).

(** The request's [Response] is the event number [n], and the first one. *)
Definition firstResponse (env : Env) (n : nat) (status : Z) (uriString : string)
  : Prop :=
  (forall k, (k < n)%nat -> busEvents env k = Unrelated)
  /\ busEvents env n = Response status uriString.

(** [z / 2^n] rounded to the nearest whole number, halves to the even
    one. *)
Definition rne (z n : Z) : Z :=
  let q := z / 2 ^ n in
  let r := z mod 2 ^ n in
  if 2 * r <? 2 ^ n then q
  else if 2 ^ n <? 2 * r then q + 1
  else if Z.even q then q else q + 1.

(** A double that is zero, or positive, finite and of the format. *)
Definition regular (x : qreal) : bool :=
  match x with
  | S754_zero _ => true
  | S754_finite false m e => bounded prec64 emax64 m e
  | _ => false
  end.

(** The value of such a double, counted in units of [2^-1074]. *)
Definition val (x : qreal) : Z :=
  match x with
  | S754_finite false m e => Zpos m * 2 ^ (e + 1074)
  | _ => 0
  end.

(** A number of such units rounded to 53 digits, to nearest even. *)
Definition rn (z : Z) : Z :=
  let n := Z.max (Zdigits2 z - 53) 0 in
  rne z n * 2 ^ n.

(** One axis of a rectangle of doubles: the corner [p] and the extent [s]
    are zero or positive, and neither they nor their sum, as the code
    computes it, pass the whole number [N]. *)
Definition within (N : Z) (p s : qreal) : Prop :=
  regular p = true /\ regular s = true
  /\ val p <= N * 2 ^ 1074 /\ val s <= N * 2 ^ 1074
  /\ regular (dadd p s) = true
  /\ val (dadd p s) <= N * 2 ^ 1074.

(** The screen has at least one pixel, its coordinates are modest, so that
    no operation on them leaves the range of [int], and its scale is a
    finite double that is at least 1. *)
Definition modestScreen (s : QScreen) : Prop :=
  modest (x1 (geometry s)) /\ modest (y1 (geometry s))
  /\ modest (x2 (geometry s)) /\ modest (y2 (geometry s))
  /\ proper (geometry s)
  /\ scaleAtLeastOne (devicePixelRatio s) = true.

(** The entry is an object that gives the position and the size [m] of a
    monitor as whole numbers, at the scale [scale]. *)
Definition scaledMonitor (v : QJsonValue) (m : Z * Z * Z * Z) (scale : qreal) : Prop :=
  let '(x, y, width, height) := m in
  modest x /\ modest y /\ modest width /\ modest height
  /\ exists obj,
       v = JObject obj
       /\ Json.value obj "x" = JDouble (double_of_int x)
       /\ Json.value obj "y" = JDouble (double_of_int y)
       /\ Json.value obj "width" = JDouble (double_of_int width)
       /\ Json.value obj "height" = JDouble (double_of_int height)
       /\ Json.toDouble (Json.value obj "scale") done = scale.

(** The rectangle that the loop over the monitors adds to the logical
    union for the monitor [m] at the scale [scale]. *)
Definition logicalMonitorRect (m : Z * Z * Z * Z) (scale : qreal) : QRect :=
  let '(x, y, width, height) := m in
  Rect.make (toInt (ddiv (double_of_int x) scale))
            (toInt (ddiv (double_of_int y) scale))
            (toInt (ddiv (double_of_int width) scale))
            (toInt (ddiv (double_of_int height) scale)).

(** The entries of the monitor query are monitors given by whole numbers,
    each at a scale that is a finite double of at least 1. *)
Definition scaledMonitors (items : list QJsonValue)
                          (ms : list (Z * Z * Z * Z * qreal)) : Prop :=
  Forall2 (fun v e => scaledMonitor v (fst e) (snd e)
                      /\ scaleAtLeastOne (snd e) = true) items ms.

(** An axis of a rectangle of integers that starts at 0 or above, is not
    turned around, and ends below [N]. *)
Definition spans (N lo hi : Z) : Prop := 0 <= lo /\ lo - 1 <= hi /\ hi + 1 <= N.

(** The double [x] is zero or positive and differs from the quotient
    [a / b] by at most the fraction [2^-k] of it. *)
Definition nearQuotient (x : qreal) (a b k : Z) : Prop :=
  regular x = true
  /\ 2 ^ k * Z.abs (val x * b - a * 2 ^ 1074) <= a * 2 ^ 1074.

(** * Sample sessions *)

Module Sample.

Local Open Scope string_scope.

Definition monitor (x y width height : Z) (scale : qreal) : QJsonValue :=
  JObject [("name", JString "DP-1");
           ("width", JDouble (double_of_int width));
           ("height", JDouble (double_of_int height));
           ("x", JDouble (double_of_int x));
           ("y", JDouble (double_of_int y));
           ("scale", JDouble scale)].

Definition goodMonitor : QJsonValue := monitor 0 0 1920 1080 done.
Definition zeroScaleMonitor : QJsonValue := monitor 1920 0 2560 1440 dzero.

Definition screen (x y width height : Z) (scale : qreal) : QScreen :=
  mkQScreen (Rect.make x y width height) scale.

(** A session described by its kind, its configuration, its screens and
    the answers of the tools and of the bus. *)
Definition session (wayland : bool) (wm : WM) (grim : bool)
           (scr : list QScreen) (grimRuns hyprctlRuns : ProcessRun)
           (json : option QJsonValue) (file : string -> QPixmap)
           (registered : bool) (bus : nat -> LoopEvent) : Env :=
  {| waylandDetected := wayland;
     windowManager := wm;
     useGrimAdapter := grim;
     disabledGrimWarning := false;
     screens := scr;
     appDevicePixelRatio := done;
     grabWindow := fun _ _ width height => Pixmap width height done;
     runtimeDir := "/run/user/1000";
     grimRun := grimRuns;
     hyprctlRun := hyprctlRuns;
     hyprctlJson := json;
     hyprctlParseError := "no error occurred";
     imageFile := file;
     serviceRegistered := registered;
     baseService := ":1.42";
     createUuid := "{3f2504e0-4f89-11d3-9a0c-0305e82c3301}";
     busEvents := bus |}.

Definition noFile : string -> QPixmap := fun _ => NullPixmap.
Definition silentBus : nat -> LoopEvent := fun _ => Unrelated.

(** Hyprland with one screen, the answer of the monitor query left open;
    then a query that lists a single zero-scale monitor. *)
Definition hyprland (json : option QJsonValue) (runs : ProcessRun) : Env :=
  session true HYPRLAND true [screen 0 0 1920 1080 done] FailedToStart runs
          json noFile false silentBus.

Definition hyprlandOnlyBad : Env :=
  hyprland (Some (JArray [zeroScaleMonitor])) (Exits 0 20).

End Sample.

Module SampleC1.

(** One screen of 1600x1000 at scale 1, and a capture of twice that
    size. *)
Definition x11 : Env :=
  Sample.session false OTHER false [Sample.screen 0 0 1600 1000 done]
                 FailedToStart FailedToStart None Sample.noFile false
                 Sample.silentBus.

(** One screen of 3200x2000 at scale 2: the logical geometry is
    1600x1000. *)
Definition hidpi : Env :=
  Sample.session false OTHER false [Sample.screen 0 0 3200 2000 (dyadic 2 0)]
                 FailedToStart FailedToStart None Sample.noFile false
                 Sample.silentBus.

End SampleC1.

Module SamplePortal.

Local Open Scope string_scope.

Definition shot : QPixmap := Pixmap 1920 1080 done.

Definition files (path : string) : QPixmap :=
  if String.eqb path "/tmp/shot.png" then shot else NullPixmap.

(** GNOME on Wayland, one screen of 1920x1080. *)
Definition gnome (registered : bool) (bus : nat -> LoopEvent) : Env :=
  Sample.session true GNOME false [Sample.screen 0 0 1920 1080 done]
                 FailedToStart FailedToStart None files registered bus.

(** The broker answers with the third event. *)
Definition answers (status : Z) : nat -> LoopEvent :=
  fun n => match n with
           | 2%nat => Response status "/tmp/shot.png"
           | _ => Unrelated
           end.

End SamplePortal.

Module SampleDispatch.

(** Sway (a wlroots compositor) with the helper preferred, and grim
    missing. *)
Definition swayNoGrim : Env :=
  Sample.session true WLROOTS true [Sample.screen 0 0 1920 1080 done]
                 FailedToStart FailedToStart None Sample.noFile true
                 Sample.silentBus.

(** A Wayland session of no known family. *)
Definition unknown : Env :=
  Sample.session true UNCLASSIFIED true [Sample.screen 0 0 1920 1080 done]
                 FailedToStart FailedToStart None Sample.noFile true
                 Sample.silentBus.

End SampleDispatch.

Module SampleGrim.

Local Open Scope string_scope.

Definition shot : QPixmap := Pixmap 1920 1080 done.

Definition files (path : string) : QPixmap :=
  if String.eqb path "/run/user/1000/flameshot.ppm" then shot else NullPixmap.

(** A compositor of the family OTHER, the helper preferred. *)
Definition other (runs : ProcessRun) (file : string -> QPixmap) : Env :=
  Sample.session true OTHER true [Sample.screen 0 0 1920 1080 done]
                 runs FailedToStart None file true Sample.silentBus.

(** grim exits with status 1 after 40 ms and writes no file, as it does
    on a compositor without the screencopy protocol. *)
Definition grimExitsWithError : Env := other (Exits 1 40) Sample.noFile.

End SampleGrim.

Module SampleC9.

(** A at (0,0), 1920x1080, scale 1.0; B at (1920,0), 2560x1440, scale
    1.25. *)
Definition A : QScreen := Sample.screen 0 0 1920 1080 done.
Definition B : QScreen := Sample.screen 1920 0 2560 1440 (dyadic 5 (-2)).

Definition twoOutputs : Env :=
  Sample.session false OTHER false [A; B] FailedToStart FailedToStart None
                 Sample.noFile false Sample.silentBus.

End SampleC9.

Module SampleC8.

(** Two outputs of 1920x1080, one above the other, both 1920 pixels to the
    right of the origin; the lower one has scale 2. *)
Definition stacked : Env :=
  Sample.session false OTHER false
                 [Sample.screen 1920 0 1920 1080 done;
                  Sample.screen 1920 1080 1920 1080 (dyadic 2 0)]
                 FailedToStart FailedToStart None Sample.noFile false
                 Sample.silentBus.

(** An output at the origin with an output of scale 1.25 to its right and
    one of scale 2 below. *)
Definition atOrigin : Env :=
  Sample.session false OTHER false
                 [Sample.screen 0 0 1920 1080 done;
                  Sample.screen 1920 0 2560 1440 (dyadic 5 (-2));
                  Sample.screen 0 1080 3840 2160 (dyadic 2 0)]
                 FailedToStart FailedToStart None Sample.noFile false
                 Sample.silentBus.

(** An output of 4000x1000 at the origin and one of 1000x1000 to its left,
    whose scale is the double after the fourteenth after 1. *)
Definition leftOfOrigin : Env :=
  Sample.session false OTHER false
                 [Sample.screen 0 0 4000 1000 done;
                  Sample.screen (-1000) 0 1000 1000 (dyadic (2 ^ 52 + 14) (-52))]
                 FailedToStart FailedToStart None Sample.noFile false
                 Sample.silentBus.

End SampleC8.


Module SampleOrder.

(** The screens of [SampleC8.atOrigin], enumerated backwards. *)
Definition reversed : Env :=
  Sample.session false OTHER false (rev (screens SampleC8.atOrigin))
                 FailedToStart FailedToStart None Sample.noFile false
                 Sample.silentBus.

End SampleOrder.

Module SampleC7.

(** Hyprland reports a monitor of 2560x1440 and a second one whose scale
    is 0, while Qt lists one screen of 1920x1080. *)
Definition wideMonitor : QJsonValue := Sample.monitor 0 0 2560 1440 done.

Definition mixed : Env :=
  Sample.hyprland (Some (JArray [wideMonitor; Sample.zeroScaleMonitor]))
                  (Exits 0 20).

End SampleC7.

Module SampleScaled.

(** Hyprland reports a monitor of 2560x1440 at scale 1.25 to the right of
    one of 1920x1080 at scale 1, and lists the right one first. *)
Definition rightMonitor : QJsonValue := Sample.monitor 1920 0 2560 1440 (dyadic 5 (-2)).

Definition rightFirst : Env :=
  Sample.hyprland (Some (JArray [rightMonitor; Sample.goodMonitor])) (Exits 0 20).

End SampleScaled.

(** * Properties *)

(** ** Computations that always return *)

Lemma returns_ret {A} (a : A) : returns (ret a).
Proof. now exists a, []. Qed.

Lemma returns_tell (e : Event) : returns (tell e).
Proof. now exists tt, [e]. Qed.

Lemma returns_bind {A B} (m : M A) (k : A -> M B) :
  returns m -> (forall a, returns (k a)) -> returns (bind m k).
Proof.
  intros (a & t & ->) Hk. destruct (Hk a) as (b & t' & E).
  exists b, (t ++ t'). unfold bind. now rewrite E.
Qed.

Lemma bind_Some {A B} (m : M A) (k : A -> M B) b t :
  bind m k = Some (b, t) ->
  exists a t1 t2, m = Some (a, t1) /\ k a = Some (b, t2) /\ t = t1 ++ t2.
Proof.
  unfold bind. destruct m as [[a t1]|]; [|discriminate].
  destruct (k a) as [[b' t2]|] eqn:E; [|discriminate].
  intros [= <- <-]. now exists a, t1, t2.
Qed.

Lemma result_bind {A B} (m : M A) (k : A -> M B) :
  result (bind m k)
  = match result m with Some a => result (k a) | None => None end.
Proof.
  unfold result, bind. destruct m as [[a t]|]; simpl; [|reflexivity].
  destruct (k a) as [[b t']|]; reflexivity.
Qed.

Ltac returns_step :=
  match goal with
  | |- returns (bind _ _) => apply returns_bind; [| intros ?]
  | |- returns (ret _) => apply returns_ret
  | |- returns (tell _) => apply returns_tell
  | |- returns (if ?c then _ else _) => destruct c
  | |- returns (let '(_, _) := ?p in _) => destruct p
  | |- returns (match ?x with _ => _ end) => destruct x
  end.

Lemma hyprlandDesktopGeometries_returns env physical logical :
  returns (hyprlandDesktopGeometries env physical logical).
Proof. unfold hyprlandDesktopGeometries. repeat returns_step. Qed.

Lemma desktopGeometry_returns env : returns (desktopGeometry env).
Proof.
  unfold desktopGeometry. apply returns_bind.
  - apply hyprlandDesktopGeometries_returns.
  - intros [[got p] l]. destruct got; apply returns_ret.
Qed.

Lemma logicalDesktopGeometry_returns env : returns (logicalDesktopGeometry env).
Proof.
  unfold logicalDesktopGeometry. apply returns_bind.
  - apply hyprlandDesktopGeometries_returns.
  - intros [[got p] l]. destruct got; apply returns_ret.
Qed.

Lemma adjustDevicePixelRatio_returns env pixmap :
  returns (adjustDevicePixelRatio env pixmap).
Proof.
  unfold adjustDevicePixelRatio.
  apply returns_bind; [apply desktopGeometry_returns | intros physicalGeo].
  apply returns_bind; [apply logicalDesktopGeometry_returns | intros logicalGeo].
  repeat returns_step.
Qed.

Lemma gotSignal_returns env res status uriString :
  returns (gotSignal env res status uriString).
Proof.
  unfold gotSignal. destruct (status =? 0); [|apply returns_ret].
  apply returns_bind; [apply returns_tell | intros _].
  apply returns_bind; [apply adjustDevicePixelRatio_returns | intros res'].
  repeat returns_step.
Qed.

Lemma generalGrimScreenshot_returns env ok res :
  returns (generalGrimScreenshot env ok res).
Proof.
  unfold generalGrimScreenshot.
  destruct (negb (useGrimAdapter env)); [apply returns_ret|].
  apply returns_bind; [apply returns_tell | intros _].
  destruct (waitForFinished (grimRun env) defaultWait).
  - apply returns_bind; [apply returns_tell | intros _].
    apply returns_bind; [apply returns_tell | intros _].
    apply returns_bind; [apply adjustDevicePixelRatio_returns | intros res'].
    apply returns_ret.
  - repeat returns_step.
Qed.

(** ** The Hyprland monitor query *)

Section Hyprland.

Lemma monitorEntry_skip acc v :
  accepted v = false -> monitorEntry acc v = acc.
Proof.
  destruct acc as [[p l] g]. destruct v; simpl; try reflexivity.
  unfold nonPositive. intros H. apply negb_false_iff in H.
  now rewrite H.
Qed.

Lemma monitorEntry_got acc v :
  snd (monitorEntry acc v) = snd acc || accepted v.
Proof.
  destruct acc as [[p l] g]. destruct v; simpl; try now rewrite orb_false_r.
  fold (nonPositive members).
  destruct (nonPositive members); simpl; [now rewrite orb_false_r | now rewrite orb_true_r].
Qed.

Lemma fold_monitorEntry_filter items acc :
  fold_left monitorEntry items acc
  = fold_left monitorEntry (filter accepted items) acc.
Proof.
  revert acc. induction items as [|v items IH]; intros acc; simpl; [reflexivity|].
  destruct (accepted v) eqn:E; simpl.
  - apply IH.
  - rewrite (monitorEntry_skip acc v E). apply IH.
Qed.

Lemma fold_monitorEntry_got items acc :
  snd (fold_left monitorEntry items acc) = snd acc || existsb accepted items.
Proof.
  revert acc. induction items as [|v items IH]; intros acc; simpl.
  - now rewrite orb_false_r.
  - rewrite IH, monitorEntry_got. now rewrite orb_assoc.
Qed.

Lemma monitorLoop_got items :
  snd (monitorLoop items) = existsb accepted items.
Proof. unfold monitorLoop. now rewrite fold_monitorEntry_got. Qed.

(** What the function gives, case by case. *)
Lemma hyprlandDesktopGeometries_result env physical logical :
  result (hyprlandDesktopGeometries env physical logical)
  = Some
      (if hyprlandSession env && negb (queryFails env)
       then
         match hyprctlJson env with
         | Some (JArray items) =>
             (true, fst (fst (monitorLoop items)), snd (fst (monitorLoop items)))
         | _ => (false, physical, logical)
         end
       else (false, physical, logical)).
Proof.
  unfold hyprlandDesktopGeometries, hyprlandSession, queryFails.
  destruct (waylandDetected env && WM_eqb (windowManager env) HYPRLAND);
    simpl; [|reflexivity].
  destruct (waitForFinished (hyprctlRun env) 1000); simpl; [|reflexivity].
  destruct (hyprctlJson env) as [[| | | | |items|]|]; simpl; try reflexivity.
  rewrite <- monitorLoop_got.
  destruct (monitorLoop items) as [[p l] g]. simpl. now destruct g.
Qed.

End Hyprland.

(** ** C10 and C7: what the monitor query changes, and what it skips *)

(** C10. [hyprlandDesktopGeometries] always returns; when it returns false
    (the session is not Hyprland, the tool does not finish within the
    second, its output is not a JSON array, or no entry is accepted) the two
    reference parameters keep the caller's values; when it returns true, an
    entry was accepted and the parameters are the two unions. *)
Theorem hyprland_false_keeps_parameters (env : Env) (physical logical : QRect) :
  exists got p l,
    result (hyprlandDesktopGeometries env physical logical) = Some (got, p, l)
    /\ (got = false -> p = physical /\ l = logical)
    /\ (hyprlandSession env = false \/ queryFails env = true -> got = false)
    /\ (got = true ->
        exists items,
          hyprctlJson env = Some (JArray items)
          /\ existsb accepted items = true
          /\ p = fst (fst (monitorLoop items))
          /\ l = snd (fst (monitorLoop items))).
Proof.
  rewrite hyprlandDesktopGeometries_result.
  destruct (hyprlandSession env) eqn:S, (queryFails env) eqn:Q; simpl;
    try (exists false, physical, logical;
         repeat split; try reflexivity; discriminate).
  unfold queryFails in Q. apply orb_false_iff in Q. destruct Q as [_ Q].
  destruct (hyprctlJson env) as [[| | | | |items|]|]; try discriminate.
  apply negb_false_iff in Q.
  exists true, (fst (fst (monitorLoop items))), (snd (fst (monitorLoop items))).
  repeat split; try discriminate.
  - intros [H|H]; discriminate.
  - intros _. now exists items.
Qed.

Lemma hyprland_false_keeps_parameters_witness :
  result (hyprlandDesktopGeometries Sample.hyprlandOnlyBad
            (Rect.make 1 2 3 4) (Rect.make 5 6 7 8))
  = Some (false, Rect.make 1 2 3 4, Rect.make 5 6 7 8).
Proof.
  destruct (hyprland_false_keeps_parameters Sample.hyprlandOnlyBad
              (Rect.make 1 2 3 4) (Rect.make 5 6 7 8))
    as (got & p & l & E & Hfalse & Hfails & _).
  assert (G : got = false) by (apply Hfails; right; vm_compute; reflexivity).
  destruct (Hfalse G) as [-> ->]. rewrite E, G. reflexivity.
Defined.

(** C7. In the Hyprland query an entry whose width, height or scale is not
    positive changes neither union: the loop gives what it gives on the
    accepted entries alone. When the query succeeds, that is what
    [hyprlandDesktopGeometries] hands back with [true] and what both
    geometry functions return, whatever Qt says about the screens; so a
    good entry together with a zero-scale one gives the unions of the good
    entry. When the query fails (the tool does not finish within the
    second, its output is not a JSON array, or no entry is accepted) the
    function returns [false] and both geometries are those of the loops
    over the screens. *)
Theorem hyprland_skips_and_falls_back :
  (forall acc obj, nonPositive obj = true -> monitorEntry acc (JObject obj) = acc)
  /\ (forall items, monitorLoop items = monitorLoop (filter accepted items))
  /\ (forall env items physical logical,
        hyprlandSession env = true ->
        waitForFinished (hyprctlRun env) 1000 = true ->
        hyprctlJson env = Some (JArray items) ->
        existsb accepted items = true ->
        let unions := monitorLoop (filter accepted items) in
        result (hyprlandDesktopGeometries env physical logical)
        = Some (true, fst (fst unions), snd (fst unions))
        /\ result (desktopGeometry env) = Some (fst (fst unions))
        /\ result (logicalDesktopGeometry env) = Some (snd (fst unions)))
  /\ (forall env good bad items physical logical,
        hyprlandSession env = true ->
        waitForFinished (hyprctlRun env) 1000 = true ->
        hyprctlJson env = Some (JArray items) ->
        items = [good; bad] \/ items = [bad; good] ->
        accepted good = true -> accepted bad = false ->
        result (hyprlandDesktopGeometries env physical logical)
        = Some (true, fst (fst (monitorLoop [good])), snd (fst (monitorLoop [good])))
        /\ result (desktopGeometry env) = Some (fst (fst (monitorLoop [good])))
        /\ result (logicalDesktopGeometry env)
           = Some (snd (fst (monitorLoop [good]))))
  /\ monitorLoop [SampleC7.wideMonitor]
     = (Rect.make 0 0 2560 1440, Rect.make 0 0 2560 1440, true)
  /\ result (desktopGeometry SampleC7.mixed) = Some (Rect.make 0 0 2560 1440)
  /\ result (logicalDesktopGeometry SampleC7.mixed)
     = Some (Rect.make 0 0 2560 1440)
  /\ (forall env physical logical,
        hyprlandSession env = false \/ queryFails env = true ->
        result (hyprlandDesktopGeometries env physical logical)
        = Some (false, physical, logical)
        /\ result (desktopGeometry env) = Some (screensUnion (screens env))
        /\ result (logicalDesktopGeometry env)
           = Some (RectF.toAlignedRect (screensLogicalUnion (screens env)))).
Proof.
  assert (Good : forall env items physical logical,
             hyprlandSession env = true ->
             waitForFinished (hyprctlRun env) 1000 = true ->
             hyprctlJson env = Some (JArray items) ->
             existsb accepted items = true ->
             result (hyprlandDesktopGeometries env physical logical)
             = Some (true, fst (fst (monitorLoop (filter accepted items))),
                     snd (fst (monitorLoop (filter accepted items))))
             /\ result (desktopGeometry env)
                = Some (fst (fst (monitorLoop (filter accepted items))))
             /\ result (logicalDesktopGeometry env)
                = Some (snd (fst (monitorLoop (filter accepted items))))).
  { intros env items physical logical S W J A.
    assert (Q : queryFails env = false).
    { unfold queryFails. now rewrite W, J, A. }
    assert (R : forall p l,
               result (hyprlandDesktopGeometries env p l)
               = Some (true, fst (fst (monitorLoop (filter accepted items))),
                       snd (fst (monitorLoop (filter accepted items))))).
    { intros p l. rewrite hyprlandDesktopGeometries_result, S, Q, J.
      cbn [negb andb]. unfold monitorLoop.
      now rewrite <- (fold_monitorEntry_filter items). }
    split; [apply R|].
    unfold desktopGeometry, logicalDesktopGeometry.
    rewrite !result_bind, R. split; reflexivity. }
  split; [|split; [|split; [|split; [|split; [|split; [|split]]]]]].
  - intros acc obj H. apply monitorEntry_skip. simpl. now rewrite H.
  - intros items. apply fold_monitorEntry_filter.
  - intros env items physical logical S W J A. cbv zeta. now apply Good.
  - intros env good bad items physical logical S W J I Hg Hb.
    assert (F : filter accepted items = [good]).
    { destruct I as [-> | ->]; simpl; now rewrite Hg, Hb. }
    assert (A : existsb accepted items = true).
    { destruct I as [-> | ->]; simpl; rewrite Hg, Hb; reflexivity. }
    rewrite <- F. now apply Good.
  - vm_compute. reflexivity.
  - vm_compute. reflexivity.
  - vm_compute. reflexivity.
  - intros env physical logical Q.
    assert (R : forall p l,
               result (hyprlandDesktopGeometries env p l) = Some (false, p, l)).
    { intros p l. rewrite hyprlandDesktopGeometries_result.
      destruct Q as [-> | ->]; [reflexivity | now rewrite andb_false_r]. }
    split; [apply R|].
    unfold desktopGeometry, logicalDesktopGeometry.
    rewrite !result_bind, R. split; reflexivity.
Qed.

Lemma hyprland_skips_and_falls_back_witness :
  result (desktopGeometry SampleC7.mixed)
  = Some (fst (fst (monitorLoop [SampleC7.wideMonitor])))
  /\ result (desktopGeometry Sample.hyprlandOnlyBad)
     = Some (Rect.make 0 0 1920 1080)
  /\ result (desktopGeometry (Sample.hyprland None Hangs))
     = Some (Rect.make 0 0 1920 1080).
Proof.
  destruct hyprland_skips_and_falls_back as (_ & _ & _ & Hmix & _ & _ & _ & Hfall).
  split; [|split].
  - apply (Hmix SampleC7.mixed SampleC7.wideMonitor Sample.zeroScaleMonitor
                [SampleC7.wideMonitor; Sample.zeroScaleMonitor]
                Rect.null Rect.null);
      first [reflexivity | now left | vm_compute; reflexivity].
  - apply (Hfall Sample.hyprlandOnlyBad Rect.null Rect.null).
    right. vm_compute. reflexivity.
  - apply (Hfall (Sample.hyprland None Hangs) Rect.null Rect.null).
    right. vm_compute. reflexivity.
Defined.

(** ** C1: the device pixel ratio of a captured image *)


Lemma returns_result {A} (m : M A) : returns m -> exists a, result m = Some a.
Proof. intros (a & t & ->). now exists a. Qed.

Lemma QSize_eqb_eq (a b : QSize) : QSize_eqb a b = true <-> a = b.
Proof.
  destruct a as [wa ha], b as [wb hb]. unfold QSize_eqb. simpl.
  rewrite andb_true_iff, !Z.eqb_eq. split.
  - now intros [-> ->].
  - now intros [= -> ->].
Qed.

Lemma QSize_eqb_neq (a b : QSize) : QSize_eqb a b = false <-> a <> b.
Proof.
  rewrite <- QSize_eqb_eq. destruct (QSize_eqb a b); split; congruence.
Qed.

(** ** C3, C4, C5: the round trip to the permission broker *)

Lemma freeDesktopPortal_unregistered env fuel ok res :
  serviceRegistered env = false ->
  freeDesktopPortal env fuel ok res
  = Some ((false, res), [IsServiceRegistered service; Log Error msgNoPortal]).
Proof. intros H. unfold freeDesktopPortal. now rewrite H. Qed.

(** C3. When the broker's service is not registered on the session bus,
    [freeDesktopPortal] returns at once (whatever the bus would deliver
    later) with [ok = false] and the caller's pixmap; all it has done is to
    ask for the registration and to log the error: no request object is
    made and nothing is called on the bus. *)
Theorem portal_unregistered_fails_at_once
  (env : Env) (fuel : nat) (ok : bool) (res : QPixmap) :
  serviceRegistered env = false ->
  freeDesktopPortal env fuel ok res
  = Some ((false, res), [IsServiceRegistered service; Log Error msgNoPortal])
  /\ existsb requestOrCall (events (freeDesktopPortal env fuel ok res)) = false.
Proof.
  intros H. rewrite (freeDesktopPortal_unregistered _ _ _ _ H).
  split; reflexivity.
Qed.

Lemma portal_unregistered_fails_at_once_witness :
  freeDesktopPortal (SamplePortal.gnome false (SamplePortal.answers 0)) 0 true NullPixmap
  = Some ((false, NullPixmap), [IsServiceRegistered service; Log Error msgNoPortal]).
Proof.
  apply (portal_unregistered_fails_at_once
           (SamplePortal.gnome false (SamplePortal.answers 0)) 0 true NullPixmap).
  reflexivity.
Defined.

Lemma freeDesktopPortal_registered env fuel ok res :
  serviceRegistered env = true ->
  freeDesktopPortal env fuel ok res
  = match loopExec env fuel 0 with
    | None => None
    | Some (status, uriString) =>
        match gotSignal env res status uriString with
        | None => None
        | Some (res', t1) =>
            Some ((if Pix.isNull res' then false else ok, res'),
                  portalPrologue env ++ t1
                  ++ [Disconnect responseSignal; Close; DeleteLater])
        end
    end.
Proof.
  intros H. unfold freeDesktopPortal. rewrite H. simpl.
  destruct (loopExec env fuel 0) as [[status uriString]|]; [|reflexivity].
  unfold bind at 1.
  destruct (gotSignal env res status uriString) as [[res' t1]|]; [|reflexivity].
  destruct (Pix.isNull res'); reflexivity.
Qed.


(** A round trip that succeeds: the broker answers with the third event
    and status 0; with only two events looked at the call has not
    returned. *)
Example portal_round_trip :
  freeDesktopPortal (SamplePortal.gnome true (SamplePortal.answers 0)) 3 true NullPixmap
  = Some ((true, SamplePortal.shot),
          portalPrologue (SamplePortal.gnome true (SamplePortal.answers 0))
          ++ [LoadImage "/tmp/shot.png"; RemoveFile "/tmp/shot.png"]
          ++ [Disconnect responseSignal; Close; DeleteLater])
  /\ freeDesktopPortal (SamplePortal.gnome true (SamplePortal.answers 0)) 2 true NullPixmap
     = None.
Proof. split; vm_compute; reflexivity. Qed.

(** The wait ends with the first [Response] among the events. *)
Lemma loopExec_finds env n : forall next status uriString,
  busEvents env (next + n) = Response status uriString ->
  exists status' uriString', loopExec env (S n) next = Some (status', uriString').
Proof.
  induction n as [|n IH]; intros next status uriString H; simpl.
  - rewrite Nat.add_0_r in H. rewrite H. now exists status, uriString.
  - destruct (busEvents env next) as [s u|] eqn:E; [now exists s, u|].
    apply (IH (S next) status uriString).
    now rewrite Nat.add_succ_l, <- Nat.add_succ_r.
Qed.

Lemma loopExec_found env fuel : forall next status uriString,
  loopExec env fuel next = Some (status, uriString) ->
  exists n, busEvents env n = Response status uriString.
Proof.
  induction fuel as [|fuel IH]; intros next status uriString; simpl; [discriminate|].
  destruct (busEvents env next) as [s u|] eqn:E.
  - intros [= <- <-]. now exists next.
  - apply IH.
Qed.

Lemma loopExec_silent env fuel : forall next,
  (forall n, busEvents env n = Unrelated) -> loopExec env fuel next = None.
Proof.
  induction fuel as [|fuel IH]; intros next H; simpl; [reflexivity|].
  rewrite H. now apply IH.
Qed.

(** More fuel does not change an answer. *)
Lemma loopExec_more env fuel : forall next extra r,
  loopExec env fuel next = Some r ->
  loopExec env (fuel + extra) next = Some r.
Proof.
  induction fuel as [|fuel IH]; intros next extra r; simpl; [discriminate|].
  destruct (busEvents env next); [trivial | apply IH].
Qed.

(** C5, refuted: with a registered broker that never sends the response,
    [freeDesktopPortal] does not return, however many events its loop is
    given: the function starts no timer. *)
Lemma portal_wait_can_last_forever :
  (forall fuel,
     freeDesktopPortal (SamplePortal.gnome true Sample.silentBus) fuel true NullPixmap
     = None)
  /\ ~ waitAlwaysEnds.
Proof.
  assert (H : forall fuel,
             freeDesktopPortal (SamplePortal.gnome true Sample.silentBus)
                               fuel true NullPixmap = None).
  { intros fuel. rewrite freeDesktopPortal_registered by reflexivity.
    now rewrite loopExec_silent. }
  split; [exact H|].
  intros W.
  destruct (W (SamplePortal.gnome true Sample.silentBus) true NullPixmap)
    as (fuel & a & t & E).
  rewrite H in E. discriminate.
Qed.

(** C5, amended. [freeDesktopPortal] returns exactly when the broker's
    service is not registered or the request's [Response] is among the
    events that the loop is given; there is no timeout. Once it returns,
    more events change nothing. *)
Theorem portal_returns_iff_response (env : Env) (ok : bool) (res : QPixmap) :
  ((exists fuel, returns (freeDesktopPortal env fuel ok res))
   <-> (serviceRegistered env = false
        \/ exists n status uriString, busEvents env n = Response status uriString))
  /\ (forall fuel extra r,
        freeDesktopPortal env fuel ok res = Some r ->
        freeDesktopPortal env (fuel + extra) ok res = Some r).
Proof.
  split; [split|].
  - intros (fuel & r & t & E).
    destruct (serviceRegistered env) eqn:Hreg; [right | now left].
    rewrite (freeDesktopPortal_registered _ _ _ _ Hreg) in E.
    destruct (loopExec env fuel 0) as [[status uriString]|] eqn:L; [|discriminate].
    destruct (loopExec_found _ _ _ _ _ L) as [n Hn]. now exists n, status, uriString.
  - intros [Hreg | (n & status & uriString & H)].
    + exists 0%nat. eexists. eexists.
      apply (freeDesktopPortal_unregistered env 0 ok res Hreg).
    + destruct (serviceRegistered env) eqn:Hreg.
      * destruct (loopExec_finds env n 0 status uriString H) as (s & u & L).
        exists (S n). rewrite (freeDesktopPortal_registered _ _ _ _ Hreg), L.
        destruct (gotSignal_returns env res s u) as (res' & t1 & ->).
        eexists. eexists. reflexivity.
      * exists 0%nat. eexists. eexists.
        apply (freeDesktopPortal_unregistered env 0 ok res Hreg).
  - intros fuel extra r E.
    destruct (serviceRegistered env) eqn:Hreg.
    + rewrite (freeDesktopPortal_registered _ _ _ _ Hreg) in E.
      rewrite (freeDesktopPortal_registered _ _ _ _ Hreg).
      destruct (loopExec env fuel 0) as [p|] eqn:L; [|discriminate].
      now rewrite (loopExec_more _ _ _ extra _ L).
    + rewrite (freeDesktopPortal_unregistered env _ ok res Hreg) in E.
      now rewrite (freeDesktopPortal_unregistered env _ ok res Hreg).
Qed.

(** ** C2: the choice of the backend *)

Lemma invoked_app b t1 t2 : invoked b (t1 ++ t2) = invoked b t1 || invoked b t2.
Proof. apply existsb_app. Qed.

Lemma events_bind {A B} (m : M A) (k : A -> M B) :
  events (bind m k)
  = match m with
    | Some (a, t) =>
        match k a with Some (_, t') => t ++ t' | None => [] end
    | None => []
    end.
Proof.
  unfold bind. destruct m as [[a t]|]; [|reflexivity].
  destruct (k a) as [[b t']|]; reflexivity.
Qed.

Lemma quiet_bind {A B} (m : M A) (k : A -> M B) :
  quiet m -> (forall a, quiet (k a)) -> quiet (bind m k).
Proof.
  intros Hm Hk b. rewrite events_bind.
  destruct m as [[a t]|]; [|now destruct b].
  specialize (Hk a b). specialize (Hm b). simpl in Hm.
  destruct (k a) as [[c t']|]; [|now destruct b].
  simpl in Hk. now rewrite invoked_app, Hm, Hk.
Qed.

Lemma quiet_ret {A} (a : A) : quiet (ret a).
Proof. now intros []. Qed.

Ltac quiet_step :=
  match goal with
  | |- quiet (bind _ _) => apply quiet_bind; [| intros ?]
  | |- quiet (ret _) => apply quiet_ret
  | |- quiet (tell _) => now intros []
  | |- quiet (if ?c then _ else _) => destruct c
  | |- quiet (let '(_, _) := ?p in _) => destruct p
  | |- quiet (match ?x with _ => _ end) => destruct x
  end.

Lemma hyprlandDesktopGeometries_quiet env physical logical :
  quiet (hyprlandDesktopGeometries env physical logical).
Proof. unfold hyprlandDesktopGeometries. repeat quiet_step. Qed.

Lemma adjustDevicePixelRatio_quiet env pixmap :
  quiet (adjustDevicePixelRatio env pixmap).
Proof.
  unfold adjustDevicePixelRatio, desktopGeometry, logicalDesktopGeometry.
  apply quiet_bind.
  { apply quiet_bind; [apply hyprlandDesktopGeometries_quiet|].
    intros [[got p] l]. destruct got; apply quiet_ret. }
  intros physicalGeo. apply quiet_bind.
  { apply quiet_bind; [apply hyprlandDesktopGeometries_quiet|].
    intros [[got p] l]. destruct got; apply quiet_ret. }
  intros logicalGeo. repeat quiet_step.
Qed.

Lemma gotSignal_quiet env res status uriString :
  quiet (gotSignal env res status uriString).
Proof.
  unfold gotSignal. destruct (status =? 0); [|apply quiet_ret].
  apply quiet_bind; [now intros [] | intros _].
  apply quiet_bind; [apply adjustDevicePixelRatio_quiet | intros res'].
  repeat quiet_step.
Qed.

(** The broker backend leaves its mark, and never starts grim. *)
Lemma freeDesktopPortal_invoked env fuel ok res r t b :
  freeDesktopPortal env fuel ok res = Some (r, t) ->
  invoked b t = Backend_eqb PermissionBroker b.
Proof.
  destruct (serviceRegistered env) eqn:Hreg.
  - rewrite (freeDesktopPortal_registered _ _ _ _ Hreg).
    destruct (loopExec env fuel 0) as [[status uriString]|]; [|discriminate].
    pose proof (gotSignal_quiet env res status uriString b) as Q.
    destruct (gotSignal env res status uriString) as [[res' t1]|]; [|discriminate].
    intros [= <- <-]. unfold invoked in *.
    destruct b; simpl in *; rewrite ?existsb_app, ?Q; reflexivity.
  - rewrite (freeDesktopPortal_unregistered _ _ _ _ Hreg).
    intros [= <- <-]. now destruct b.
Qed.

(** The helper backend, entered with its flag set, starts grim and leaves
    the bus alone. *)
Lemma generalGrimScreenshot_invoked env ok res r t b :
  useGrimAdapter env = true ->
  generalGrimScreenshot env ok res = Some (r, t) ->
  invoked b t = Backend_eqb HelperTool b.
Proof.
  intros G. unfold generalGrimScreenshot. rewrite G. simpl.
  destruct (waitForFinished (grimRun env) defaultWait).
  - pose proof (adjustDevicePixelRatio_quiet env
                  (imageFile env (imgPath env)) b) as Q.
    destruct (adjustDevicePixelRatio env _) as [[res' t1]|]; [|discriminate].
    simpl. intros [= <- <-]. unfold invoked in *.
    destruct b; simpl in *; rewrite ?existsb_app, ?Q; reflexivity.
  - simpl. intros [= <- <-]. now destruct b.
Qed.

Lemma bind_ext {A B} (m : M A) (k k' : A -> M B) :
  (forall a, k a = k' a) -> bind m k = bind m k'.
Proof. intros H. unfold bind. destruct m as [[a t]|]; [now rewrite H | reflexivity]. Qed.

Lemma conclude_quiet r : quiet (conclude r).
Proof. unfold conclude. repeat quiet_step. Qed.

Lemma advise_quiet env message : quiet (advise env message).
Proof. unfold advise. repeat quiet_step. Qed.

Lemma invoked_concluded {A} (m : M A) (k : A -> M (bool * QPixmap)) r t b :
  (forall a, quiet (k a)) ->
  bind m k = Some (r, t) ->
  exists a t1, m = Some (a, t1) /\ invoked b t = invoked b t1.
Proof.
  intros Q E. destruct (bind_Some _ _ _ _ E) as (a & t1 & t2 & Em & Ek & ->).
  exists a, t1. split; [exact Em|].
  specialize (Q a b). rewrite Ek in Q. simpl in Q.
  now rewrite invoked_app, Q, orb_false_r.
Qed.

Lemma invoked_advised {A} env message (m : M A) a t b :
  bind (advise env message) (fun _ => m) = Some (a, t) ->
  exists t1, m = Some (a, t1) /\ invoked b t = invoked b t1.
Proof.
  intros E. destruct (bind_Some _ _ _ _ E) as (u & t0 & t1 & Ea & Em & ->).
  exists t1. split; [exact Em|].
  pose proof (advise_quiet env message b) as Q. rewrite Ea in Q. simpl in Q.
  now rewrite invoked_app, Q.
Qed.

(** C2. On Wayland [grabEntireDesktop] goes by the family of the window
    manager: GNOME, KDE and COSMIC run the broker backend; QTILE, WLROOTS,
    HYPRLAND and OTHER run the helper backend when [useGrimAdapter] is set
    and the broker backend when it is not, after the warning; any other
    family gives [ok = false] and a null pixmap, with three error messages
    and no backend. Whenever the call returns, the trace has the events of
    the backend chosen for the family and of no other. *)
Theorem dispatch_by_family (env : Env) (fuel : nat) :
  waylandDetected env = true ->
  grabEntireDesktop env fuel
  = match windowManager env with
    | GNOME | KDE | COSMIC =>
        bind (freeDesktopPortal env fuel true NullPixmap) conclude
    | QTILE | WLROOTS | HYPRLAND | OTHER =>
        if useGrimAdapter env
        then bind (bind (advise env msgGrimAdvice)
                        (fun _ => generalGrimScreenshot env true NullPixmap))
                  conclude
        else bind (bind (advise env msgDbusAdvice)
                        (fun _ => freeDesktopPortal env fuel true NullPixmap))
                  conclude
    | UNCLASSIFIED =>
        Some ((false, NullPixmap),
              [Log Error msgNoDesktop; Log Error msgDesktopHint;
               Log Error msgNoCapture])
    end
  /\ (forall r t,
        grabEntireDesktop env fuel = Some (r, t) ->
        (forall b, invoked b t = is_chosen env b)
        /\ (chosen env = None -> r = (false, NullPixmap))).
Proof.
  intros W.
  assert (E : grabEntireDesktop env fuel
              = match windowManager env with
                | GNOME | KDE | COSMIC =>
                    bind (freeDesktopPortal env fuel true NullPixmap) conclude
                | QTILE | WLROOTS | HYPRLAND | OTHER =>
                    if useGrimAdapter env
                    then bind (bind (advise env msgGrimAdvice)
                                 (fun _ => generalGrimScreenshot env true NullPixmap))
                              conclude
                    else bind (bind (advise env msgDbusAdvice)
                                 (fun _ => freeDesktopPortal env fuel true NullPixmap))
                              conclude
                | UNCLASSIFIED =>
                    Some ((false, NullPixmap),
                          [Log Error msgNoDesktop; Log Error msgDesktopHint;
                           Log Error msgNoCapture])
                end).
  { unfold grabEntireDesktop. rewrite W.
    destruct (windowManager env); try reflexivity;
      try (apply bind_ext; intros [ok res]; reflexivity);
      destruct (useGrimAdapter env); simpl;
        apply bind_ext; intros [ok res]; reflexivity. }
  split; [exact E|].
  intros r t R. rewrite E in R. unfold is_chosen, chosen.
  destruct (windowManager env);
    try (destruct (invoked_concluded _ _ _ _ PermissionBroker conclude_quiet R)
           as (a & t1 & P & _);
         split; [|discriminate];
         intros b;
         destruct (invoked_concluded _ _ _ _ b conclude_quiet R) as (a' & t1' & P' & ->);
         apply (freeDesktopPortal_invoked _ _ _ _ _ _ _ P'));
    try (injection R as <- <-; split; [intros []; reflexivity | reflexivity]);
    destruct (useGrimAdapter env) eqn:G;
    (split; [|discriminate]);
    intros b;
    destruct (invoked_concluded _ _ _ _ b conclude_quiet R) as (a & t1 & P & ->);
    destruct (invoked_advised _ _ _ _ _ b P) as (t2 & P2 & ->);
    first [ apply (generalGrimScreenshot_invoked _ _ _ _ _ _ G P2)
          | apply (freeDesktopPortal_invoked _ _ _ _ _ _ _ P2) ].
Qed.

Lemma dispatch_by_family_witness :
  (exists t, grabEntireDesktop SampleDispatch.swayNoGrim 0 = Some ((false, NullPixmap), t)
             /\ invoked HelperTool t = true
             /\ invoked PermissionBroker t = false)
  /\ grabEntireDesktop SampleDispatch.unknown 0
     = Some ((false, NullPixmap),
             [Log Error msgNoDesktop; Log Error msgDesktopHint; Log Error msgNoCapture]).
Proof.
  split.
  - destruct (dispatch_by_family SampleDispatch.swayNoGrim 0 eq_refl) as [E I].
    destruct (grabEntireDesktop SampleDispatch.swayNoGrim 0) as [[r t]|] eqn:R;
      [| vm_compute in E; discriminate E].
    destruct (I r t eq_refl) as [Hb _].
    exists t. rewrite (Hb HelperTool), (Hb PermissionBroker).
    vm_compute in E. injection E as -> _. repeat split.
  - destruct (dispatch_by_family SampleDispatch.unknown 0 eq_refl) as [E _].
    exact E.
Defined.

(** ** C6: the helper tool *)

(** What [generalGrimScreenshot] does once grim has finished in time,
    whatever its exit code. *)
Lemma generalGrimScreenshot_finished env ok res code t :
  useGrimAdapter env = true ->
  grimRun env = Exits code t ->
  t <= defaultWait ->
  exists res' tr,
    adjustDevicePixelRatio env (imageFile env (imgPath env)) = Some (res', tr)
    /\ generalGrimScreenshot env ok res
       = Some ((true, res'),
               [ProcessStart "grim" ["-t"%string; "ppm"%string; imgPath env];
                LoadImage (imgPath env);
                RemoveFile (imgPath env)] ++ tr).
Proof.
  intros G R T. unfold generalGrimScreenshot. rewrite G, R. simpl.
  apply Z.leb_le in T. rewrite T.
  destruct (adjustDevicePixelRatio_returns env (imageFile env (imgPath env)))
    as (res' & tr & ->).
  exists res', tr. split; [reflexivity|]. simpl. now rewrite app_nil_r.
Qed.

(** What it does when grim cannot be started or does not finish in time. *)
Lemma generalGrimScreenshot_unfinished env ok res :
  useGrimAdapter env = true ->
  waitForFinished (grimRun env) defaultWait = false ->
  generalGrimScreenshot env ok res
  = Some ((false, res),
          [ProcessStart "grim" ["-t"%string; "ppm"%string; imgPath env];
           Log Error msgGrimMissing]).
Proof.
  intros G R. unfold generalGrimScreenshot. now rewrite G, R.
Qed.

(** grim exits with status 0 and has written the image. *)
Example grim_clean_exit :
  generalGrimScreenshot (SampleGrim.other (Exits 0 40) SampleGrim.files) true NullPixmap
  = Some ((true, SampleGrim.shot),
          [ProcessStart "grim"
             ["-t"%string; "ppm"%string; "/run/user/1000/flameshot.ppm"%string];
           LoadImage "/run/user/1000/flameshot.ppm";
           RemoveFile "/run/user/1000/flameshot.ppm"]).
Proof. vm_compute. reflexivity. Qed.

(** C6, at the failing input: grim exits with status 1 and leaves no file;
    [generalGrimScreenshot] reports [ok = true] with a null pixmap and logs
    no error, and so does [grabEntireDesktop]. *)
Theorem grim_error_exit_reported_as_success :
  generalGrimScreenshot SampleGrim.grimExitsWithError true NullPixmap
  = Some ((true, NullPixmap),
          [ProcessStart "grim"
             ["-t"%string; "ppm"%string; "/run/user/1000/flameshot.ppm"%string];
           LoadImage "/run/user/1000/flameshot.ppm";
           RemoveFile "/run/user/1000/flameshot.ppm"])
  /\ result (grabEntireDesktop SampleGrim.grimExitsWithError 0)
     = Some (true, NullPixmap).
Proof. split; vm_compute; reflexivity. Qed.

(** ** The union of the screens *)

Lemma proper_not_null r : proper r -> Rect.isNull r = false.
Proof.
  intros [Hx Hy]. unfold Rect.isNull.
  apply andb_false_iff. left. apply Z.eqb_neq. lia.
Qed.

Lemma united_proper a r :
  proper a -> proper r ->
  Rect.united a r
  = mkQRect (Z.min (x1 a) (x1 r)) (Z.min (y1 a) (y1 r))
            (Z.max (x2 a) (x2 r)) (Z.max (y2 a) (y2 r)).
Proof.
  intros Ha Hr. unfold Rect.united.
  rewrite (proper_not_null a Ha), (proper_not_null r Hr).
  destruct Ha as [Ha1 Ha2], Hr as [Hr1 Hr2].
  destruct (Z.ltb_spec (x2 a) (x1 a - 1)); [lia|].
  destruct (Z.ltb_spec (x2 r) (x1 r - 1)); [lia|].
  destruct (Z.ltb_spec (y2 a) (y1 a - 1)); [lia|].
  destruct (Z.ltb_spec (y2 r) (y1 r - 1)); [lia|].
  reflexivity.
Qed.

Lemma united_proper_proper a r :
  proper a -> proper r -> proper (Rect.united a r).
Proof.
  intros Ha Hr. rewrite (united_proper a r Ha Hr).
  destruct Ha, Hr. unfold proper. simpl. lia.
Qed.

Lemma united_null_l r : Rect.united Rect.null r = r.
Proof. reflexivity. Qed.

(** The loop, started from a proper rectangle: the result is proper,
    encloses the start and every screen, and each of its sides is a side of
    the start or of a screen. *)
Lemma fold_united_hull (l : list QScreen) : forall start,
  proper start ->
  Forall (fun s => proper (geometry s)) l ->
  let u := fold_left (fun geo s => Rect.united geo (geometry s)) l start in
  proper u
  /\ encloses u start
  /\ Forall (fun s => encloses u (geometry s)) l
  /\ Exists (fun r => x1 u = x1 r) (start :: map geometry l)
  /\ Exists (fun r => y1 u = y1 r) (start :: map geometry l)
  /\ Exists (fun r => x2 u = x2 r) (start :: map geometry l)
  /\ Exists (fun r => y2 u = y2 r) (start :: map geometry l).
Proof.
  induction l as [|s l IH]; intros start Hs Hl; simpl.
  - unfold encloses. repeat split; try lia; try apply Hs;
      try constructor; reflexivity.
  - inversion Hl as [|? ? Hp Hl']; subst.
    pose proof (united_proper_proper start (geometry s) Hs Hp) as Hu.
    destruct (IH _ Hu Hl') as (P & E & F & X1 & Y1 & X2 & Y2).
    rewrite (united_proper start (geometry s) Hs Hp) in *.
    set (u := fold_left _ l _) in *.
    unfold encloses in *. simpl in E.
    split; [exact P|].
    split; [lia|].
    split; [constructor; [lia | exact F]|].
    assert (Step : forall (side : QRect -> Z) v,
               (v = side start \/ v = side (geometry s)) ->
               forall w',
                 Exists (fun r => w' = side r)
                        ({| x1 := Z.min (x1 start) (x1 (geometry s));
                            y1 := Z.min (y1 start) (y1 (geometry s));
                            x2 := Z.max (x2 start) (x2 (geometry s));
                            y2 := Z.max (y2 start) (y2 (geometry s)) |}
                           :: map geometry l) ->
                 side {| x1 := Z.min (x1 start) (x1 (geometry s));
                         y1 := Z.min (y1 start) (y1 (geometry s));
                         x2 := Z.max (x2 start) (x2 (geometry s));
                         y2 := Z.max (y2 start) (y2 (geometry s)) |} = v ->
                 Exists (fun r => w' = side r) (start :: geometry s :: map geometry l)).
    { intros side v Hv w' Hex Hside.
      apply Exists_cons in Hex. destruct Hex as [Hh | Ht].
      - rewrite Hside in Hh. rewrite Hh.
        destruct Hv as [Hv | Hv]; rewrite Hv.
        + apply Exists_cons. now left.
        + apply Exists_cons. right. apply Exists_cons. now left.
      - apply Exists_cons. right. apply Exists_cons. now right. }
    repeat split.
    + apply (Step x1 (Z.min (x1 start) (x1 (geometry s)))); [lia | exact X1 | reflexivity].
    + apply (Step y1 (Z.min (y1 start) (y1 (geometry s)))); [lia | exact Y1 | reflexivity].
    + apply (Step x2 (Z.max (x2 start) (x2 (geometry s)))); [lia | exact X2 | reflexivity].
    + apply (Step y2 (Z.max (y2 start) (y2 (geometry s)))); [lia | exact Y2 | reflexivity].
Qed.

(** The union of the screens is their bounding box. *)
Lemma screensUnion_hull (s : QScreen) (l : list QScreen) :
  Forall (fun s => proper (geometry s)) (s :: l) ->
  let u := screensUnion (s :: l) in
  proper u
  /\ Forall (fun s => encloses u (geometry s)) (s :: l)
  /\ Exists (fun r => x1 u = x1 r) (map geometry (s :: l))
  /\ Exists (fun r => y1 u = y1 r) (map geometry (s :: l))
  /\ Exists (fun r => x2 u = x2 r) (map geometry (s :: l))
  /\ Exists (fun r => y2 u = y2 r) (map geometry (s :: l)).
Proof.
  intros H. inversion H as [|? ? Hs Hl]; subst.
  unfold screensUnion. simpl fold_left. rewrite united_null_l.
  destruct (fold_united_hull l (geometry s) Hs Hl) as (P & E & F & X1 & Y1 & X2 & Y2).
  simpl. split; [exact P|]. split; [constructor; assumption|].
  split; [exact X1|]. split; [exact Y1|]. split; [exact X2 | exact Y2].
Qed.

(** ** C9: the two geometries on the generic path *)

Lemma generic_geometries env :
  genericPath env = true ->
  result (desktopGeometry env) = Some (screensUnion (screens env))
  /\ result (logicalDesktopGeometry env)
     = Some (RectF.toAlignedRect (screensLogicalUnion (screens env))).
Proof.
  unfold genericPath. intros G. apply negb_true_iff in G.
  pose proof (hyprlandDesktopGeometries_result env Rect.null Rect.null) as R.
  rewrite G in R.
  unfold desktopGeometry, logicalDesktopGeometry.
  destruct (hyprlandDesktopGeometries env Rect.null Rect.null)
    as [[[[got p] l] t]|]; [|discriminate].
  simpl in R. injection R as -> _ _. split; reflexivity.
Qed.

Lemma fold_left_map {A B C} (f : A -> C -> A) (g : B -> C) (l : list B) : forall a,
  fold_left (fun acc b => f acc (g b)) l a = fold_left f (map g l) a.
Proof. induction l as [|b l IH]; intros a; simpl; [reflexivity | apply IH]. Qed.

(** C9, refuted in its example: for the outputs A and B the physical union
    is (0,0,4480,1440), but the logical union is (0,0,3584,1152) and not
    (0,0,3968,1152): the origin of B, 1920, is divided by 1.25 as well. *)
Lemma logical_union_of_example_is_not_3968 :
  genericPath SampleC9.twoOutputs = true
  /\ result (desktopGeometry SampleC9.twoOutputs) = Some (Rect.make 0 0 4480 1440)
  /\ result (logicalDesktopGeometry SampleC9.twoOutputs)
     = Some (Rect.make 0 0 3584 1152)
  /\ result (logicalDesktopGeometry SampleC9.twoOutputs)
     <> Some (Rect.make 0 0 3968 1152).
Proof.
  split; [reflexivity|]. split; [vm_compute; reflexivity|].
  split; [vm_compute; reflexivity|]. vm_compute. discriminate.
Qed.

(** C9, amended. On the generic path the physical geometry is the union
    ([QRect::united], from the null rectangle) of the rectangles of the
    screens, which for screens of at least one pixel is their bounding box;
    the logical geometry is the union ([QRectF::united]) of the rectangles
    whose origin and size are those of the screen, each divided by the
    scale of the screen, rounded at the end to the rectangle from the floor
    of the near corner to the ceiling of the far corner. For the outputs A
    and B the physical union is (0,0,4480,1440) and the logical union is
    (0,0,3584,1152). *)
Theorem generic_path_unions (env : Env) :
  genericPath env = true ->
  result (desktopGeometry env)
  = Some (fold_left Rect.united (map geometry (screens env)) Rect.null)
  /\ result (logicalDesktopGeometry env)
     = Some (RectF.toAlignedRect
               (fold_left RectF.united
                  (map (fun s =>
                          let r := geometry s in
                          let dpr := devicePixelRatio s in
                          mkQRectF (ddiv (double_of_int (Rect.x r)) dpr)
                                   (ddiv (double_of_int (Rect.y r)) dpr)
                                   (ddiv (double_of_int (Rect.width r)) dpr)
                                   (ddiv (double_of_int (Rect.height r)) dpr))
                       (screens env))
                  RectF.null))
  /\ (forall r,
        RectF.toAlignedRect r
        = mkQRect (dfloor (xp r)) (dfloor (yp r))
                  (dceil (dadd (xp r) (w r)) - 1) (dceil (dadd (yp r) (h r)) - 1))
  /\ (forall s l,
        screens env = s :: l ->
        Forall (fun s => proper (geometry s)) (s :: l) ->
        forall u, result (desktopGeometry env) = Some u ->
        Forall (fun s => encloses u (geometry s)) (s :: l)
        /\ Exists (fun r => x1 u = x1 r) (map geometry (s :: l))
        /\ Exists (fun r => y1 u = y1 r) (map geometry (s :: l))
        /\ Exists (fun r => x2 u = x2 r) (map geometry (s :: l))
        /\ Exists (fun r => y2 u = y2 r) (map geometry (s :: l)))
  /\ fold_left Rect.united (map geometry [SampleC9.A; SampleC9.B]) Rect.null
     = Rect.make 0 0 4480 1440
  /\ RectF.toAlignedRect (screensLogicalUnion [SampleC9.A; SampleC9.B])
     = Rect.make 0 0 3584 1152.
Proof.
  intros G. destruct (generic_geometries env G) as [P L].
  split; [|split; [|split; [|split; [|split]]]].
  - rewrite P. unfold screensUnion. now rewrite fold_left_map.
  - rewrite L. unfold screensLogicalUnion, logicalRect.
    now rewrite (fold_left_map RectF.united).
  - intros r. unfold RectF.toAlignedRect, Rect.make. f_equal; lia.
  - intros s l E H u U. rewrite P, E in U. injection U as <-.
    destruct (screensUnion_hull s l H) as (_ & F & X1 & Y1 & X2 & Y2).
    repeat (split; [assumption|]). assumption.
  - vm_compute. reflexivity.
  - vm_compute. reflexivity.
Qed.

Lemma generic_path_unions_witness :
  result (desktopGeometry SampleC9.twoOutputs) = Some (Rect.make 0 0 4480 1440)
  /\ result (logicalDesktopGeometry SampleC9.twoOutputs)
     = Some (Rect.make 0 0 3584 1152).
Proof.
  destruct (generic_path_unions SampleC9.twoOutputs eq_refl) as (P & L & _).
  split; [rewrite P | rewrite L]; vm_compute; reflexivity.
Defined.

(** ** C8: logical and physical size

    The facts about binary64 arithmetic that the comparison needs: a
    quotient or a sum that is at most an integer is still at most that
    integer after rounding, and the quotient of a positive integer by a
    double is not rounded to zero. *)

Section Digits.

Lemma digits2_pos_bounds (p : positive) :
  2 ^ (Zpos (digits2_pos p) - 1) <= Zpos p < 2 ^ Zpos (digits2_pos p).
Proof.
  induction p as [p IH | p IH |]; simpl digits2_pos.
  - rewrite Pos2Z.inj_succ.
    replace (Z.succ (Zpos (digits2_pos p)) - 1) with (Z.succ (Zpos (digits2_pos p) - 1)) by lia.
    rewrite !Z.pow_succ_r by lia. lia.
  - rewrite Pos2Z.inj_succ.
    replace (Z.succ (Zpos (digits2_pos p)) - 1) with (Z.succ (Zpos (digits2_pos p) - 1)) by lia.
    rewrite !Z.pow_succ_r by lia. lia.
  - simpl. lia.
Qed.

(** A number below [2^k] has at most [k] digits. *)
Lemma Zdigits2_le (m k : Z) : 0 <= m < 2 ^ k -> 0 <= k -> Zdigits2 m <= k.
Proof.
  intros [H0 H] Hk. destruct m as [|p|p]; simpl; [lia | | lia].
  destruct (Z_le_gt_dec (Zpos (digits2_pos p)) k) as [L|G]; [exact L|].
  pose proof (digits2_pos_bounds p) as [B _].
  assert (2 ^ k <= 2 ^ (Zpos (digits2_pos p) - 1)) by (apply Z.pow_le_mono_r; lia).
  lia.
Qed.

(** A positive number is at least [2^(digits - 1)]. *)
Lemma Zdigits2_ge (m : Z) : 0 < m -> 2 ^ (Zdigits2 m - 1) <= m < 2 ^ Zdigits2 m.
Proof.
  intros H. destruct m as [|p|p]; try lia. apply digits2_pos_bounds.
Qed.

Lemma Zdigits2_positive (m : Z) : 0 < m -> 1 <= Zdigits2 m.
Proof. destruct m; simpl; lia. Qed.

End Digits.

Section Shifts.

(** [iter_pos] is iteration a number of times. *)
Lemma iter_pos_nat {A} (f : A -> A) (p : positive) : forall x,
  iter_pos f p x = Nat.iter (Pos.to_nat p) f x.
Proof.
  induction p as [p IH | p IH |]; intros x; simpl iter_pos.
  - rewrite !IH, Pos2Nat.inj_xI.
    replace (S (2 * Pos.to_nat p)) with (Pos.to_nat p + Pos.to_nat p + 1)%nat by lia.
    rewrite !Nat.iter_add. reflexivity.
  - rewrite !IH, Pos2Nat.inj_xO.
    replace (2 * Pos.to_nat p)%nat with (Pos.to_nat p + Pos.to_nat p)%nat by lia.
    rewrite Nat.iter_add. reflexivity.
  - reflexivity.
Qed.

Lemma shr_1_spec (mrs : shr_record) :
  0 <= shr_m mrs ->
  shr_m (shr_1 mrs) = shr_m mrs / 2
  /\ inexact (shr_1 mrs) = inexact mrs || negb (shr_m mrs mod 2 =? 0).
Proof.
  destruct mrs as [m r s]. unfold inexact.
  destruct m as [|[p|p|]|p]; intros H; try (simpl in H; lia).
  - split; [reflexivity | destruct r, s; reflexivity].
  - assert (D : Zpos p~1 / 2 = Zpos p)
      by (symmetry; apply (Z.div_unique _ 2 _ 1); lia).
    assert (R : Zpos p~1 mod 2 = 1)
      by (symmetry; apply (Z.mod_unique _ 2 (Zpos p) 1); lia).
    cbn [shr_1 shr_m shr_r shr_s]. rewrite D, R.
    split; [reflexivity | destruct r, s; reflexivity].
  - assert (D : Zpos p~0 / 2 = Zpos p)
      by (symmetry; apply (Z.div_unique _ 2 _ 0); lia).
    assert (R : Zpos p~0 mod 2 = 0)
      by (symmetry; apply (Z.mod_unique _ 2 (Zpos p) 0); lia).
    cbn [shr_1 shr_m shr_r shr_s]. rewrite D, R.
    split; [reflexivity | destruct r, s; reflexivity].
  - split; [reflexivity | destruct r, s; reflexivity].
Qed.

Lemma mod_pow2_succ (m n : Z) :
  0 <= m -> 0 <= n ->
  (m mod 2 ^ Z.succ n =? 0) = (m mod 2 ^ n =? 0) && ((m / 2 ^ n) mod 2 =? 0).
Proof.
  intros Hm Hn. rewrite Z.pow_succ_r by exact Hn.
  assert (P : 0 < 2 ^ n) by (apply Z.pow_pos_nonneg; lia).
  rewrite (Z.mul_comm 2), Z.rem_mul_r by lia.
  pose proof (Z.mod_pos_bound m (2 ^ n) P) as B1.
  pose proof (Z.mod_pos_bound (m / 2 ^ n) 2 ltac:(lia)) as B2.
  destruct (Z.eqb_spec (m mod 2 ^ n) 0) as [E1|E1];
    destruct (Z.eqb_spec ((m / 2 ^ n) mod 2) 0) as [E2|E2]; simpl;
    apply Z.eqb_eq || apply Z.eqb_neq; nia.
Qed.

Lemma shr_nat_spec (n : nat) : forall mrs,
  0 <= shr_m mrs ->
  let r := Nat.iter n shr_1 mrs in
  shr_m r = shr_m mrs / 2 ^ Z.of_nat n
  /\ inexact r = inexact mrs || negb (shr_m mrs mod 2 ^ Z.of_nat n =? 0).
Proof.
  induction n as [|n IH]; intros mrs H.
  - simpl. rewrite Z.div_1_r, Z.mod_1_r. simpl. now rewrite orb_false_r.
  - destruct (IH mrs H) as [Hm Hi].
    cbv zeta. rewrite Nat.iter_succ.
    set (r := Nat.iter n shr_1 mrs) in *.
    assert (P : 0 < 2 ^ Z.of_nat n) by (apply Z.pow_pos_nonneg; lia).
    assert (Hr : 0 <= shr_m r) by (rewrite Hm; apply Z.div_pos; lia).
    destruct (shr_1_spec r Hr) as [Sm Si].
    rewrite Nat2Z.inj_succ. split.
    + rewrite Sm, Hm, Z.div_div, Z.pow_succ_r by lia. f_equal. lia.
    + rewrite Si, Hi, Hm, mod_pow2_succ by lia.
      destruct (inexact mrs), (shr_m mrs mod 2 ^ Z.of_nat n =? 0),
        ((shr_m mrs / 2 ^ Z.of_nat n) mod 2 =? 0); reflexivity.
Qed.

(** [shr]: the mantissa is divided by [2^n], the exponent grows by [n],
    and the result is exact when nothing was lost before or now. *)
Lemma shr_spec (mrs : shr_record) (e n : Z) :
  0 <= shr_m mrs ->
  let k := Z.max n 0 in
  snd (shr mrs e n) = e + k
  /\ shr_m (fst (shr mrs e n)) = shr_m mrs / 2 ^ k
  /\ inexact (fst (shr mrs e n))
     = inexact mrs || negb (shr_m mrs mod 2 ^ k =? 0).
Proof.
  intros H. destruct n as [|p|p]; simpl.
  - rewrite Z.div_1_r, Z.mod_1_r, Z.add_0_r. simpl. now rewrite orb_false_r.
  - rewrite iter_pos_nat.
    destruct (shr_nat_spec (Pos.to_nat p) mrs H) as [Hm Hi].
    rewrite positive_nat_Z in Hm, Hi. now rewrite Hm, Hi.
  - rewrite Z.div_1_r, Z.mod_1_r, Z.add_0_r. simpl. now rewrite orb_false_r.
Qed.

Lemma shr_record_of_loc_m (m : Z) (l : location) :
  shr_m (shr_record_of_loc m l) = m.
Proof. destruct l as [|[]]; reflexivity. Qed.

Lemma shr_record_of_loc_inexact (m : Z) (l : location) :
  inexact (shr_record_of_loc m l)
  = match l with loc_Exact => false | _ => true end.
Proof. destruct l as [|[]]; reflexivity. Qed.

(** Rounding to nearest adds at most one, and nothing to an exact value. *)
Lemma round_nearest_even_spec (mrs : shr_record) :
  let m := round_nearest_even (shr_m mrs) (loc_of_shr_record mrs) in
  shr_m mrs <= m <= shr_m mrs + 1
  /\ (inexact mrs = false -> m = shr_m mrs).
Proof.
  destruct mrs as [m [|] [|]]; unfold inexact; simpl;
    try destruct (Z.even m); split; try lia; discriminate.
Qed.

End Shifts.

Section Rounding64.

Lemma fexp64 (z : Z) : fexp prec64 emax64 z = Z.max (z - 53) (-1074).
Proof. reflexivity. Qed.

Lemma below_pow2 (m N a : Z) :
  0 <= a -> 0 <= N < 2 ^ 52 -> 0 <= m <= N * 2 ^ a -> 0 <= m < 2 ^ (52 + a).
Proof.
  intros Ha HN Hm. rewrite Z.pow_add_r by lia.
  assert (0 < 2 ^ a) by (apply Z.pow_pos_nonneg; lia). nia.
Qed.

(** Rounding does not pass an integer: a value that is at most [N] (and
    below [N] when [lx] says that it lies above [mx * 2^ex]) is rounded to
    a double that is at most [N]. *)
Lemma round_upper (mx ex : Z) (lx : location) (N : Z) :
  0 <= mx -> ex <= 0 -> 0 <= N < 2 ^ 52 ->
  mx <= N * 2 ^ (- ex) ->
  (lx <> loc_Exact -> mx < N * 2 ^ (- ex)) ->
  atMost (binary_round_aux prec64 emax64 false mx ex lx) N.
Proof.
  intros Hm He HN Hle Hlt.
  unfold binary_round_aux, shr_fexp. rewrite fexp64.
  set (n1 := Z.max (Zdigits2 mx + ex - 53) (-1074) - ex).
  pose proof (shr_spec (shr_record_of_loc mx lx) ex n1) as S1.
  rewrite shr_record_of_loc_m, shr_record_of_loc_inexact in S1.
  destruct (S1 Hm) as (E1 & M1 & I1). clear S1.
  destruct (shr (shr_record_of_loc mx lx) ex n1) as [mrs1 e1].
  simpl in E1, M1, I1.
  set (k1 := Z.max n1 0) in *.
  assert (Hd : Zdigits2 mx <= 52 - ex).
  { apply Zdigits2_le; [|lia].
    replace (52 - ex) with (52 + - ex) by lia.
    apply (below_pow2 mx N); lia. }
  assert (Hk1 : 0 <= k1 <= - ex) by (unfold k1, n1; lia).
  assert (He1 : e1 <= 0) by lia.
  assert (P1 : 0 < 2 ^ k1) by (apply Z.pow_pos_nonneg; lia).
  assert (G : N * 2 ^ (- ex) = 2 ^ k1 * (N * 2 ^ (- e1))).
  { replace (- ex) with (- e1 + k1) by lia. rewrite Z.pow_add_r by lia. ring. }
  assert (Hm1 : 0 <= shr_m mrs1) by (rewrite M1; apply Z.div_pos; lia).
  destruct (round_nearest_even_spec mrs1) as (R1 & R2).
  set (m2 := round_nearest_even (shr_m mrs1) (loc_of_shr_record mrs1)) in *.
  assert (Hm2 : 0 <= m2 <= N * 2 ^ (- e1)).
  { split; [lia|].
    destruct (inexact mrs1) eqn:I.
    - assert (Hs : mx < N * 2 ^ (- ex)).
      { destruct lx as [|c].
        - simpl in I1. symmetry in I1. apply negb_true_iff, Z.eqb_neq in I1.
          destruct (Z.eq_dec mx (N * 2 ^ (- ex))) as [Q|Q]; [|lia].
          exfalso. apply I1. rewrite Q, G, Z.mul_comm. apply Z.mod_mul. lia.
        - apply Hlt. discriminate. }
      assert (shr_m mrs1 < N * 2 ^ (- e1)).
      { rewrite M1. apply Z.div_lt_upper_bound; lia. }
      lia.
    - rewrite (R2 eq_refl), M1. apply Z.div_le_upper_bound; lia. }
  rewrite fexp64.
  set (n2 := Z.max (Zdigits2 m2 + e1 - 53) (-1074) - e1).
  pose proof (shr_spec (shr_record_of_loc m2 loc_Exact) e1 n2) as S2.
  rewrite shr_record_of_loc_m in S2.
  destruct (S2 (proj1 Hm2)) as (E2 & M2 & _). clear S2.
  destruct (shr (shr_record_of_loc m2 loc_Exact) e1 n2) as [mrs2 e2].
  simpl in E2, M2.
  set (k2 := Z.max n2 0) in *.
  assert (Hd2 : Zdigits2 m2 <= 52 - e1).
  { apply Zdigits2_le; [|lia].
    replace (52 - e1) with (52 + - e1) by lia.
    apply (below_pow2 m2 N); lia. }
  assert (Hk2 : 0 <= k2 <= - e1) by (unfold k2, n2; lia).
  assert (He2 : e2 <= 0) by lia.
  assert (P2 : 0 < 2 ^ k2) by (apply Z.pow_pos_nonneg; lia).
  assert (G2 : N * 2 ^ (- e1) = 2 ^ k2 * (N * 2 ^ (- e2))).
  { replace (- e1) with (- e2 + k2) by lia. rewrite Z.pow_add_r by lia. ring. }
  assert (Hm3 : 0 <= shr_m mrs2 <= N * 2 ^ (- e2)).
  { rewrite M2. split; [apply Z.div_pos; lia|].
    apply Z.div_le_upper_bound; lia. }
  destruct (shr_m mrs2) as [|m3|m3]; [exact I | | lia].
  replace (e2 <=? emax64 - prec64) with true
    by (symmetry; apply Z.leb_le; unfold emax64, prec64; lia).
  split; [exact He2 | apply Hm3].
Qed.

(** Rounding keeps a value of at least [2^emin] away from zero. *)
Lemma round_positive (mx ex : Z) (lx : location) :
  0 < mx -> -1074 <= ex ->
  match binary_round_aux prec64 emax64 false mx ex lx with
  | S754_finite false _ _ | S754_infinity false => True
  | _ => False
  end.
Proof.
  intros Hm He.
  unfold binary_round_aux, shr_fexp. rewrite fexp64.
  set (n1 := Z.max (Zdigits2 mx + ex - 53) (-1074) - ex).
  pose proof (shr_spec (shr_record_of_loc mx lx) ex n1) as S1.
  rewrite shr_record_of_loc_m in S1.
  destruct (S1 ltac:(lia)) as (E1 & M1 & _). clear S1.
  destruct (shr (shr_record_of_loc mx lx) ex n1) as [mrs1 e1].
  simpl in E1, M1.
  set (k1 := Z.max n1 0) in *.
  destruct (Zdigits2_ge mx Hm) as [D1 _].
  pose proof (Zdigits2_positive mx Hm) as D0.
  assert (Hk1 : 0 <= k1 <= Zdigits2 mx - 1) by (unfold k1, n1; lia).
  assert (Hm1 : 0 < shr_m mrs1).
  { rewrite M1. apply Z.div_str_pos. split; [apply Z.pow_pos_nonneg; lia|].
    apply Z.le_trans with (2 ^ (Zdigits2 mx - 1)); [|exact D1].
    apply Z.pow_le_mono_r; lia. }
  destruct (round_nearest_even_spec mrs1) as (R1 & _).
  set (m2 := round_nearest_even (shr_m mrs1) (loc_of_shr_record mrs1)) in *.
  assert (Hm2 : 0 < m2) by lia.
  rewrite fexp64.
  set (n2 := Z.max (Zdigits2 m2 + e1 - 53) (-1074) - e1).
  pose proof (shr_spec (shr_record_of_loc m2 loc_Exact) e1 n2) as S2.
  rewrite shr_record_of_loc_m in S2.
  destruct (S2 ltac:(lia)) as (E2 & M2 & _). clear S2.
  destruct (shr (shr_record_of_loc m2 loc_Exact) e1 n2) as [mrs2 e2].
  simpl in E2, M2.
  set (k2 := Z.max n2 0) in *.
  destruct (Zdigits2_ge m2 Hm2) as [D2 _].
  pose proof (Zdigits2_positive m2 Hm2) as D0'.
  assert (Hk2 : 0 <= k2 <= Zdigits2 m2 - 1) by (unfold k2, n2; lia).
  assert (Hm3 : 0 < shr_m mrs2).
  { rewrite M2. apply Z.div_str_pos. split; [apply Z.pow_pos_nonneg; lia|].
    apply Z.le_trans with (2 ^ (Zdigits2 m2 - 1)); [|exact D2].
    apply Z.pow_le_mono_r; lia. }
  destruct (shr_m mrs2) as [|m3|m3]; try lia.
  destruct (e2 <=? emax64 - prec64); exact I.
Qed.

End Rounding64.

Section Operations64.

Lemma iter_xO_spec (m d : positive) :
  Zpos (Pos.iter xO m d) = Zpos m * 2 ^ Zpos d
  /\ Zpos (digits2_pos (Pos.iter xO m d)) = Zpos (digits2_pos m) + Zpos d.
Proof.
  induction d as [|d IH] using Pos.peano_ind.
  - simpl. split; lia.
  - rewrite Pos.iter_succ. destruct IH as [V D].
    rewrite Pos2Z.inj_succ, Z.pow_succ_r by lia. simpl digits2_pos.
    rewrite Pos2Z.inj_xO, V, Pos2Z.inj_succ, D. split; lia.
Qed.

(** [shl_align]: the mantissa is shifted left so that the exponent comes
    down to [e0], when it is above. *)
Lemma shl_align_spec (m : positive) (e e0 : Z) :
  snd (shl_align m e e0) = Z.min e e0
  /\ Zpos (fst (shl_align m e e0)) = Zpos m * 2 ^ (e - Z.min e e0)
  /\ Zpos (digits2_pos (fst (shl_align m e e0)))
     = Zpos (digits2_pos m) + (e - Z.min e e0).
Proof.
  unfold shl_align. destruct (e0 - e) as [|d|d] eqn:E; cbn [fst snd].
  - replace (Z.min e e0) with e by lia. rewrite Z.sub_diag, Z.pow_0_r. lia.
  - replace (Z.min e e0) with e by lia. rewrite Z.sub_diag, Z.pow_0_r. lia.
  - replace (Z.min e e0) with e0 by lia.
    replace (e - e0) with (Zpos d) by lia.
    destruct (iter_xO_spec m d) as [V D]. rewrite V, D. lia.
Qed.

(** A mantissa of 53 bits is left as it is. *)
Lemma round_canonical (m : positive) (e : Z) :
  Zpos (digits2_pos m) = 53 -> -1074 <= e <= 971 ->
  binary_round_aux prec64 emax64 false (Zpos m) e loc_Exact
  = S754_finite false m e.
Proof.
  intros Dz He.
  unfold binary_round_aux, shr_fexp. rewrite fexp64.
  change (Zdigits2 (Zpos m)) with (Zpos (digits2_pos m)). rewrite Dz.
  replace (Z.max (53 + e - 53) (-1074) - e) with 0 by lia.
  cbn [shr_record_of_loc shr loc_of_shr_record round_nearest_even shr_m shr_r shr_s].
  rewrite fexp64.
  change (Zdigits2 (Zpos m)) with (Zpos (digits2_pos m)). rewrite Dz.
  replace (Z.max (53 + e - 53) (-1074) - e) with 0 by lia.
  cbn [shr_record_of_loc shr shr_m].
  replace (e <=? emax64 - prec64) with true
    by (symmetry; apply Z.leb_le; unfold emax64, prec64; lia).
  reflexivity.
Qed.

(** The double of a positive integer of at most 53 bits is the integer. *)
Lemma double_of_int_pos (p : positive) :
  Zpos (digits2_pos p) <= 53 ->
  exists m e,
    double_of_int (Zpos p) = S754_finite false m e
    /\ -52 <= e <= 0
    /\ Zpos m = Zpos p * 2 ^ (- e).
Proof.
  intros Hd.
  assert (D1 : 1 <= Zpos (digits2_pos p)) by lia.
  unfold double_of_int, dyadic, binary_normalize, binary_round.
  rewrite fexp64.
  destruct (shl_align_spec p 0 (Z.max (Zpos (digits2_pos p) + 0 - 53) (-1074)))
    as (E & V & D).
  destruct (shl_align p 0 _) as [mz ez]. cbn [fst snd] in E, V, D.
  assert (Ez : ez = Zpos (digits2_pos p) - 53) by lia.
  assert (Dz : Zpos (digits2_pos mz) = 53) by lia.
  exists mz, ez.
  split; [|split; [lia | rewrite V; f_equal; f_equal; lia]].
  apply round_canonical; [exact Dz | lia].
Qed.

Lemma scaleAtLeastOne_spec (s : qreal) :
  scaleAtLeastOne s = true ->
  exists m e,
    s = S754_finite false m e
    /\ 2 ^ 52 <= Zpos m < 2 ^ 53
    /\ Zpos (digits2_pos m) = 53
    /\ -52 <= e <= 971.
Proof.
  destruct s as [| | |[|] m e]; try discriminate.
  unfold scaleAtLeastOne, is_double, valid_binary, bounded, canonical_mantissa.
  rewrite fexp64. intros H.
  apply andb_true_iff in H. destruct H as [H L].
  apply andb_true_iff in H. destruct H as [C B].
  apply Z.eqb_eq in C. apply Z.leb_le in B.
  unfold emax64, prec64 in B.
  assert (E : -52 <= e /\ (e = -52 -> 2 ^ 52 <= Zpos m)).
  { unfold dleb, SFleb, done, double_of_int, dyadic in L.
    change (binary_normalize prec64 emax64 1 0 false)
      with (S754_finite false 4503599627370496 (-52)) in L.
    unfold SFcompare in L.
    destruct (Z.compare_spec (-52) e) as [Q|Q|Q]; try discriminate.
    - split; [lia|]. intros _.
      rewrite Pos.compare_cont_spec in L.
      change (2 ^ 52) with 4503599627370496.
      destruct (Pos.compare_spec 4503599627370496 m) as [Q'|Q'|Q'];
        try discriminate; lia.
    - split; lia. }
  exists m, e. split; [reflexivity|].
  assert (Dm : Zpos (digits2_pos m) = 53) by lia.
  pose proof (digits2_pos_bounds m) as Bm. rewrite Dm in Bm.
  split; [|split; [exact Dm | lia]].
  change (53 - 1) with 52 in Bm. exact Bm.
Qed.

Lemma new_location_exact (nb r : Z) :
  new_location nb r = loc_Exact <-> r = 0.
Proof.
  unfold new_location, new_location_even, new_location_odd.
  destruct (Z.even nb); destruct (Z.eqb_spec r 0) as [E|E]; split; intros H;
    try reflexivity; try assumption; try discriminate; contradiction.
Qed.

(** The integer quotient that [SFdiv] rounds. *)
Lemma SFdiv_core_spec (m1 : positive) (e1 : Z) (m2 : positive) (e2 : Z) :
  let e' := Z.min (Z.max (Zpos (digits2_pos m1) + e1
                          - (Zpos (digits2_pos m2) + e2) - 53) (-1074))
                  (e1 - e2) in
  exists q r l,
    SFdiv_core_binary prec64 emax64 (Zpos m1) e1 (Zpos m2) e2 = (q, e', l)
    /\ Zpos m1 * 2 ^ (e1 - e2 - e') = Zpos m2 * q + r
    /\ 0 <= r < Zpos m2
    /\ (l = loc_Exact <-> r = 0).
Proof.
  intros e'. unfold SFdiv_core_binary. rewrite fexp64.
  change (Zdigits2 (Zpos m1)) with (Zpos (digits2_pos m1)).
  change (Zdigits2 (Zpos m2)) with (Zpos (digits2_pos m2)).
  fold e'.
  set (sh := e1 - e2 - e').
  assert (Hsh : 0 <= sh) by (unfold sh, e'; lia).
  set (m' := match sh with
             | 0 => Zpos m1
             | Zpos _ => Z.shiftl (Zpos m1) sh
             | Zneg _ => 0
             end).
  assert (Hm' : m' = Zpos m1 * 2 ^ sh).
  { unfold m'. destruct sh as [|k|k]; [rewrite Z.pow_0_r; lia | | lia].
    apply Z.shiftl_mul_pow2. lia. }
  pose proof (Z_div_mod m' (Zpos m2) ltac:(lia)) as DM.
  destruct (Z.div_eucl m' (Zpos m2)) as [q r].
  exists q, r, (new_location (Zpos m2) r).
  split; [reflexivity|]. rewrite <- Hm'.
  split; [apply DM|]. split; [apply DM|]. apply new_location_exact.
Qed.

(** The quotient of an integer by a finite scale of at least 1: zero for
    0, positive and at most the integer otherwise. *)
Lemma ddiv_int_scale (n N : Z) (s : qreal) :
  0 <= n <= N -> N < 2 ^ 52 -> scaleAtLeastOne s = true ->
  atMost (ddiv (double_of_int n) s) N
  /\ (n = 0 -> isZero (ddiv (double_of_int n) s))
  /\ (0 < n -> isPositive (ddiv (double_of_int n) s)).
Proof.
  intros Hn HN Hs.
  destruct (scaleAtLeastOne_spec s Hs) as (m2 & e2 & -> & Bm2 & Dm2 & Be2).
  destruct n as [|p|p]; [| | lia].
  - repeat split; try exact I. lia.
  - assert (Dp : Zpos (digits2_pos p) <= 52).
    { apply (Zdigits2_le (Zpos p) 52); lia. }
    destruct (double_of_int_pos p ltac:(lia)) as (m1 & e1 & -> & Be1 & Vm1).
    assert (P1 : 0 < 2 ^ (- e1)) by (apply Z.pow_pos_nonneg; lia).
    pose proof (digits2_pos_bounds m1) as Bd1.
    set (d1 := Zpos (digits2_pos m1)) in *.
    assert (Hd1 : 1 - e1 <= d1 <= 52 - e1).
    { split.
      - destruct (Z_lt_le_dec d1 (1 - e1)) as [L|L]; [|exact L]. exfalso.
        assert (2 ^ d1 <= 2 ^ (- e1)) by (apply Z.pow_le_mono_r; lia). nia.
      - destruct (Z_lt_le_dec (52 - e1) d1) as [L|L]; [|exact L]. exfalso.
        assert (2 ^ (52 - e1) <= 2 ^ (d1 - 1)) by (apply Z.pow_le_mono_r; lia).
        replace (52 - e1) with (52 + - e1) in H by lia.
        rewrite Z.pow_add_r in H by lia. nia. }
    unfold ddiv, SFdiv.
    destruct (SFdiv_core_spec m1 e1 m2 e2) as (q & r & l & -> & Hq & Hr & Hl).
    fold d1 in Hq |- *. rewrite Dm2 in Hq |- *.
    set (e' := Z.min (Z.max (d1 + e1 - (53 + e2) - 53) (-1074)) (e1 - e2)) in *.
    assert (He' : -1074 <= e' <= 0) by (unfold e'; lia).
    set (sh := e1 - e2 - e') in *.
    assert (Hsh : 0 <= sh) by (unfold sh, e'; lia).
    assert (Hq0 : 0 <= q) by nia.
    (* the scale is at least [t], a power of two that is at least [2^-e2] *)
    set (t := 2 ^ Z.max (- e2) 0).
    assert (Ht : 0 < t <= Zpos m2).
    { split; [apply Z.pow_pos_nonneg; lia|].
      apply Z.le_trans with (2 ^ 52); [apply Z.pow_le_mono_r; lia | lia]. }
    assert (Hb : Zpos m1 * 2 ^ sh <= N * 2 ^ (- e') * t).
    { unfold t. rewrite <- Z.mul_assoc, <- Z.pow_add_r by lia.
      apply Z.le_trans with (N * 2 ^ (- e1) * 2 ^ sh).
      - apply Z.mul_le_mono_nonneg_r; [apply Z.pow_nonneg; lia|]. rewrite Vm1.
        apply Z.mul_le_mono_nonneg_r; [lia | lia].
      - rewrite <- Z.mul_assoc, <- Z.pow_add_r by lia.
        apply Z.mul_le_mono_nonneg_l; [lia|].
        apply Z.pow_le_mono_r; unfold sh; lia. }
    split; [|split; [discriminate|]].
    + apply round_upper; try lia.
      * apply Z.mul_le_mono_pos_r with t; [lia|]. nia.
      * intros Hx. assert (r <> 0) by (intros Q; apply Hx, Hl, Q).
        apply Z.mul_lt_mono_pos_r with t; [lia|]. nia.
    + intros _.
      assert (Q1 : 0 < q).
      { assert (2 ^ 53 <= Zpos m1 * 2 ^ sh).
        { apply Z.le_trans with (2 ^ (d1 - 1) * 2 ^ sh).
          - rewrite <- Z.pow_add_r by lia.
            apply Z.pow_le_mono_r; unfold sh, e'; lia.
          - apply Z.mul_le_mono_nonneg_r; [apply Z.pow_nonneg; lia | lia]. }
        nia. }
      pose proof (round_positive q e' l Q1 ltac:(lia)) as RP.
      assert (RU : atMost (binary_round_aux prec64 emax64 false q e' l) N).
      { apply round_upper; try lia.
        * apply Z.mul_le_mono_pos_r with t; [lia|]. nia.
        * intros Hx. assert (r <> 0) by (intros Q; apply Hx, Hl, Q).
          apply Z.mul_lt_mono_pos_r with t; [lia|]. nia. }
      simpl xorb.
      destruct (binary_round_aux prec64 emax64 false q e' l) as [| | |[|]];
        try contradiction; exact I.
Qed.

Lemma atMost_mono (x : qreal) (N N' : Z) : atMost x N -> N <= N' -> atMost x N'.
Proof.
  destruct x as [| | |[|] m e]; simpl; trivial.
  intros [He Hm] HN. split; [exact He|].
  assert (0 < 2 ^ (- e)) by (apply Z.pow_pos_nonneg; lia). nia.
Qed.

(** The sum of two doubles that are at most [Nx] and [Ny] is at most
    [Nx + Ny]. *)
Lemma dadd_atMost (x y : qreal) (Nx Ny : Z) :
  0 <= Nx -> 0 <= Ny -> Nx + Ny < 2 ^ 52 ->
  atMost x Nx -> atMost y Ny -> atMost (dadd x y) (Nx + Ny).
Proof.
  intros HNx HNy HN Hx Hy.
  destruct x as [sx| | |[|] mx ex]; try contradiction;
    destruct y as [sy| | |[|] my ey]; try contradiction.
  - destruct sx, sy; exact I.
  - apply (atMost_mono _ Ny); [exact Hy | lia].
  - apply (atMost_mono _ Nx); [exact Hx | lia].
  - destruct Hx as [Hex Hmx], Hy as [Hey Hmy].
    unfold dadd, SFadd. cbn [cond_Zopp].
    set (ez := Z.min ex ey).
    destruct (shl_align_spec mx ex ez) as (_ & Vx & _).
    destruct (shl_align_spec my ey ez) as (_ & Vy & _).
    replace (Z.min ex ez) with ez in Vx by (unfold ez; lia).
    replace (Z.min ey ez) with ez in Vy by (unfold ez; lia).
    set (ax := fst (shl_align mx ex ez)) in *.
    set (ay := fst (shl_align my ey ez)) in *.
    change (Zpos ax + Zpos ay) with (Zpos (ax + ay)).
    unfold binary_normalize, binary_round. rewrite fexp64.
    set (e0 := Z.max (Zpos (digits2_pos (ax + ay)) + ez - 53) (-1074)).
    destruct (shl_align_spec (ax + ay) ez e0) as (E & V & _).
    destruct (shl_align (ax + ay) ez e0) as [mz ez']. cbn [fst snd] in E, V.
    rewrite <- E in V.
    assert (Hez : ez <= 0) by (unfold ez; lia).
    assert (Hsum : Zpos (ax + ay) <= (Nx + Ny) * 2 ^ (- ez)).
    { rewrite Pos2Z.inj_add, Vx, Vy.
      assert (Px : Nx * 2 ^ (- ez) = Nx * 2 ^ (- ex) * 2 ^ (ex - ez)).
      { rewrite <- Z.mul_assoc, <- Z.pow_add_r by (unfold ez; lia).
        f_equal. f_equal. lia. }
      assert (Py : Ny * 2 ^ (- ez) = Ny * 2 ^ (- ey) * 2 ^ (ey - ez)).
      { rewrite <- Z.mul_assoc, <- Z.pow_add_r by (unfold ez; lia).
        f_equal. f_equal. lia. }
      assert (0 <= 2 ^ (ex - ez)) by (apply Z.pow_nonneg; lia).
      assert (0 <= 2 ^ (ey - ez)) by (apply Z.pow_nonneg; lia).
      rewrite Z.mul_add_distr_r, Px, Py. nia. }
    apply round_upper; try lia.
    + rewrite V.
      replace (- ez') with (- ez + (ez - ez')) by lia.
      rewrite Z.pow_add_r, Z.mul_assoc by lia.
      apply Z.mul_le_mono_nonneg_r; [apply Z.pow_nonneg; lia | exact Hsum].
    + intros Q. now contradiction Q.
Qed.

Lemma dadd_zero_l (x y : qreal) : isZero x -> isPositive y -> dadd x y = y.
Proof.
  destruct x; try contradiction. destruct y as [| | |[|]]; try contradiction.
  reflexivity.
Qed.

Lemma dsub_zero_r (x y : qreal) : isPositive x -> isZero y -> dsub x y = x.
Proof.
  destruct y; try contradiction. destruct x as [| | |[|]]; try contradiction.
  reflexivity.
Qed.

Lemma dltb_positive_zero (x : qreal) : isPositive x -> dltb x dzero = false.
Proof. destruct x as [| | |[|]]; try contradiction. reflexivity. Qed.

Lemma deqb_positive_zero (x : qreal) : isPositive x -> deqb x dzero = false.
Proof. destruct x as [| | |[|]]; try contradiction. reflexivity. Qed.

Lemma qMin_zero (x y : qreal) (N : Z) :
  isZero x -> atMost y N -> isZero (qMin x y).
Proof.
  destruct x; try contradiction.
  destruct y as [| | |[|]]; try contradiction; intros _ _; exact I.
Qed.

Lemma qMax_positive (x y : qreal) (N : Z) :
  isPositive x -> atMost x N -> atMost y N ->
  isPositive (qMax x y) /\ atMost (qMax x y) N.
Proof.
  intros Px Ax Ay. unfold qMax.
  destruct (dltb x y) eqn:L; [|now split].
  split; [|exact Ay].
  destruct x as [| | |[|] mx ex]; try contradiction.
  destruct y as [| | |[|] my ey]; try contradiction; try discriminate.
  exact I.
Qed.

(** The ceiling of a positive double that is at most [N]. *)
Lemma dceil_atMost (x : qreal) (N : Z) :
  isPositive x -> atMost x N -> 0 <= dceil x <= N.
Proof.
  destruct x as [| | |[|] m e]; try contradiction.
  intros _ [He Hm]. unfold dceil. cbn [cond_Zopp].
  destruct (Z.leb_spec 0 e) as [L|L].
  - replace e with 0 in * by lia. rewrite Z.pow_0_r in *. lia.
  - assert (P : 0 < 2 ^ (- e)) by (apply Z.pow_pos_nonneg; lia).
    assert (- N <= - Zpos m / 2 ^ (- e)) by (apply Z.div_le_lower_bound; lia).
    assert (- Zpos m / 2 ^ (- e) <= 0).
    { apply Z.lt_succ_r. apply Z.div_lt_upper_bound; lia. }
    lia.
Qed.

End Operations64.

(** C8, refuted: two outputs with scales 1 and 2 that lie away from the
    origin have a physical geometry of 1920x2160 and a logical geometry of
    2880x1080: the origin of the second output is divided by its scale and
    moves to the left of the first. *)
Lemma logical_can_exceed_physical :
  forallb (fun s => scaleAtLeastOne (devicePixelRatio s))
          (screens SampleC8.stacked) = true
  /\ result (desktopGeometry SampleC8.stacked) = Some (Rect.make 1920 0 1920 2160)
  /\ result (logicalDesktopGeometry SampleC8.stacked)
     = Some (Rect.make 960 0 2880 1080)
  /\ ~ logicalNeverExceedsPhysical.
Proof.
  split; [vm_compute; reflexivity|].
  split; [vm_compute; reflexivity|].
  split; [vm_compute; reflexivity|].
  intros C.
  destruct (C SampleC8.stacked (Rect.make 1920 0 1920 2160)
              (Rect.make 960 0 2880 1080)) as [Hw _];
    try (vm_compute; reflexivity).
  vm_compute in Hw. now apply Hw.
Qed.

(** With an output at negative coordinates the rounding of the doubles
    alone can make the logical geometry wider than the physical one. *)
Remark rounding_can_exceed_physical :
  result (desktopGeometry SampleC8.leftOfOrigin) = Some (Rect.make (-1000) 0 5000 1000)
  /\ result (logicalDesktopGeometry SampleC8.leftOfOrigin)
     = Some (Rect.make (-1000) 0 5001 1000).
Proof. split; vm_compute; reflexivity. Qed.

(** * Further properties *)

(** ** The handle token and the path of the request *)

Lemma chars_remove (c : ascii) (s : string) :
  chars (remove c s) = filter (fun a => negb (Ascii.eqb a c)) (chars s).
Proof.
  induction s as [|a s IH]; simpl; [reflexivity|].
  destruct (Ascii.eqb a c); simpl; [exact IH | now rewrite <- IH].
Qed.

Lemma chars_replace (c by_ : ascii) (s : string) :
  chars (replace c by_ s)
  = map (fun a => if Ascii.eqb a c then by_ else a) (chars s).
Proof.
  induction s as [|a s IH]; simpl; [reflexivity|]. now rewrite <- IH.
Qed.

Lemma chars_append (s t : string) : chars (s ++ t) = (chars s ++ chars t)%list.
Proof. induction s as [|a s IH]; simpl; [reflexivity | now rewrite <- IH]. Qed.

(** X1. The handle token is the UUID without its dashes and braces, every
    other character kept in its place; the path of the request object on
    which the handler listens is the fixed prefix, the bus name of the
    caller without colons and with every dot turned into an underscore, a
    slash, and that same token, which is the one passed to [Screenshot]. *)
Theorem token_and_request_path (env : Env) :
  chars (token env)
  = filter (fun a => negb (isUuidPunctuation a)) (chars (createUuid env))
  /\ (forall a, In a (chars (token env)) ->
                a <> "-"%char /\ a <> "{"%char /\ a <> "}"%char)
  /\ exists sender,
       requestPath env
       = ("/org/freedesktop/portal/desktop/request/" ++ sender ++ "/" ++ token env)%string
       /\ chars sender
          = map (fun a => if Ascii.eqb a "." then "_"%char else a)
                (filter (fun a => negb (Ascii.eqb a ":")) (chars (baseService env)))
       /\ (forall a, In a (chars sender) -> a <> ":"%char /\ a <> "."%char)
       /\ forall fuel ok res r t,
            freeDesktopPortal env fuel ok res = Some (r, t) ->
            forall handle interactive,
              In (Call "Screenshot" handle interactive) t ->
              handle = token env /\ interactive = false
              /\ In (NewRequest service (requestPath env)) t.
Proof.
  assert (T : chars (token env)
              = filter (fun a => negb (isUuidPunctuation a)) (chars (createUuid env))).
  { unfold token. rewrite !chars_remove.
    induction (chars (createUuid env)) as [|a l IH]; [reflexivity|].
    unfold isUuidPunctuation in *. simpl.
    destruct (Ascii.eqb a "-"); simpl; [exact IH|].
    destruct (Ascii.eqb a "{"); simpl; [exact IH|].
    destruct (Ascii.eqb a "}"); simpl; [exact IH | now rewrite IH]. }
  split; [exact T|]. split.
  - intros a Ha. rewrite T in Ha. apply filter_In in Ha. destruct Ha as [_ Ha].
    apply negb_true_iff in Ha. unfold isUuidPunctuation in Ha.
    apply orb_false_iff in Ha. destruct Ha as [Ha H3].
    apply orb_false_iff in Ha. destruct Ha as [H1 H2].
    apply Ascii.eqb_neq in H1, H2, H3. now repeat split.
  - exists (replace "." "_" (remove ":" (baseService env))).
    split; [reflexivity|]. split; [|split].
    + rewrite chars_replace, chars_remove. reflexivity.
    + intros a Ha. rewrite chars_replace, chars_remove in Ha.
      apply in_map_iff in Ha. destruct Ha as (b & Hb & Hin).
      apply filter_In in Hin. destruct Hin as [_ Hc].
      apply negb_true_iff in Hc.
      destruct (Ascii.eqb b ".") eqn:Hd; subst a.
      * split; discriminate.
      * apply Ascii.eqb_neq in Hc, Hd. now split.
    + intros fuel ok res r t E handle interactive Hin.
      destruct (serviceRegistered env) eqn:Hreg.
      * rewrite (freeDesktopPortal_registered _ _ _ _ Hreg) in E.
        destruct (loopExec env fuel 0) as [[status uriString]|]; [|discriminate].
        destruct (gotSignal env res status uriString) as [[res' t1]|] eqn:G;
          [|discriminate].
        injection E as <- <-.
        assert (Q : forall e, In e t1 -> requestOrCall e = false).
        { intros e He. pose proof (gotSignal_quiet env res status uriString
                                     PermissionBroker) as Q.
          rewrite G in Q. unfold invoked in Q. simpl in Q.
          destruct (requestOrCall e) eqn:R; [|reflexivity].
          rewrite <- Q. symmetry. apply existsb_exists. exists e. split; [exact He|].
          unfold brokerEvent. destruct e; try discriminate; reflexivity. }
        split; [|split].
        -- unfold portalPrologue in Hin. simpl in Hin.
           repeat (destruct Hin as [Hin|Hin]; [try discriminate | ]);
             try (injection Hin as <- <-; reflexivity).
           apply in_app_or in Hin. destruct Hin as [Hin|Hin].
           ++ apply Q in Hin. discriminate.
           ++ simpl in Hin. repeat (destruct Hin as [Hin|Hin]; [discriminate|]).
              contradiction.
        -- unfold portalPrologue in Hin. simpl in Hin.
           repeat (destruct Hin as [Hin|Hin]; [try discriminate | ]);
             try (injection Hin as <- <-; reflexivity).
           apply in_app_or in Hin. destruct Hin as [Hin|Hin].
           ++ apply Q in Hin. discriminate.
           ++ simpl in Hin. repeat (destruct Hin as [Hin|Hin]; [discriminate|]).
              contradiction.
        -- unfold portalPrologue. simpl. right. right. now left.
      * rewrite (freeDesktopPortal_unregistered _ _ _ _ Hreg) in E.
        injection E as <- <-. simpl in Hin.
        repeat (destruct Hin as [Hin|Hin]; [discriminate|]). contradiction.
Qed.

(** ** Reconciling an image twice *)

Lemma adjustDevicePixelRatio_result env pixmap physicalGeo logicalGeo :
  result (desktopGeometry env) = Some physicalGeo ->
  result (logicalDesktopGeometry env) = Some logicalGeo ->
  result (adjustDevicePixelRatio env pixmap)
  = Some
      (if QSize_eqb (Pix.size pixmap) (Rect.size physicalGeo)
       then Pix.setDevicePixelRatio pixmap (appDevicePixelRatio env)
       else if negb (QSize_eqb (Pix.size pixmap) (Rect.size logicalGeo))
       then Pix.setDevicePixelRatio pixmap
              (heightRatio (Pix.height pixmap) (Rect.height logicalGeo))
       else pixmap).
Proof.
  intros P L. unfold adjustDevicePixelRatio. rewrite result_bind, P, result_bind, L.
  destruct (QSize_eqb (Pix.size pixmap) (Rect.size physicalGeo)); [reflexivity|].
  destruct (negb (QSize_eqb (Pix.size pixmap) (Rect.size logicalGeo))); reflexivity.
Qed.

Lemma setDevicePixelRatio_size p v : Pix.size (Pix.setDevicePixelRatio p v) = Pix.size p.
Proof. now destruct p. Qed.

Lemma setDevicePixelRatio_twice p v :
  Pix.setDevicePixelRatio (Pix.setDevicePixelRatio p v) v = Pix.setDevicePixelRatio p v.
Proof. now destruct p. Qed.

(** X2. [adjustDevicePixelRatio] changes neither the size of the pixmap
    nor whether it is null, and the pixmap that it gives is left as it is
    by a second call. *)
Theorem adjust_keeps_size_and_settles (env : Env) (pixmap : QPixmap) :
  exists adjusted,
    result (adjustDevicePixelRatio env pixmap) = Some adjusted
    /\ Pix.size adjusted = Pix.size pixmap
    /\ Pix.isNull adjusted = Pix.isNull pixmap
    /\ result (adjustDevicePixelRatio env adjusted) = Some adjusted.
Proof.
  destruct (returns_result _ (desktopGeometry_returns env)) as [physicalGeo P].
  destruct (returns_result _ (logicalDesktopGeometry_returns env)) as [logicalGeo L].
  rewrite (adjustDevicePixelRatio_result env pixmap _ _ P L).
  eexists. split; [reflexivity|].
  remember (QSize_eqb (Pix.size pixmap) (Rect.size physicalGeo)) as c1 eqn:C1.
  remember (negb (QSize_eqb (Pix.size pixmap) (Rect.size logicalGeo))) as c2 eqn:C2.
  remember (if c1
            then Pix.setDevicePixelRatio pixmap (appDevicePixelRatio env)
            else if c2
                 then Pix.setDevicePixelRatio pixmap
                        (heightRatio (Pix.height pixmap) (Rect.height logicalGeo))
                 else pixmap) as adjusted eqn:A.
  assert (S : Pix.size adjusted = Pix.size pixmap).
  { subst adjusted. destruct c1; [apply setDevicePixelRatio_size|].
    destruct c2; [apply setDevicePixelRatio_size | reflexivity]. }
  assert (H : Pix.height adjusted = Pix.height pixmap)
    by (unfold Pix.height; now rewrite S).
  split; [exact S|]. split.
  - subst adjusted. destruct c1; [now destruct pixmap|].
    destruct c2; now destruct pixmap.
  - rewrite (adjustDevicePixelRatio_result env _ _ _ P L), S, H, <- C1, <- C2.
    f_equal. subst adjusted.
    destruct c1; [apply setDevicePixelRatio_twice|].
    destruct c2; [apply setDevicePixelRatio_twice | reflexivity].
Qed.

(** ** The order of the screens *)

(** Two bounding boxes of the same rectangles are the same. *)
Lemma hull_unique (u u' : QRect) (l l' : list QScreen) :
  (forall s, In s l -> In s l') -> (forall s, In s l' -> In s l) ->
  Forall (fun s => encloses u (geometry s)) l ->
  Forall (fun s => encloses u' (geometry s)) l' ->
  Exists (fun r => x1 u = x1 r) (map geometry l) ->
  Exists (fun r => y1 u = y1 r) (map geometry l) ->
  Exists (fun r => x2 u = x2 r) (map geometry l) ->
  Exists (fun r => y2 u = y2 r) (map geometry l) ->
  Exists (fun r => x1 u' = x1 r) (map geometry l') ->
  Exists (fun r => y1 u' = y1 r) (map geometry l') ->
  Exists (fun r => x2 u' = x2 r) (map geometry l') ->
  Exists (fun r => y2 u' = y2 r) (map geometry l') ->
  u = u'.
Proof.
  intros S S' F F' A1 B1 A2 B2 A1' B1' A2' B2'.
  rewrite Forall_forall in F, F'.
  assert (Side : forall (side : QRect -> Z) v (lst : list QScreen),
             Exists (fun r => v = side r) (map geometry lst) ->
             exists s, In s lst /\ v = side (geometry s)).
  { intros side v lst H. apply Exists_exists in H. destruct H as (r & Hin & Hv).
    apply in_map_iff in Hin. destruct Hin as (s & <- & Hs). now exists s. }
  destruct (Side x1 _ _ A1) as (a1 & Ia1 & Ea1).
  destruct (Side y1 _ _ B1) as (b1 & Ib1 & Eb1).
  destruct (Side x2 _ _ A2) as (a2 & Ia2 & Ea2).
  destruct (Side y2 _ _ B2) as (b2 & Ib2 & Eb2).
  destruct (Side x1 _ _ A1') as (a1' & Ia1' & Ea1').
  destruct (Side y1 _ _ B1') as (b1' & Ib1' & Eb1').
  destruct (Side x2 _ _ A2') as (a2' & Ia2' & Ea2').
  destruct (Side y2 _ _ B2') as (b2' & Ib2' & Eb2').
  pose proof (F' a1 (S _ Ia1)) as H1. pose proof (F' b1 (S _ Ib1)) as H2.
  pose proof (F' a2 (S _ Ia2)) as H3. pose proof (F' b2 (S _ Ib2)) as H4.
  pose proof (F a1' (S' _ Ia1')) as H5. pose proof (F b1' (S' _ Ib1')) as H6.
  pose proof (F a2' (S' _ Ia2')) as H7. pose proof (F b2' (S' _ Ib2')) as H8.
  unfold encloses in *.
  destruct u as [ux1 uy1 ux2 uy2], u' as [vx1 vy1 vx2 vy2]. simpl in *.
  f_equal; lia.
Qed.

Lemma screensUnion_permutation (l l' : list QScreen) :
  Permutation l l' ->
  Forall (fun s => proper (geometry s)) l ->
  screensUnion l = screensUnion l'.
Proof.
  intros P H.
  assert (H' : Forall (fun s => proper (geometry s)) l')
    by (eapply Permutation_Forall; eassumption).
  destruct l as [|s l]; [apply Permutation_nil in P; now subst|].
  destruct l' as [|s' l'];
    [apply Permutation_sym, Permutation_nil in P; discriminate|].
  destruct (screensUnion_hull s l H) as (_ & F & A1 & B1 & A2 & B2).
  destruct (screensUnion_hull s' l' H') as (_ & F' & A1' & B1' & A2' & B2').
  apply (hull_unique _ _ (s :: l) (s' :: l')); try assumption.
  - intros x. apply Permutation_in. exact P.
  - intros x. apply Permutation_in. apply Permutation_sym. exact P.
Qed.

(** X3. On the generic path the physical desktop geometry does not depend
    on the order in which the screens are enumerated, as long as every
    screen has at least one pixel. *)
Theorem physical_geometry_ignores_order (env env' : Env) :
  genericPath env = true -> genericPath env' = true ->
  Permutation (screens env) (screens env') ->
  Forall (fun s => proper (geometry s)) (screens env) ->
  result (desktopGeometry env) = result (desktopGeometry env').
Proof.
  intros G G' P H.
  destruct (generic_geometries env G) as [-> _].
  destruct (generic_geometries env' G') as [-> _].
  f_equal. now apply screensUnion_permutation.
Qed.

Lemma physical_geometry_ignores_order_witness :
  result (desktopGeometry SampleC8.atOrigin)
  = result (desktopGeometry SampleOrder.reversed).
Proof.
  apply physical_geometry_ignores_order; try reflexivity.
  - apply Permutation_rev.
  - repeat constructor; vm_compute; discriminate.
Defined.

(** ** The capture as a whole *)

Lemma avoids_bind (P : Event -> bool) {A B} (m : M A) (k : A -> M B) :
  avoids P m -> (forall a, avoids P (k a)) -> avoids P (bind m k).
Proof.
  unfold avoids. intros Hm Hk. rewrite events_bind.
  destruct m as [[a t]|]; [|reflexivity].
  specialize (Hk a). simpl in Hm.
  destruct (k a) as [[b t']|]; [|reflexivity].
  simpl in Hk. now rewrite existsb_app, Hm, Hk.
Qed.

Lemma avoids_ret (P : Event -> bool) {A} (a : A) : avoids P (ret a).
Proof. reflexivity. Qed.

Lemma avoids_tell (P : Event -> bool) (e : Event) : P e = false -> avoids P (tell e).
Proof. intros H. unfold avoids. simpl. now rewrite H. Qed.

Lemma avoids_not_In (P : Event -> bool) {A} (m : M A) a t e :
  avoids P m -> m = Some (a, t) -> P e = true -> ~ In e t.
Proof.
  unfold avoids. intros H -> He Hin. simpl in H.
  assert (existsb P t = true) by (apply existsb_exists; now exists e).
  congruence.
Qed.

(** The geometry functions start hyprctl and log warnings, nothing else. *)
Lemma hyprlandDesktopGeometries_avoids (P : Event -> bool) env physical logical :
  (forall program arguments, P (ProcessStart program arguments) = false) ->
  (forall message, P (Log Warning message) = false) ->
  avoids P (hyprlandDesktopGeometries env physical logical).
Proof.
  intros Hp Hl. unfold hyprlandDesktopGeometries.
  repeat match goal with
         | |- avoids _ (bind _ _) => apply avoids_bind; [| intros ?]
         | |- avoids _ (ret _) => apply avoids_ret
         | |- avoids _ (tell _) => apply avoids_tell; auto
         | |- avoids _ (if ?c then _ else _) => destruct c
         | |- avoids _ (let '(_, _) := ?p in _) => destruct p
         | |- avoids _ (match ?x with _ => _ end) => destruct x
         end.
Qed.

Lemma adjustDevicePixelRatio_avoids (P : Event -> bool) env pixmap :
  (forall program arguments, P (ProcessStart program arguments) = false) ->
  (forall message, P (Log Warning message) = false) ->
  avoids P (adjustDevicePixelRatio env pixmap).
Proof.
  intros Hp Hl.
  unfold adjustDevicePixelRatio, desktopGeometry, logicalDesktopGeometry.
  apply avoids_bind.
  { apply avoids_bind; [now apply hyprlandDesktopGeometries_avoids|].
    intros [[got p] l]. destruct got; apply avoids_ret. }
  intros physicalGeo. apply avoids_bind.
  { apply avoids_bind; [now apply hyprlandDesktopGeometries_avoids|].
    intros [[got p] l]. destruct got; apply avoids_ret. }
  intros logicalGeo.
  destruct (QSize_eqb _ _); [apply avoids_ret|].
  destruct (negb _); apply avoids_ret.
Qed.

(** The switch of [grabEntireDesktop] on Wayland: the preamble, the run of
    the chosen backend, and the error message after a failure. *)
Lemma grabEntireDesktop_wayland env fuel :
  waylandDetected env = true ->
  grabEntireDesktop env fuel
  = match backendRun env fuel with
    | None => None
    | Some (r, tb) =>
        Some (r, preamble env ++ tb
                 ++ (if fst r then [] else [Log Error msgNoCapture]))
    end.
Proof.
  intros W. unfold grabEntireDesktop, backendRun, preamble, chosen. rewrite W.
  destruct (windowManager env);
    try (destruct (useGrimAdapter env); simpl;
         destruct (disabledGrimWarning env); simpl);
    try reflexivity;
    match goal with
    | |- context [freeDesktopPortal ?e ?f ?o ?p] =>
        destruct (freeDesktopPortal e f o p) as [[[ok res] tb]|]
    | |- context [generalGrimScreenshot ?e ?o ?p] =>
        destruct (generalGrimScreenshot e o p) as [[[ok res] tb]|]
    end;
    try reflexivity;
    destruct ok; simpl; rewrite ?app_nil_r; reflexivity.
Qed.

(** Without Wayland: one grab on the primary screen. *)
Lemma grabEntireDesktop_x11 env fuel :
  waylandDetected env = false ->
  grabEntireDesktop env fuel
  = match screens env with
    | [] => None
    | primaryScreen :: _ =>
        let geo := screensUnion (screens env) in
        let gx := dtrunc (ddiv (double_of_int (- Rect.x (geometry primaryScreen)))
                               (devicePixelRatio primaryScreen)) in
        let gy := dtrunc (ddiv (double_of_int (- Rect.y (geometry primaryScreen)))
                               (devicePixelRatio primaryScreen)) in
        Some ((true, grabWindow env gx gy (Rect.width geo) (Rect.height geo)),
              [GrabWindow gx gy (Rect.width geo) (Rect.height geo)])
    end.
Proof.
  intros W. unfold grabEntireDesktop, desktopGeometry, hyprlandDesktopGeometries.
  rewrite W. simpl. destruct (screens env); reflexivity.
Qed.

Lemma gotSignal_cases env res status uriString res' t1 :
  gotSignal env res status uriString = Some (res', t1) ->
  (status = 0
   /\ exists ta,
        adjustDevicePixelRatio env (imageFile env uriString) = Some (res', ta)
        /\ t1 = LoadImage uriString :: ta ++ [RemoveFile uriString])
  \/ (status <> 0 /\ res' = res /\ t1 = []).
Proof.
  unfold gotSignal. destruct (status =? 0) eqn:E.
  - apply Z.eqb_eq in E. intros H. left. split; [exact E|].
    destruct (adjustDevicePixelRatio env (imageFile env uriString))
      as [[a ta]|]; [|discriminate].
    exists ta. simpl in H. injection H as <- <-.
    rewrite ?app_nil_r. split; reflexivity.
  - apply Z.eqb_neq in E. intros [= <- <-]. now right.
Qed.

Lemma generalGrimScreenshot_cases env ok res r tb :
  generalGrimScreenshot env ok res = Some (r, tb) ->
  (useGrimAdapter env = false /\ r = (ok, res) /\ tb = [])
  \/ (waitForFinished (grimRun env) defaultWait = true
      /\ exists a ta,
           adjustDevicePixelRatio env (imageFile env (imgPath env)) = Some (a, ta)
           /\ r = (true, a)
           /\ tb = ProcessStart "grim" ["-t"%string; "ppm"%string; imgPath env]
                   :: LoadImage (imgPath env) :: RemoveFile (imgPath env) :: ta)
  \/ (waitForFinished (grimRun env) defaultWait = false
      /\ r = (false, res)
      /\ tb = [ProcessStart "grim" ["-t"%string; "ppm"%string; imgPath env];
               Log Error msgGrimMissing]).
Proof.
  unfold generalGrimScreenshot. destruct (useGrimAdapter env); simpl.
  - destruct (waitForFinished (grimRun env) defaultWait).
    + intros H. right. left. split; [reflexivity|].
      destruct (adjustDevicePixelRatio env (imageFile env (imgPath env)))
        as [[a ta]|]; [|discriminate].
      exists a, ta. simpl in H. injection H as <- <-.
      rewrite ?app_nil_r. auto.
    + intros [= <- <-]. right. right. auto.
  - intros [= <- <-]. left. auto.
Qed.

Lemma adjustDevicePixelRatio_trace (P : Event -> bool) env pixmap a ta :
  (forall program arguments, P (ProcessStart program arguments) = false) ->
  (forall message, P (Log Warning message) = false) ->
  adjustDevicePixelRatio env pixmap = Some (a, ta) ->
  existsb P ta = false.
Proof.
  intros Hp Hl E.
  pose proof (adjustDevicePixelRatio_avoids P env pixmap Hp Hl) as H.
  unfold avoids in H. now rewrite E in H.
Qed.

Lemma loads_app t1 t2 : loads (t1 ++ t2) = loads t1 ++ loads t2.
Proof. apply flat_map_app. Qed.

Lemma removes_app t1 t2 : removes (t1 ++ t2) = removes t1 ++ removes t2.
Proof. apply flat_map_app. Qed.

Lemma no_fileEvent t :
  existsb fileEvent t = false -> loads t = [] /\ removes t = [].
Proof.
  induction t as [|e t IH]; simpl; [auto|].
  intros H. apply orb_false_iff in H. destruct H as [He Ht].
  destruct (IH Ht) as [-> ->]. destruct e; try discriminate; auto.
Qed.

Lemma adjustDevicePixelRatio_no_file env pixmap a ta :
  adjustDevicePixelRatio env pixmap = Some (a, ta) ->
  loads ta = [] /\ removes ta = [].
Proof.
  intros E. apply no_fileEvent.
  now apply (adjustDevicePixelRatio_trace fileEvent env pixmap a ta).
Qed.

Lemma not_In_existsb (P : Event -> bool) e t :
  existsb P t = false -> P e = true -> ~ In e t.
Proof.
  intros H He Hin.
  assert (existsb P t = true) by (apply existsb_exists; now exists e).
  congruence.
Qed.

Lemma preamble_trace env :
  existsb isNoCapture (preamble env) = false
  /\ existsb fileEvent (preamble env) = false.
Proof.
  unfold preamble.
  destruct (windowManager env), (disabledGrimWarning env), (useGrimAdapter env);
    split; reflexivity.
Qed.

(** What a run of the chosen backend leaves in the trace: no message of
    [grabEntireDesktop] itself, and at most one file, loaded and removed,
    whose adjusted picture is the result. *)
Lemma backendRun_trace env fuel r tb :
  backendRun env fuel = Some (r, tb) ->
  existsb isNoCapture tb = false
  /\ loads tb = removes tb
  /\ (List.length (loads tb) <= 1)%nat
  /\ (forall path, In path (loads tb) ->
        result (adjustDevicePixelRatio env (imageFile env path)) = Some (snd r)).
Proof.
  unfold backendRun.
  destruct (chosen env) as [[|]|].
  - destruct (serviceRegistered env) eqn:Hreg.
    + rewrite (freeDesktopPortal_registered _ _ _ _ Hreg).
      destruct (loopExec env fuel 0) as [[status uriString]|]; [|discriminate].
      destruct (gotSignal env NullPixmap status uriString) as [[res' t1]|] eqn:G;
        [|discriminate].
      remember (portalPrologue env) as prologue eqn:Hp.
      intros [= <- <-].
      assert (Pn : existsb isNoCapture prologue = false) by now subst.
      assert (Pl : loads prologue = []) by now subst.
      assert (Pr : removes prologue = []) by now subst.
      clear Hp.
      destruct (gotSignal_cases _ _ _ _ _ _ G)
        as [(_ & ta & A & ->) | (_ & _ & ->)];
        rewrite ?loads_app, ?removes_app, ?existsb_app, Pn, Pl, Pr.
      * pose proof (adjustDevicePixelRatio_trace isNoCapture _ _ _ _
                      (fun _ _ => eq_refl) (fun _ => eq_refl) A) as N.
        destruct (adjustDevicePixelRatio_no_file _ _ _ _ A) as [L R].
        change (LoadImage uriString :: ta ++ [RemoveFile uriString])
          with ([LoadImage uriString] ++ ta ++ [RemoveFile uriString]).
        rewrite !loads_app, !removes_app, !existsb_app, L, R, N.
        repeat split; auto.
        intros path [<- | []]. unfold result. now rewrite A.
      * repeat split; auto. intros path [].
    + rewrite (freeDesktopPortal_unregistered _ _ _ _ Hreg).
      intros [= <- <-]. repeat split; auto. intros path [].
  - intros G.
    destruct (generalGrimScreenshot_cases _ _ _ _ _ G)
      as [(_ & -> & ->) | [(_ & a & ta & A & -> & ->) | (_ & -> & ->)]].
    + repeat split; auto. intros path [].
    + pose proof (adjustDevicePixelRatio_trace isNoCapture _ _ _ _
                    (fun _ _ => eq_refl) (fun _ => eq_refl) A) as N.
      destruct (adjustDevicePixelRatio_no_file _ _ _ _ A) as [L R].
      change (?a :: ?b :: ?c :: ta) with ([a; b; c] ++ ta).
      rewrite !loads_app, !removes_app, !existsb_app, L, R, N.
      repeat split; auto.
      intros path [<- | []]. unfold result. now rewrite A.
    + repeat split; auto. intros path [].
  - intros [= <- <-]. repeat split; auto. intros path [].
Qed.

(** X4. On Wayland, a capture that returns has logged the error
    [Unable to capture screen] exactly when it reports failure, as its last
    event and nowhere else: a caller that sees [ok = false] can rely on the
    user having been told, and no such message accompanies a success. *)
Theorem wayland_failure_is_announced_last
  (env : Env) (fuel : nat) (r : bool * QPixmap) (t : list Event) :
  waylandDetected env = true ->
  grabEntireDesktop env fuel = Some (r, t) ->
  (exists before,
     t = before ++ (if fst r then [] else [Log Error msgNoCapture])
     /\ ~ In (Log Error msgNoCapture) before)
  /\ (fst r = false <-> In (Log Error msgNoCapture) t).
Proof.
  intros W E. rewrite (grabEntireDesktop_wayland _ _ W) in E.
  destruct (backendRun env fuel) as [[r' tb]|] eqn:B; [|discriminate].
  injection E as <- <-.
  destruct (backendRun_trace _ _ _ _ B) as (N & _).
  destruct (preamble_trace env) as [Np _].
  assert (Hb : ~ In (Log Error msgNoCapture) (preamble env ++ tb)).
  { apply (not_In_existsb isNoCapture).
    - now rewrite existsb_app, Np, N.
    - reflexivity. }
  split.
  - exists (preamble env ++ tb). split; [now rewrite app_assoc | exact Hb].
  - rewrite app_assoc. rewrite in_app_iff. destruct (fst r').
    + split; [discriminate|]. intros [H | []]. now destruct Hb.
    + split; [|reflexivity]. intros _. right. now left.
Qed.

Lemma wayland_failure_is_announced_last_witness :
  exists r t,
    grabEntireDesktop (SamplePortal.gnome false Sample.silentBus) 0 = Some (r, t)
    /\ (fst r = false <-> In (Log Error msgNoCapture) t).
Proof.
  destruct (grabEntireDesktop (SamplePortal.gnome false Sample.silentBus) 0)
    as [[r t]|] eqn:E; [|vm_compute in E; discriminate E].
  exists r, t. split; [reflexivity|].
  apply (wayland_failure_is_announced_last
           (SamplePortal.gnome false Sample.silentBus) 0 r t);
    [reflexivity | exact E].
Defined.

Lemma backendRun_flag env fuel r tb :
  is_chosen env HelperTool = false ->
  backendRun env fuel = Some (r, tb) ->
  fst r = negb (Pix.isNull (snd r)).
Proof.
  unfold is_chosen, backendRun.
  destruct (chosen env) as [[|]|]; [intros _ | discriminate | intros _].
  - destruct (serviceRegistered env) eqn:Hreg.
    + rewrite (freeDesktopPortal_registered _ _ _ _ Hreg).
      destruct (loopExec env fuel 0) as [[status uriString]|]; [|discriminate].
      destruct (gotSignal env NullPixmap status uriString) as [[res' t1]|];
        [|discriminate].
      intros [= <- _]. simpl. now destruct (Pix.isNull res').
    + rewrite (freeDesktopPortal_unregistered _ _ _ _ Hreg).
      now intros [= <- _].
  - now intros [= <- _].
Qed.

(** X5. On Wayland, when the switch does not choose the grim adapter, a
    capture that returns reports success exactly when its pixmap is not
    null: [ok] can be trusted there. (With the adapter this fails: a
    finished grim gives [ok = true] whatever was loaded.) *)
Theorem broker_success_iff_picture
  (env : Env) (fuel : nat) (r : bool * QPixmap) (t : list Event) :
  waylandDetected env = true ->
  is_chosen env HelperTool = false ->
  grabEntireDesktop env fuel = Some (r, t) ->
  fst r = negb (Pix.isNull (snd r)).
Proof.
  intros W C E. rewrite (grabEntireDesktop_wayland _ _ W) in E.
  destruct (backendRun env fuel) as [[r' tb]|] eqn:B; [|discriminate].
  injection E as <- _. exact (backendRun_flag _ _ _ _ C B).
Qed.

Lemma broker_success_iff_picture_witness :
  exists r t,
    grabEntireDesktop (SamplePortal.gnome true (SamplePortal.answers 0)) 3
    = Some (r, t)
    /\ fst r = negb (Pix.isNull (snd r)).
Proof.
  destruct (grabEntireDesktop (SamplePortal.gnome true (SamplePortal.answers 0)) 3)
    as [[r t]|] eqn:E; [|vm_compute in E; discriminate E].
  exists r, t. split; [reflexivity|].
  apply (broker_success_iff_picture
           (SamplePortal.gnome true (SamplePortal.answers 0)) 3 r t);
    [reflexivity | reflexivity | exact E].
Defined.

(** X6. Whatever the session, a capture that returns has removed every
    file that it loaded, in the same order, also when the file gave no
    picture; it loads at most one file, and then the pixmap it returns is
    what [adjustDevicePixelRatio] makes of that file's picture. *)
Theorem loaded_file_is_removed
  (env : Env) (fuel : nat) (r : bool * QPixmap) (t : list Event) :
  grabEntireDesktop env fuel = Some (r, t) ->
  loads t = removes t
  /\ (List.length (loads t) <= 1)%nat
  /\ (forall path, In path (loads t) ->
        result (adjustDevicePixelRatio env (imageFile env path)) = Some (snd r)).
Proof.
  intros E. destruct (waylandDetected env) eqn:W.
  - rewrite (grabEntireDesktop_wayland _ _ W) in E.
    destruct (backendRun env fuel) as [[r' tb]|] eqn:B; [|discriminate].
    injection E as <- <-.
    destruct (backendRun_trace _ _ _ _ B) as (_ & F & L & A).
    destruct (preamble_trace env) as [_ P].
    destruct (no_fileEvent _ P) as [Pl Pr].
    assert (Tl : loads (if fst r' then [] else [Log Error msgNoCapture]) = [])
      by now destruct (fst r').
    assert (Tr : removes (if fst r' then [] else [Log Error msgNoCapture]) = [])
      by now destruct (fst r').
    rewrite !loads_app, !removes_app, Pl, Pr, Tl, Tr, !app_nil_r.
    cbn [app]. auto.
  - rewrite (grabEntireDesktop_x11 _ _ W) in E.
    destruct (screens env); [discriminate|].
    injection E as <- <-. cbn. repeat split; auto. intros path [].
Qed.

Lemma loaded_file_is_removed_witness :
  exists r t,
    grabEntireDesktop SampleGrim.grimExitsWithError 0 = Some (r, t)
    /\ loads t = removes t /\ loads t <> [].
Proof.
  destruct (grabEntireDesktop SampleGrim.grimExitsWithError 0)
    as [[r t]|] eqn:E; [|vm_compute in E; discriminate E].
  exists r, t. split; [reflexivity|].
  split;
    [apply (loaded_file_is_removed SampleGrim.grimExitsWithError 0 r t E)|].
  vm_compute in E. injection E as _ <-. discriminate.
Defined.

Lemma freeDesktopPortal_more env fuel extra ok res r :
  freeDesktopPortal env fuel ok res = Some r ->
  freeDesktopPortal env (fuel + extra) ok res = Some r.
Proof.
  intros E. destruct (serviceRegistered env) eqn:Hreg.
  - rewrite (freeDesktopPortal_registered _ _ _ _ Hreg) in E.
    rewrite (freeDesktopPortal_registered _ _ _ _ Hreg).
    destruct (loopExec env fuel 0) as [p|] eqn:L; [|discriminate].
    now rewrite (loopExec_more _ _ _ extra _ L).
  - rewrite (freeDesktopPortal_unregistered env _ ok res Hreg) in E.
    now rewrite (freeDesktopPortal_unregistered env _ ok res Hreg).
Qed.

Lemma freeDesktopPortal_answered env n status uriString ok res :
  busEvents env n = Response status uriString ->
  returns (freeDesktopPortal env (S n) ok res).
Proof.
  intros H. destruct (serviceRegistered env) eqn:Hreg.
  - destruct (loopExec_finds env n 0 status uriString H) as (s & u & L).
    rewrite (freeDesktopPortal_registered _ _ _ _ Hreg), L.
    destruct (gotSignal_returns env res s u) as (res' & t1 & ->).
    eexists. eexists. reflexivity.
  - eexists. eexists. apply (freeDesktopPortal_unregistered env _ ok res Hreg).
Qed.

Lemma backendRun_more env fuel extra r :
  backendRun env fuel = Some r -> backendRun env (fuel + extra) = Some r.
Proof.
  unfold backendRun. destruct (chosen env) as [[|]|]; auto.
  apply freeDesktopPortal_more.
Qed.

Lemma wayland_returns env fuel :
  waylandDetected env = true ->
  (returns (grabEntireDesktop env fuel) <-> returns (backendRun env fuel)).
Proof.
  intros W. rewrite (grabEntireDesktop_wayland _ _ W).
  destruct (backendRun env fuel) as [[r tb]|]; split;
    intros (a & t & E); try discriminate; eexists; eexists; reflexivity.
Qed.

(** X7. When [grabEntireDesktop] returns. On Wayland with the broker
    chosen and its service registered, it returns exactly when the
    request's [Response] is among the events of the bus; in every other
    Wayland session it always returns (the wait for grim is bounded).
    Without Wayland it returns exactly when there is a primary screen. More
    events never change a result. *)
Theorem capture_returns_iff (env : Env) :
  ((exists fuel, returns (grabEntireDesktop env fuel))
   <-> (waitsForBroker env = true ->
        exists n status uriString, busEvents env n = Response status uriString)
       /\ (waylandDetected env = false -> screens env <> []))
  /\ (forall fuel extra r,
        grabEntireDesktop env fuel = Some r ->
        grabEntireDesktop env (fuel + extra) = Some r).
Proof.
  unfold waitsForBroker, is_chosen.
  destruct (waylandDetected env) eqn:W; cbn [andb].
  - split.
    + split.
      * intros (fuel & R). apply (wayland_returns _ _ W) in R.
        split; [|discriminate].
        unfold backendRun in R.
        destruct (chosen env) as [[|]|]; cbn [Backend_eqb andb];
          try discriminate.
        intros Hreg. destruct R as (r & t & E).
        rewrite (freeDesktopPortal_registered _ _ _ _ Hreg) in E.
        destruct (loopExec env fuel 0) as [[status uriString]|] eqn:L;
          [|discriminate].
        destruct (loopExec_found _ _ _ _ _ L) as [n Hn].
        now exists n, status, uriString.
      * intros [H _].
        assert (G : exists fuel, returns (backendRun env fuel)).
        { unfold backendRun.
          destruct (chosen env) as [[|]|]; cbn [Backend_eqb andb] in H.
          - destruct (serviceRegistered env) eqn:Hreg.
            + destruct (H eq_refl) as (n & status & uriString & Hn).
              exists (S n).
              apply (freeDesktopPortal_answered _ _ _ _ _ _ Hn).
            + exists 0%nat. eexists. eexists.
              apply (freeDesktopPortal_unregistered env _ _ _ Hreg).
          - exists 0%nat. apply generalGrimScreenshot_returns.
          - exists 0%nat. eexists. eexists. reflexivity. }
        destruct G as [fuel G]. exists fuel. now apply (wayland_returns _ _ W).
    + intros fuel extra r. rewrite !(grabEntireDesktop_wayland _ _ W).
      destruct (backendRun env fuel) as [[r' tb]|] eqn:B; [|discriminate].
      now rewrite (backendRun_more _ _ extra _ B).
  - split.
    + split.
      * intros (fuel & r & t & E). rewrite (grabEntireDesktop_x11 _ _ W) in E.
        split; [discriminate|]. intros _ N. now rewrite N in E.
      * intros [_ H]. exists 0%nat. rewrite (grabEntireDesktop_x11 _ _ W).
        destruct (screens env); [now destruct (H eq_refl)|].
        eexists. eexists. reflexivity.
    + intros fuel extra r. now rewrite !(grabEntireDesktop_x11 _ _ W).
Qed.

Lemma encloses_size (u g : QRect) :
  encloses u g ->
  Rect.width g <= Rect.width u /\ Rect.height g <= Rect.height u.
Proof. unfold encloses, Rect.width, Rect.height. lia. Qed.

Lemma dtrunc_zero (x : qreal) : isZero x -> dtrunc x = 0.
Proof. now destruct x. Qed.

(** X8. Without Wayland the capture is one call of the primary screen's
    [grabWindow]: it always reports success, logs nothing and starts no
    process. The window asked for is as wide and as high as the union of
    all screens, hence at least as large as every screen, and it starts at
    [(0, 0)] when the primary screen lies at the origin. *)
Theorem direct_grab_spans_all_screens
  (env : Env) (fuel : nat) (primaryScreen : QScreen) (others : list QScreen) :
  waylandDetected env = false ->
  screens env = primaryScreen :: others ->
  Forall (fun s => proper (geometry s)) (screens env) ->
  exists gx gy width height,
    grabEntireDesktop env fuel
    = Some ((true, grabWindow env gx gy width height),
            [GrabWindow gx gy width height])
    /\ result (desktopGeometry env)
       = Some (screensUnion (screens env))
    /\ Rect.size (screensUnion (screens env)) = mkQSize width height
    /\ (forall s, In s (screens env) ->
          Rect.width (geometry s) <= width /\ Rect.height (geometry s) <= height)
    /\ (Rect.x (geometry primaryScreen) = 0 ->
        Rect.y (geometry primaryScreen) = 0 ->
        scaleAtLeastOne (devicePixelRatio primaryScreen) = true ->
        gx = 0 /\ gy = 0).
Proof.
  intros W S P. rewrite (grabEntireDesktop_x11 _ _ W).
  unfold desktopGeometry, hyprlandDesktopGeometries. rewrite W. cbn [andb negb].
  rewrite S in *. cbv zeta.
  do 4 eexists. split; [reflexivity|]. split; [reflexivity|].
  split; [reflexivity|]. split.
  - destruct (screensUnion_hull primaryScreen others P) as (_ & E & _).
    intros s Hs. apply encloses_size.
    rewrite Forall_forall in E. exact (E s Hs).
  - intros X Y Sc. rewrite X, Y. cbn [Z.opp].
    destruct (ddiv_int_scale 0 0 (devicePixelRatio primaryScreen)
                ltac:(lia) ltac:(lia) Sc) as (_ & Z0 & _).
    split; apply dtrunc_zero, Z0; reflexivity.
Qed.

Lemma direct_grab_spans_all_screens_witness :
  exists gx gy width height,
    grabEntireDesktop SampleC1.x11 0
    = Some ((true, grabWindow SampleC1.x11 gx gy width height),
            [GrabWindow gx gy width height]).
Proof.
  destruct (direct_grab_spans_all_screens
              SampleC1.x11 0 (Sample.screen 0 0 1600 1000 done) [])
    as (gx & gy & width & height & E & _).
  - reflexivity.
  - reflexivity.
  - repeat constructor; vm_compute; discriminate.
  - now exists gx, gy, width, height.
Defined.

Lemma moveTo_same (r : QRect) : moveTo r (x1 r - 0) (y1 r - 0) = r.
Proof.
  unfold moveTo. destruct r as [a b c d]. cbn [x1 y1 x2 y2].
  f_equal; lia.
Qed.

Lemma wayland_announces env fuel r t :
  waylandDetected env = true ->
  grabEntireDesktop env fuel = Some (r, t) ->
  (fst r = false <-> In (Log Error msgNoCapture) t).
Proof.
  intros W E. rewrite (grabEntireDesktop_wayland _ _ W) in E.
  destruct (backendRun env fuel) as [[r' tb]|] eqn:B; [|discriminate].
  injection E as <- <-.
  destruct (backendRun_trace _ _ _ _ B) as (N & _).
  destruct (preamble_trace env) as [Np _].
  assert (Hb : ~ In (Log Error msgNoCapture) (preamble env ++ tb)).
  { apply (not_In_existsb isNoCapture).
    - now rewrite existsb_app, Np, N.
    - reflexivity. }
  rewrite app_assoc, in_app_iff. destruct (fst r').
  - split; [discriminate|]. intros [H | []]. now destruct Hb.
  - split; [|reflexivity]. intros _. right. now left.
Qed.

(** X9. [grabScreen] on Wayland is the capture of the whole desktop cut
    to the screen's own rectangle ([screenGeometry] there is the screen's
    geometry): it returns when that capture returns, with the same flag
    and the same events; after a failure the pixmap is handed on uncut, and
    the failure has been logged. Without Wayland the rectangle grabbed is
    that of the current screen, whichever screen was asked for, and the
    flag is always true. *)
Theorem grabScreen_cuts_the_desktop_capture
  (env : Env) (currentScreen : QScreen)
  (grabWindowOf : QScreen -> Z -> Z -> Z -> Z -> QPixmap)
  (copy : QPixmap -> QRect -> QPixmap) (fuel : nat) (screen : QScreen) :
  (waylandDetected env = true ->
   screenGeometry env currentScreen screen = geometry screen
   /\ grabScreen env currentScreen grabWindowOf copy fuel screen
      = match grabEntireDesktop env fuel with
        | None => None
        | Some ((ok, p), t) =>
            Some ((ok, if ok then copy p (geometry screen) else p), t)
        end
   /\ (forall r t,
         grabScreen env currentScreen grabWindowOf copy fuel screen = Some (r, t) ->
         (fst r = false <-> In (Log Error msgNoCapture) t)))
  /\ (waylandDetected env = false ->
      let g := geometry currentScreen in
      screenGeometry env currentScreen screen = g
      /\ grabScreen env currentScreen grabWindowOf copy fuel screen
         = Some ((true, grabWindowOf screen (Rect.x g) (Rect.y g)
                                     (Rect.width g) (Rect.height g)),
                 [GrabWindow (Rect.x g) (Rect.y g) (Rect.width g) (Rect.height g)])).
Proof.
  split; intros W.
  - assert (G : screenGeometry env currentScreen screen = geometry screen).
    { unfold screenGeometry. rewrite W. apply moveTo_same. }
    assert (E : grabScreen env currentScreen grabWindowOf copy fuel screen
                = match grabEntireDesktop env fuel with
                  | None => None
                  | Some ((ok, p), t) =>
                      Some ((ok, if ok then copy p (geometry screen) else p), t)
                  end).
    { unfold grabScreen. rewrite W, G.
      destruct (grabEntireDesktop env fuel) as [[[ok p] t]|]; [|reflexivity].
      destruct ok; simpl; now rewrite app_nil_r. }
    split; [exact G|]. split; [exact E|].
    intros r t. rewrite E.
    destruct (grabEntireDesktop env fuel) as [[[ok p] t']|] eqn:D; [|discriminate].
    intros [= <- <-]. exact (wayland_announces _ _ _ _ W D).
  - unfold grabScreen, screenGeometry. rewrite W. split; reflexivity.
Qed.

Lemma grabScreen_cuts_the_desktop_capture_witness :
  grabScreen (SamplePortal.gnome true (SamplePortal.answers 0))
             (Sample.screen 0 0 1920 1080 done)
             (fun _ _ _ width height => Pixmap width height done)
             (fun _ r => Pixmap (Rect.width r) (Rect.height r) done)
             3 (Sample.screen 0 0 1920 1080 done)
  = match grabEntireDesktop (SamplePortal.gnome true (SamplePortal.answers 0)) 3 with
    | None => None
    | Some ((ok, p), t) =>
        Some ((ok, if ok then Pixmap 1920 1080 done else p), t)
    end.
Proof.
  apply (grabScreen_cuts_the_desktop_capture
           (SamplePortal.gnome true (SamplePortal.answers 0))
           (Sample.screen 0 0 1920 1080 done)
           (fun _ _ _ width height => Pixmap width height done)
           (fun _ r => Pixmap (Rect.width r) (Rect.height r) done)
           3 (Sample.screen 0 0 1920 1080 done)).
  reflexivity.
Defined.

(** ** Exact arithmetic on whole numbers *)

Section Rounding.

Variables prec emax : Z.
Hypothesis Hprec : 0 < prec.
Hypothesis Hemax : prec < emax.

Lemma Zdigits2_unique (m d : Z) :
  0 < m -> 2 ^ (d - 1) <= m < 2 ^ d -> Zdigits2 m = d.
Proof using Type.
  intros Hm [Lo Hi].
  pose proof (Zdigits2_ge m Hm) as [Lo' Hi'].
  pose proof (Zdigits2_positive m Hm) as Hp.
  assert (Hd : 1 <= d).
  { destruct (Z_lt_le_dec d 1) as [L|L]; [|exact L].
    assert (2 ^ d <= 1).
    { destruct (Z.eq_dec d 0) as [->|N]; [simpl; lia|].
      rewrite Z.pow_neg_r by lia. lia. }
    lia. }
  destruct (Z_lt_le_dec (Zdigits2 m) d) as [L|L].
  - assert (2 ^ Zdigits2 m <= 2 ^ (d - 1)) by (apply Z.pow_le_mono_r; lia). lia.
  - destruct (Z_lt_le_dec d (Zdigits2 m)) as [G|G]; [|lia].
    assert (2 ^ d <= 2 ^ (Zdigits2 m - 1)) by (apply Z.pow_le_mono_r; lia). lia.
Qed.

Lemma digits_shift (c : positive) (j : Z) :
  0 <= j -> Zdigits2 (Zpos c * 2 ^ j) = Zpos (digits2_pos c) + j.
Proof using Type.
  intros Hj. pose proof (digits2_pos_bounds c) as [Lo Hi].
  assert (P : 0 < 2 ^ j) by (apply Z.pow_pos_nonneg; lia).
  assert (D : 1 <= Zpos (digits2_pos c)) by lia.
  apply Zdigits2_unique; [lia|].
  replace (Zpos (digits2_pos c) + j - 1) with (Zpos (digits2_pos c) - 1 + j) by lia.
  rewrite !Z.pow_add_r by lia. split; nia.
Qed.

Lemma fexp_spec (z : Z) : fexp prec emax z = Z.max (z - prec) (3 - emax - prec).
Proof using Type. reflexivity. Qed.

Lemma bounded_iff (c : positive) (ec : Z) :
  bounded prec emax c ec = true
  <-> Z.max (Zpos (digits2_pos c) + ec - prec) (3 - emax - prec) = ec
      /\ ec <= emax - prec.
Proof using Type.
  unfold bounded, canonical_mantissa. rewrite fexp_spec.
  rewrite andb_true_iff, Z.leb_le.
  split; intros [A B]; (split; [|lia]).
  - now apply Z.eqb_eq.
  - now apply Z.eqb_eq.
Qed.

(** Rounding a value that a float of the format holds gives that float. *)
Lemma binary_round_aux_exact (s : bool) (c : positive) (ec j : Z) :
  bounded prec emax c ec = true -> 0 <= j ->
  binary_round_aux prec emax s (Zpos c * 2 ^ j) (ec - j) loc_Exact
  = S754_finite s c ec.
Proof using Type.
  intros B Hj. apply bounded_iff in B. destruct B as [Hc He].
  assert (P : 0 < 2 ^ j) by (apply Z.pow_pos_nonneg; lia).
  unfold binary_round_aux, shr_fexp. rewrite fexp_spec, (digits_shift c j Hj).
  replace (Zpos (digits2_pos c) + j + (ec - j) - prec)
    with (Zpos (digits2_pos c) + ec - prec) by lia.
  rewrite Hc. replace (ec - (ec - j)) with j by lia.
  pose proof (shr_spec (shr_record_of_loc (Zpos c * 2 ^ j) loc_Exact) (ec - j) j)
    as S0.
  rewrite shr_record_of_loc_m, shr_record_of_loc_inexact in S0.
  specialize (S0 ltac:(lia)). cbv zeta in S0.
  replace (Z.max j 0) with j in S0 by lia.
  rewrite Z.div_mul, Z.mod_mul in S0 by lia.
  destruct (shr (shr_record_of_loc (Zpos c * 2 ^ j) loc_Exact) (ec - j) j)
    as [mrs e'].
  cbn [fst snd] in S0. destruct S0 as (E1 & E2 & E3).
  cbn [orb negb Z.eqb] in E3.
  pose proof (round_nearest_even_spec mrs) as [_ R]. cbv zeta in R.
  rewrite (R E3), E2. subst e'. replace (ec - j + j) with ec by lia.
  rewrite fexp_spec. change (Zdigits2 (Zpos c)) with (Zpos (digits2_pos c)).
  rewrite Hc, Z.sub_diag.
  cbn [shr shr_record_of_loc shr_m].
  replace (ec <=? emax - prec) with true by (symmetry; apply Z.leb_le; lia).
  reflexivity.
Qed.

(** [binary_round] of a number that the float [(c, ec)] holds. *)
Lemma binary_round_exact (s : bool) (q : positive) (e : Z) (c : positive) (ec : Z) :
  bounded prec emax c ec = true ->
  Zpos q * 2 ^ (e - Z.min e ec) = Zpos c * 2 ^ (ec - Z.min e ec) ->
  binary_round prec emax s q e = S754_finite s c ec.
Proof using Type.
  intros B V. pose proof B as B'. apply bounded_iff in B'. destruct B' as [Hc He].
  unfold binary_round. rewrite fexp_spec.
  assert (D : Zpos (digits2_pos q) + e = Zpos (digits2_pos c) + ec).
  { pose proof (digits_shift q (e - Z.min e ec) ltac:(lia)) as Dq.
    pose proof (digits_shift c (ec - Z.min e ec) ltac:(lia)) as Dc.
    rewrite V, Dc in Dq. lia. }
  rewrite D, Hc.
  destruct (shl_align_spec q e ec) as (E1 & E2 & _).
  destruct (shl_align q e ec) as [mz ez]. cbn [fst snd] in E1, E2.
  subst ez. rewrite E2.
  destruct (Z_le_gt_dec ec e) as [L|G].
  - replace (Z.min e ec) with ec in * by lia.
    rewrite Z.sub_diag, Z.pow_0_r, Z.mul_1_r in V. rewrite V.
    pose proof (binary_round_aux_exact s c ec 0 B ltac:(lia)) as R.
    rewrite Z.pow_0_r, Z.mul_1_r, Z.sub_0_r in R. exact R.
  - replace (Z.min e ec) with e in * by lia.
    rewrite Z.sub_diag, Z.pow_0_r, Z.mul_1_r in V |- *. rewrite V.
    pose proof (binary_round_aux_exact s c ec (ec - e) B ltac:(lia)) as R.
    replace (ec - (ec - e)) with e in R by lia. exact R.
Qed.

(** The float of a whole number below [2^prec]: a mantissa of [prec]
    digits that is the number shifted to the left, whatever the sign. *)
Lemma int_shape (p : positive) :
  Zpos p < 2 ^ prec ->
  exists c ec,
    (forall s, binary_normalize prec emax (cond_Zopp s (Zpos p)) 0 false
               = S754_finite s c ec)
    /\ bounded prec emax c ec = true
    /\ Zpos (digits2_pos c) = prec
    /\ ec = Zpos (digits2_pos p) - prec
    /\ 1 - prec <= ec <= 0
    /\ Zpos c = Zpos p * 2 ^ (- ec).
Proof using Hprec Hemax.
  intros Hp.
  assert (Dp : Zpos (digits2_pos p) <= prec).
  { apply (Zdigits2_le (Zpos p) prec); lia. }
  pose proof (digits2_pos_bounds p) as Bp.
  assert (D1 : 1 <= Zpos (digits2_pos p)) by lia.
  set (ec := Zpos (digits2_pos p) - prec).
  destruct (shl_align_spec p 0 ec) as (E1 & E2 & E3).
  set (c := fst (shl_align p 0 ec)) in *.
  replace (Z.min 0 ec) with ec in * by (unfold ec; lia).
  replace (0 - ec) with (- ec) in * by lia.
  assert (Dc : Zpos (digits2_pos c) = prec) by (rewrite E3; unfold ec; lia).
  assert (B : bounded prec emax c ec = true).
  { apply bounded_iff. rewrite Dc. unfold ec. lia. }
  exists c, ec.
  split; [|split; [exact B | split; [exact Dc | split; [reflexivity |
           split; [unfold ec; lia | exact E2]]]]].
  intros s.
  assert (R : binary_round prec emax s p 0 = S754_finite s c ec).
  { apply binary_round_exact; [exact B|].
    replace (Z.min 0 ec) with ec by (unfold ec; lia).
    rewrite Z.sub_diag, Z.pow_0_r, Z.mul_1_r. rewrite E2.
    f_equal. }
  destruct s; exact R.
Qed.

(** Normalisation depends on the number only. *)
Lemma normalize_exact (n k : Z) :
  Z.abs n < 2 ^ prec -> 0 <= k ->
  binary_normalize prec emax (n * 2 ^ k) (- k) false
  = binary_normalize prec emax n 0 false.
Proof using Hprec Hemax.
  intros Hn Hk.
  assert (P : 0 < 2 ^ k) by (apply Z.pow_pos_nonneg; lia).
  destruct n as [|p|p].
  - reflexivity.
  - destruct (int_shape p ltac:(lia)) as (c & ec & S0 & B & _ & _ & He & V).
    pose proof (S0 false) as Sf. cbn [cond_Zopp] in Sf. rewrite Sf.
    destruct (Zpos p * 2 ^ k) as [|q|q] eqn:Q; try lia.
    cbn [binary_normalize]. apply binary_round_exact; [exact B|].
    rewrite <- Q, V, <- !Z.mul_assoc, <- !Z.pow_add_r by lia.
    f_equal. f_equal. lia.
  - destruct (int_shape p ltac:(lia)) as (c & ec & S0 & B & _ & _ & He & V).
    pose proof (S0 true) as Sf. cbn [cond_Zopp Z.opp] in Sf. rewrite Sf.
    destruct (Zneg p * 2 ^ k) as [|q|q] eqn:Q; try lia.
    cbn [binary_normalize]. apply binary_round_exact; [exact B|].
    assert (Q' : Zpos q = Zpos p * 2 ^ k) by lia.
    rewrite Q', V, <- !Z.mul_assoc, <- !Z.pow_add_r by lia.
    f_equal. f_equal. lia.
Qed.

(** A quotient that the format holds is computed exactly. *)
Lemma SFdiv_exact (s1 s2 : bool) (c1 c2 c : positive) (e1 e2 ec : Z) :
  bounded prec emax c ec = true ->
  let e' := Z.min (fexp prec emax (Zpos (digits2_pos c1) + e1
                                   - (Zpos (digits2_pos c2) + e2)))
                  (e1 - e2) in
  e' <= ec ->
  Zpos c1 * 2 ^ (e1 - e2 - e') = Zpos c * 2 ^ (ec - e') * Zpos c2 ->
  SFdiv prec emax (S754_finite s1 c1 e1) (S754_finite s2 c2 e2)
  = S754_finite (xorb s1 s2) c ec.
Proof using Type.
  intros B e' Le V. unfold SFdiv, SFdiv_core_binary.
  change (Zdigits2 (Zpos c1)) with (Zpos (digits2_pos c1)).
  change (Zdigits2 (Zpos c2)) with (Zpos (digits2_pos c2)).
  cbv zeta. fold e'.
  set (sh := e1 - e2 - e') in *.
  assert (Hsh : 0 <= sh) by (unfold sh, e'; lia).
  set (m' := match sh with
             | 0 => Zpos c1
             | Zpos _ => Z.shiftl (Zpos c1) sh
             | Zneg _ => 0
             end).
  assert (Hm' : m' = Zpos c1 * 2 ^ sh).
  { unfold m'. destruct sh as [|k|k]; [rewrite Z.pow_0_r; lia | | lia].
    apply Z.shiftl_mul_pow2. lia. }
  pose proof (Z_div_mod m' (Zpos c2) ltac:(lia)) as DM.
  destruct (Z.div_eucl m' (Zpos c2)) as [q r].
  assert (P : 0 < 2 ^ (ec - e')) by (apply Z.pow_pos_nonneg; lia).
  assert (Q : q = Zpos c * 2 ^ (ec - e') /\ r = 0).
  { rewrite Hm', V in DM. destruct DM as [D1 D2].
    assert (Zpos c2 * (Zpos c * 2 ^ (ec - e') - q) = r) by lia.
    assert (Zpos c * 2 ^ (ec - e') - q = 0) by nia. lia. }
  destruct Q as [-> ->].
  replace (new_location (Zpos c2) 0) with loc_Exact
    by (symmetry; now apply new_location_exact).
  pose proof (binary_round_aux_exact (xorb s1 s2) c ec (ec - e') B ltac:(lia)) as R.
  replace (ec - (ec - e')) with e' in R by lia. exact R.
Qed.

End Rounding.

Section Exact.

Lemma bounded_spec (c : positive) (ec : Z) :
  bounded prec64 emax64 c ec = true
  <-> Z.max (Zpos (digits2_pos c) + ec - 53) (-1074) = ec /\ ec <= 971.
Proof. apply (bounded_iff prec64 emax64). Qed.

Lemma double_of_int_shape (p : positive) :
  Zpos p < 2 ^ 53 ->
  exists c ec,
    (forall s, double_of_int (cond_Zopp s (Zpos p)) = S754_finite s c ec)
    /\ bounded prec64 emax64 c ec = true
    /\ Zpos (digits2_pos c) = 53
    /\ -52 <= ec <= 0
    /\ Zpos c = Zpos p * 2 ^ (- ec).
Proof.
  intros Hp.
  destruct (int_shape prec64 emax64 eq_refl eq_refl p Hp)
    as (c & ec & S0 & B & D & _ & E & V).
  exists c, ec. unfold prec64 in E. repeat split; try assumption; lia.
Qed.

Lemma normalize_int (n k : Z) :
  Z.abs n < 2 ^ 53 -> 0 <= k ->
  binary_normalize prec64 emax64 (n * 2 ^ k) (- k) false = double_of_int n.
Proof.
  apply (normalize_exact prec64 emax64); reflexivity.
Qed.

Lemma cond_Zopp_mul (s : bool) (x k : Z) : cond_Zopp s (x * k) = cond_Zopp s x * k.
Proof. destruct s; simpl; lia. Qed.

Lemma cond_Zopp_abs (s : bool) (p : positive) :
  Z.abs (cond_Zopp s (Zpos p)) = Zpos p.
Proof. now destruct s. Qed.

(** The aligned mantissa of the double of [p], as [SFadd] and [SFsub]
    build it. *)
Lemma aligned_int (s : bool) (p c : positive) (ec ez : Z) :
  Zpos c = Zpos p * 2 ^ (- ec) -> ez <= ec <= 0 ->
  cond_Zopp s (Zpos (fst (shl_align c ec ez)))
  = cond_Zopp s (Zpos p) * 2 ^ (- ez).
Proof.
  intros V H. destruct (shl_align_spec c ec ez) as (_ & E & _).
  rewrite E, V. replace (Z.min ec ez) with ez by lia.
  rewrite <- Z.mul_assoc, <- Z.pow_add_r by lia.
  replace (- ec + (ec - ez)) with (- ez) by lia.
  apply cond_Zopp_mul.
Qed.

Lemma dadd_finite (sa sb : bool) (pa pb : positive) :
  Zpos pa < 2 ^ 52 -> Zpos pb < 2 ^ 52 ->
  dadd (double_of_int (cond_Zopp sa (Zpos pa)))
       (double_of_int (cond_Zopp sb (Zpos pb)))
  = double_of_int (cond_Zopp sa (Zpos pa) + cond_Zopp sb (Zpos pb)).
Proof.
  intros Ha Hb.
  destruct (double_of_int_shape pa ltac:(lia)) as (ca & ea & Sa & _ & _ & Ea & Va).
  destruct (double_of_int_shape pb ltac:(lia)) as (cb & eb & Sb & _ & _ & Eb & Vb).
  rewrite (Sa sa), (Sb sb). unfold dadd, SFadd. cbv zeta.
  rewrite (aligned_int sa pa ca ea (Z.min ea eb) Va ltac:(lia)).
  rewrite (aligned_int sb pb cb eb (Z.min ea eb) Vb ltac:(lia)).
  rewrite <- Z.mul_add_distr_r.
  pose proof (cond_Zopp_abs sa pa). pose proof (cond_Zopp_abs sb pb).
  pose proof (normalize_int (cond_Zopp sa (Zpos pa) + cond_Zopp sb (Zpos pb))
                (- Z.min ea eb) ltac:(lia) ltac:(lia)) as N.
  rewrite Z.opp_involutive in N. exact N.
Qed.

Lemma dsub_finite (sa sb : bool) (pa pb : positive) :
  Zpos pa < 2 ^ 52 -> Zpos pb < 2 ^ 52 ->
  dsub (double_of_int (cond_Zopp sa (Zpos pa)))
       (double_of_int (cond_Zopp sb (Zpos pb)))
  = double_of_int (cond_Zopp sa (Zpos pa) - cond_Zopp sb (Zpos pb)).
Proof.
  intros Ha Hb.
  destruct (double_of_int_shape pa ltac:(lia)) as (ca & ea & Sa & _ & _ & Ea & Va).
  destruct (double_of_int_shape pb ltac:(lia)) as (cb & eb & Sb & _ & _ & Eb & Vb).
  rewrite (Sa sa), (Sb sb). unfold dsub, SFsub. cbv zeta.
  rewrite (aligned_int sa pa ca ea (Z.min ea eb) Va ltac:(lia)).
  rewrite (aligned_int sb pb cb eb (Z.min ea eb) Vb ltac:(lia)).
  rewrite <- Z.mul_sub_distr_r.
  pose proof (cond_Zopp_abs sa pa). pose proof (cond_Zopp_abs sb pb).
  pose proof (normalize_int (cond_Zopp sa (Zpos pa) - cond_Zopp sb (Zpos pb))
                (- Z.min ea eb) ltac:(lia) ltac:(lia)) as N.
  rewrite Z.opp_involutive in N. exact N.
Qed.

Lemma double_of_int_cases (n : Z) :
  Z.abs n < 2 ^ 53 ->
  double_of_int n = S754_zero false
  \/ exists s c ec, double_of_int n = S754_finite s c ec.
Proof.
  intros Hn. destruct n as [|p|p]; [now left | right | right];
    destruct (double_of_int_shape p ltac:(lia)) as (c & ec & S0 & _).
  - exists false, c, ec. exact (S0 false).
  - exists true, c, ec. exact (S0 true).
Qed.

(** Sums and differences of whole numbers are exact. *)
Lemma dadd_int (a b : Z) :
  Z.abs a < 2 ^ 52 -> Z.abs b < 2 ^ 52 ->
  dadd (double_of_int a) (double_of_int b) = double_of_int (a + b).
Proof.
  intros Ha Hb.
  destruct (Z.eq_dec a 0) as [->|Na].
  { rewrite Z.add_0_l.
    destruct (double_of_int_cases b ltac:(lia)) as [-> | (s & c & ec & ->)];
      reflexivity. }
  destruct (Z.eq_dec b 0) as [->|Nb].
  { rewrite Z.add_0_r.
    destruct (double_of_int_cases a ltac:(lia)) as [-> | (s & c & ec & ->)];
      reflexivity. }
  destruct a as [|pa|pa], b as [|pb|pb]; try contradiction.
  - apply (dadd_finite false false pa pb); lia.
  - apply (dadd_finite false true pa pb); lia.
  - apply (dadd_finite true false pa pb); lia.
  - apply (dadd_finite true true pa pb); lia.
Qed.

Lemma dsub_int (a b : Z) :
  Z.abs a < 2 ^ 52 -> Z.abs b < 2 ^ 52 ->
  dsub (double_of_int a) (double_of_int b) = double_of_int (a - b).
Proof.
  intros Ha Hb.
  destruct (Z.eq_dec b 0) as [->|Nb].
  { rewrite Z.sub_0_r.
    destruct (double_of_int_cases a ltac:(lia)) as [-> | (s & c & ec & ->)];
      reflexivity. }
  destruct (Z.eq_dec a 0) as [->|Na].
  { destruct b as [|p|p]; [contradiction | |];
      destruct (double_of_int_shape p ltac:(lia)) as (c & ec & S0 & _).
    - pose proof (S0 false) as Sf. pose proof (S0 true) as St.
      cbn [cond_Zopp Z.opp] in Sf, St. cbn [Z.sub Z.opp Z.add].
      rewrite Sf, St. reflexivity.
    - pose proof (S0 false) as Sf. pose proof (S0 true) as St.
      cbn [cond_Zopp Z.opp] in Sf, St. cbn [Z.sub Z.opp Z.add].
      rewrite Sf, St. reflexivity. }
  destruct a as [|pa|pa], b as [|pb|pb]; try contradiction.
  - apply (dsub_finite false false pa pb); lia.
  - apply (dsub_finite false true pa pb); lia.
  - apply (dsub_finite true false pa pb); lia.
  - apply (dsub_finite true true pa pb); lia.
Qed.

Lemma done_shape : done = S754_finite false 4503599627370496 (-52).
Proof. reflexivity. Qed.

(** Division by 1.0 gives the number back, for every double. *)
Lemma ddiv_one (x : qreal) : is_double x = true -> ddiv x done = x.
Proof.
  rewrite done_shape.
  destruct x as [s|s| |s c ec]; try (destruct s; reflexivity); try reflexivity.
  unfold is_double, valid_binary. intros B.
  pose proof B as B'. apply bounded_spec in B'. destruct B' as [Hc He].
  unfold ddiv, SFdiv.
  destruct (SFdiv_core_spec c ec 4503599627370496 (-52))
    as (q & r & l & -> & V & Hr & Hl).
  change (Zpos (digits2_pos 4503599627370496)) with 53 in *.
  assert (D1 : 1 <= Zpos (digits2_pos c)) by lia.
  set (e' := Z.min (Z.max (Zpos (digits2_pos c) + ec - (53 + -52) - 53) (-1074))
                   (ec - -52)) in *.
  set (j := ec - e').
  assert (Hj : 0 <= j <= 1) by (unfold j, e'; lia).
  replace (ec - -52 - e') with (52 + j) in V by (unfold j; lia).
  rewrite Z.pow_add_r in V by lia.
  assert (P : 0 < 2 ^ j) by (apply Z.pow_pos_nonneg; lia).
  change (2 ^ 52) with 4503599627370496 in V.
  assert (Q : q = Zpos c * 2 ^ j /\ r = 0) by nia.
  destruct Q as [-> ->].
  assert (L : l = loc_Exact) by now apply Hl.
  rewrite L. replace e' with (ec - j) by (unfold j; lia).
  rewrite xorb_false_r. apply binary_round_aux_exact; [exact B | lia].
Qed.

Lemma is_double_int (n : Z) : Z.abs n < 2 ^ 53 -> is_double (double_of_int n) = true.
Proof.
  intros Hn. destruct n as [|p|p]; [reflexivity | |];
    destruct (double_of_int_shape p ltac:(lia)) as (c & ec & S0 & B & _).
  - pose proof (S0 false) as Sf. cbn [cond_Zopp] in Sf. rewrite Sf. exact B.
  - pose proof (S0 true) as Sf. cbn [cond_Zopp Z.opp] in Sf. rewrite Sf. exact B.
Qed.

Lemma shifted_less (a b K M ca cb : Z) :
  0 < a -> 0 < K -> 2 <= M ->
  ca = a * (K * M) -> cb = b * K ->
  ca < 9007199254740992 -> 4503599627370496 <= cb ->
  a < b.
Proof.
  intros Ha HK HM Va Vb Ca Cb.
  destruct (Z_lt_le_dec a b) as [L|L]; [exact L | exfalso].
  assert (H1 : b * K <= a * K) by (apply Z.mul_le_mono_nonneg_r; lia).
  assert (H2 : (a * K) * 2 <= (a * K) * M) by (apply Z.mul_le_mono_nonneg_l; nia).
  rewrite Z.mul_assoc in Va. lia.
Qed.

(** Doubles of whole numbers compare as the numbers do. *)
Lemma compare_shapes (pa pb ca cb : positive) (ea eb : Z) :
  Zpos (digits2_pos ca) = 53 -> Zpos (digits2_pos cb) = 53 ->
  ea <= 0 -> eb <= 0 ->
  Zpos ca = Zpos pa * 2 ^ (- ea) -> Zpos cb = Zpos pb * 2 ^ (- eb) ->
  match ea ?= eb with
  | Eq => Pos.compare_cont Eq ca cb
  | Lt => Lt
  | Gt => Gt
  end = (Zpos pa ?= Zpos pb).
Proof.
  intros Da Db Ea Eb Va Vb.
  pose proof (digits2_pos_bounds ca) as Ba. rewrite Da in Ba.
  pose proof (digits2_pos_bounds cb) as Bb. rewrite Db in Bb.
  change (2 ^ (53 - 1)) with 4503599627370496 in *.
  change (2 ^ 53) with 9007199254740992 in *.
  destruct (Z.compare_spec ea eb) as [E|E|E].
  - subst eb. rewrite Pos.compare_cont_spec. cbn [Pos.switch_Eq].
    change ((ca ?= cb)%positive) with (Zpos ca ?= Zpos cb).
    assert (P : 0 < 2 ^ (- ea)) by (apply Z.pow_pos_nonneg; lia).
    destruct (Z.compare_spec (Zpos ca) (Zpos cb)) as [C|C|C];
      destruct (Z.compare_spec (Zpos pa) (Zpos pb)) as [C'|C'|C'];
      try reflexivity; nia.
  - symmetry. apply Z.compare_lt_iff.
    assert (P : 0 < 2 ^ (- eb)) by (apply Z.pow_pos_nonneg; lia).
    assert (M : 2 <= 2 ^ (eb - ea)).
    { change 2 with (2 ^ 1) at 1. apply Z.pow_le_mono_r; lia. }
    replace (- ea) with (- eb + (eb - ea)) in Va by lia.
    rewrite Z.pow_add_r in Va by lia.
    apply (shifted_less (Zpos pa) (Zpos pb) (2 ^ (- eb)) (2 ^ (eb - ea))
                        (Zpos ca) (Zpos cb)); lia.
  - symmetry. apply Z.compare_gt_iff.
    assert (P : 0 < 2 ^ (- ea)) by (apply Z.pow_pos_nonneg; lia).
    assert (M : 2 <= 2 ^ (ea - eb)).
    { change 2 with (2 ^ 1) at 1. apply Z.pow_le_mono_r; lia. }
    replace (- eb) with (- ea + (ea - eb)) in Vb by lia.
    rewrite Z.pow_add_r in Vb by lia.
    apply (shifted_less (Zpos pb) (Zpos pa) (2 ^ (- ea)) (2 ^ (ea - eb))
                        (Zpos cb) (Zpos ca)); lia.
Qed.

Lemma SFcompare_int (a b : Z) :
  Z.abs a < 2 ^ 53 -> Z.abs b < 2 ^ 53 ->
  SFcompare (double_of_int a) (double_of_int b) = Some (a ?= b).
Proof.
  intros Ha Hb.
  destruct a as [|pa|pa], b as [|pb|pb]; try reflexivity;
    try (destruct (double_of_int_shape pa ltac:(lia))
           as (ca & ea & Sa & _ & Da & Ea & Va);
         pose proof (Sa false) as Saf; pose proof (Sa true) as Sat;
         cbn [cond_Zopp Z.opp] in Saf, Sat; rewrite ?Saf, ?Sat);
    try (destruct (double_of_int_shape pb ltac:(lia))
           as (cb & eb & Sb & _ & Db & Eb & Vb);
         pose proof (Sb false) as Sbf; pose proof (Sb true) as Sbt;
         cbn [cond_Zopp Z.opp] in Sbf, Sbt; rewrite ?Sbf, ?Sbt);
    try reflexivity.
  - cbn [SFcompare]. f_equal.
    apply (compare_shapes pa pb ca cb ea eb); (assumption || lia).
  - cbn [SFcompare]. f_equal.
    pose proof (compare_shapes pa pb ca cb ea eb Da Db ltac:(lia) ltac:(lia) Va Vb)
      as C.
    change (Zneg pa ?= Zneg pb) with (CompOpp (Zpos pa ?= Zpos pb)).
    rewrite <- C. destruct (ea ?= eb); reflexivity.
Qed.

Lemma dltb_int (a b : Z) :
  Z.abs a < 2 ^ 53 -> Z.abs b < 2 ^ 53 ->
  dltb (double_of_int a) (double_of_int b) = (a <? b).
Proof.
  intros Ha Hb. unfold dltb, SFltb, Z.ltb. rewrite (SFcompare_int a b Ha Hb).
  now destruct (a ?= b).
Qed.

Lemma dleb_int (a b : Z) :
  Z.abs a < 2 ^ 53 -> Z.abs b < 2 ^ 53 ->
  dleb (double_of_int a) (double_of_int b) = (a <=? b).
Proof.
  intros Ha Hb. unfold dleb, SFleb, Z.leb. rewrite (SFcompare_int a b Ha Hb).
  now destruct (a ?= b).
Qed.

Lemma deqb_int (a b : Z) :
  Z.abs a < 2 ^ 53 -> Z.abs b < 2 ^ 53 ->
  deqb (double_of_int a) (double_of_int b) = (a =? b).
Proof.
  intros Ha Hb. unfold deqb, SFeqb, Z.eqb. rewrite (SFcompare_int a b Ha Hb).
  change (match a with 0 => match b with 0 => true | _ => false end
          | Zpos p => match b with Zpos q => Pos.eqb p q | _ => false end
          | Zneg p => match b with Zneg q => Pos.eqb p q | _ => false end end)
    with (a =? b).
  destruct (Z.compare_spec a b) as [E|E|E]; symmetry.
  - now apply Z.eqb_eq.
  - apply Z.eqb_neq. lia.
  - apply Z.eqb_neq. lia.
Qed.

(** The double of a whole number, as a signed mantissa over a power of two. *)
Lemma double_of_int_value (n : Z) :
  n <> 0 -> Z.abs n < 2 ^ 53 ->
  exists s c ec,
    double_of_int n = S754_finite s c ec
    /\ -52 <= ec <= 0
    /\ cond_Zopp s (Zpos c) = n * 2 ^ (- ec)
    /\ Zpos c = Z.abs n * 2 ^ (- ec).
Proof.
  intros N Hn. destruct n as [|p|p]; [contradiction | |];
    destruct (double_of_int_shape p ltac:(lia)) as (c & ec & S0 & _ & _ & E & V).
  - exists false, c, ec. split; [exact (S0 false)|]. split; [exact E|].
    split; exact V.
  - exists true, c, ec. split; [exact (S0 true)|]. split; [exact E|].
    split; [|exact V]. cbn [cond_Zopp]. rewrite V. lia.
Qed.

Lemma dfloor_int (n : Z) : Z.abs n < 2 ^ 53 -> dfloor (double_of_int n) = n.
Proof.
  intros Hn. destruct (Z.eq_dec n 0) as [->|N]; [reflexivity|].
  destruct (double_of_int_value n N Hn) as (s & c & ec & -> & E & V & _).
  unfold dfloor. cbv zeta. rewrite V.
  assert (P : 0 < 2 ^ (- ec)) by (apply Z.pow_pos_nonneg; lia).
  destruct (Z.leb_spec 0 ec) as [L|L].
  - replace ec with 0 by lia. simpl. lia.
  - apply Z.div_mul. lia.
Qed.

Lemma dceil_int (n : Z) : Z.abs n < 2 ^ 53 -> dceil (double_of_int n) = n.
Proof.
  intros Hn. destruct (Z.eq_dec n 0) as [->|N]; [reflexivity|].
  destruct (double_of_int_value n N Hn) as (s & c & ec & -> & E & V & _).
  unfold dceil. cbv zeta. rewrite V.
  assert (P : 0 < 2 ^ (- ec)) by (apply Z.pow_pos_nonneg; lia).
  destruct (Z.leb_spec 0 ec) as [L|L].
  - replace ec with 0 by lia. simpl. lia.
  - rewrite <- Z.mul_opp_l, Z.div_mul by lia. lia.
Qed.

Lemma int_of_longlong_small (n : Z) :
  - INT_MAX - 1 <= n <= INT_MAX -> int_of_longlong n = n.
Proof.
  unfold INT_MAX, int_of_longlong. intros H.
  rewrite Z.mod_small; lia.
Qed.

(** [toInt] gives a whole number in the range of [int] back. *)
Lemma toInt_int (n : Z) :
  - INT_MAX - 1 <= n <= INT_MAX -> toInt (double_of_int n) = n.
Proof.
  intros H. unfold toInt.
  assert (Hn : Z.abs n < 2 ^ 53) by (unfold INT_MAX in H; lia).
  assert (L : llround (double_of_int n) = n).
  { destruct (Z.eq_dec n 0) as [->|N]; [reflexivity|].
    destruct (double_of_int_value n N Hn) as (s & c & ec & -> & E & V & A).
    unfold llround. cbv zeta.
    assert (P : 0 < 2 ^ (- ec)) by (apply Z.pow_pos_nonneg; lia).
    assert (R : round_half_away c ec = Z.abs n).
    { unfold round_half_away. destruct (Z.leb_spec 0 ec) as [L|L].
      - rewrite A. replace ec with 0 by lia. simpl. lia.
      - rewrite A, Z.pow_add_r by lia.
        replace (2 * (Z.abs n * 2 ^ (- ec)) + 2 ^ (- ec))
          with ((2 * Z.abs n + 1) * 2 ^ (- ec)) by lia.
        rewrite Z.pow_1_r, Z.mul_comm with (n := 2 ^ (- ec)) (m := 2).
        rewrite Z.div_mul_cancel_r by lia.
        symmetry. apply Z.div_unique with (r := 1); lia. }
    rewrite R.
    assert (S0 : cond_Zopp s (Z.abs n) = n).
    { assert (K : cond_Zopp s (Zpos c) = cond_Zopp s (Z.abs n) * 2 ^ (- ec))
        by (rewrite A; apply cond_Zopp_mul).
      rewrite V in K. nia. }
    rewrite S0. unfold INT_MAX, LLONG_MIN, LLONG_MAX in *.
    destruct (Z.leb_spec (- 2 ^ 63) n); [|lia].
    destruct (Z.leb_spec n (2 ^ 63 - 1)); [reflexivity | lia]. }
  rewrite L. now apply int_of_longlong_small.
Qed.

End Exact.

(** ** Desktops without scaling *)

Section Unscaled.

Lemma qMin_int (a b : Z) :
  Z.abs a < 2 ^ 53 -> Z.abs b < 2 ^ 53 ->
  qMin (double_of_int a) (double_of_int b) = double_of_int (Z.min a b).
Proof.
  intros Ha Hb. unfold qMin. rewrite (dltb_int a b Ha Hb).
  destruct (Z.ltb_spec a b); f_equal; lia.
Qed.

Lemma qMax_int (a b : Z) :
  Z.abs a < 2 ^ 53 -> Z.abs b < 2 ^ 53 ->
  qMax (double_of_int a) (double_of_int b) = double_of_int (Z.max a b).
Proof.
  intros Ha Hb. unfold qMax. rewrite (dltb_int a b Ha Hb).
  destruct (Z.ltb_spec a b); f_equal; lia.
Qed.

(** One axis of the union of two rectangles of positive extent. *)
Lemma span_int (p s rp rs : Z) :
  Z.abs p < 2 ^ 31 -> Z.abs rp < 2 ^ 31 ->
  0 < s < 2 ^ 32 -> 0 < rs < 2 ^ 32 ->
  RectF.span (double_of_int p) (double_of_int s)
             (double_of_int rp) (double_of_int rs)
  = (double_of_int (Z.min p rp), double_of_int (Z.max (p + s) (rp + rs))).
Proof.
  intros Hp Hrp Hs Hrs. unfold RectF.span.
  change dzero with (double_of_int 0).
  rewrite (dltb_int s 0), (dltb_int rs 0) by lia.
  destruct (Z.ltb_spec s 0); [lia|]. destruct (Z.ltb_spec rs 0); [lia|].
  rewrite !dadd_int by lia.
  rewrite qMin_int, qMax_int by lia. reflexivity.
Qed.

Lemma small_proper (r : QRect) : small r -> proper r.
Proof. unfold small, proper. lia. Qed.

Lemma isNull_toRectF (r : QRect) : small r -> RectF.isNull (toRectF r) = false.
Proof.
  intros S. unfold RectF.isNull, toRectF. cbn [w h].
  change dzero with (double_of_int 0).
  unfold small, Rect.width, Rect.height in *.
  rewrite (deqb_int (x2 r - x1 r + 1) 0) by lia.
  destruct (Z.eqb_spec (x2 r - x1 r + 1) 0); [lia | reflexivity].
Qed.

Lemma united_small (a r : QRect) : small a -> small r -> small (Rect.united a r).
Proof.
  intros Sa Sr.
  rewrite (united_proper a r (small_proper a Sa) (small_proper r Sr)).
  unfold small in *. cbn [x1 y1 x2 y2]. lia.
Qed.

(** On such rectangles [QRectF::united] computes what [QRect::united]
    does. *)
Lemma united_toRectF (a r : QRect) :
  small a -> small r ->
  RectF.united (toRectF a) (toRectF r) = toRectF (Rect.united a r).
Proof.
  intros Sa Sr. unfold RectF.united.
  rewrite (isNull_toRectF a Sa), (isNull_toRectF r Sr).
  rewrite (united_proper a r (small_proper a Sa) (small_proper r Sr)).
  unfold toRectF, Rect.x, Rect.y, Rect.width, Rect.height, small in *.
  cbn [xp yp w h x1 y1 x2 y2].
  rewrite !span_int by lia.
  rewrite !dsub_int by lia.
  f_equal; f_equal; lia.
Qed.

Lemma logicalRect_unscaled (s : QScreen) :
  unscaledScreen s -> logicalRect s = toRectF (geometry s).
Proof.
  intros [S D]. unfold logicalRect, toRectF. rewrite D.
  unfold small, Rect.x, Rect.y, Rect.width, Rect.height in *.
  rewrite !ddiv_one by (apply is_double_int; lia). reflexivity.
Qed.

Lemma fold_united_toRectF (l : list QScreen) : forall a,
  small a -> Forall unscaledScreen l ->
  fold_left (fun geo s => RectF.united geo (logicalRect s)) l (toRectF a)
  = toRectF (fold_left (fun geo s => Rect.united geo (geometry s)) l a).
Proof.
  induction l as [|s l IH]; intros a Sa H; [reflexivity|].
  inversion H as [|? ? Hs Hl]; subst. cbn [fold_left].
  rewrite (logicalRect_unscaled s Hs), (united_toRectF a (geometry s) Sa (proj1 Hs)).
  apply IH; [|exact Hl]. apply united_small; [exact Sa | exact (proj1 Hs)].
Qed.

Lemma toAlignedRect_toRectF (r : QRect) :
  small r -> RectF.toAlignedRect (toRectF r) = r.
Proof.
  intros S. unfold RectF.toAlignedRect, toRectF. cbn [xp yp w h].
  unfold small, Rect.x, Rect.y, Rect.width, Rect.height in *.
  rewrite !dadd_int by lia. rewrite !dfloor_int, !dceil_int by lia.
  destruct r as [a b c d]. unfold Rect.make. cbn [x1 y1 x2 y2] in *.
  f_equal; lia.
Qed.

Lemma fold_united_small (l : list QScreen) : forall a,
  small a -> Forall unscaledScreen l ->
  small (fold_left (fun geo s => Rect.united geo (geometry s)) l a).
Proof.
  induction l as [|s l IH]; intros a Sa H; [exact Sa|].
  inversion H as [|? ? Hs Hl]; subst. cbn [fold_left].
  apply IH; [|exact Hl]. apply united_small; [exact Sa | exact (proj1 Hs)].
Qed.

(** The two loops over the screens agree when no screen is scaled. *)
Lemma unscaled_unions (l : list QScreen) :
  Forall unscaledScreen l ->
  RectF.toAlignedRect (screensLogicalUnion l) = screensUnion l.
Proof.
  intros H. destruct l as [|s l]; [reflexivity|].
  inversion H as [|? ? Hs Hl]; subst.
  unfold screensLogicalUnion, screensUnion. cbn [fold_left].
  rewrite united_null_l.
  change (RectF.united RectF.null (logicalRect s)) with (logicalRect s).
  rewrite (logicalRect_unscaled s Hs).
  rewrite (fold_united_toRectF l (geometry s) (proj1 Hs) Hl).
  apply toAlignedRect_toRectF.
  exact (fold_united_small l (geometry s) (proj1 Hs) Hl).
Qed.

(** An entry at scale 1.0 adds the same rectangle to both unions. *)
Lemma monitorEntry_unscaled (p : QRect) (g : bool) (v : QJsonValue) :
  unscaledMonitor v ->
  exists p' g', monitorEntry (p, p, g) v = (p', p', g').
Proof.
  intros U. destruct v; try (exists p, g; reflexivity).
  destruct U as (Sc & X & Y & Wd & Ht).
  cbn [monitorEntry]. rewrite Sc.
  rewrite !ddiv_one by assumption.
  destruct (_ || _); eexists; eexists; reflexivity.
Qed.

Lemma fold_monitorEntry_unscaled (items : list QJsonValue) : forall p g,
  Forall unscaledMonitor items ->
  exists p' g', fold_left monitorEntry items (p, p, g) = (p', p', g').
Proof.
  induction items as [|v items IH]; intros p g H.
  - exists p, g. reflexivity.
  - inversion H as [|? ? Hv Hi]; subst. cbn [fold_left].
    destruct (monitorEntry_unscaled p g v Hv) as (p' & g' & ->).
    apply IH, Hi.
Qed.

End Unscaled.

(** ** The ratio of two heights *)

Section Ratio.

Lemma fone_shape : fone = S754_finite false 8388608 (-23).
Proof. reflexivity. Qed.

Lemma float_of_int_shape (p : positive) :
  Zpos p < 2 ^ 24 ->
  exists c ec,
    float_of_int (Zpos p) = S754_finite false c ec
    /\ bounded prec32 emax32 c ec = true
    /\ Zpos (digits2_pos c) = 24
    /\ ec = Zpos (digits2_pos p) - 24
    /\ -23 <= ec <= 0
    /\ Zpos c = Zpos p * 2 ^ (- ec).
Proof.
  intros Hp.
  destruct (int_shape prec32 emax32 eq_refl eq_refl p Hp)
    as (c & ec & S0 & B & D & E & R & V).
  exists c, ec. split; [exact (S0 false)|]. auto.
Qed.

(** The product with [1.0f] is the float itself. *)
Lemma fmul_one (s : bool) (c : positive) (ec : Z) :
  bounded prec32 emax32 c ec = true ->
  fmul (S754_finite s c ec) fone = S754_finite s c ec.
Proof.
  intros B. rewrite fone_shape. unfold fmul, SFmul.
  rewrite xorb_false_r.
  replace (Zpos (c * 8388608)) with (Zpos c * 2 ^ 23) by (rewrite Pos2Z.inj_mul; reflexivity).
  replace (ec + -23) with (ec - 23) by lia.
  apply (binary_round_aux_exact prec32 emax32); [exact B | lia].
Qed.

Lemma digits2_mul (a b : positive) :
  Zpos (digits2_pos (a * b)) <= Zpos (digits2_pos a) + Zpos (digits2_pos b).
Proof.
  pose proof (digits2_pos_bounds a) as [_ Ha].
  pose proof (digits2_pos_bounds b) as [_ Hb].
  change (Zpos (digits2_pos (a * b))) with (Zdigits2 (Zpos (a * b))).
  apply Zdigits2_le; [|lia].
  rewrite Pos2Z.inj_mul, Z.pow_add_r by lia. nia.
Qed.

Lemma digits2_mul_ge (a b : positive) :
  Zpos (digits2_pos b) <= Zpos (digits2_pos (a * b)).
Proof.
  pose proof (digits2_pos_bounds b) as [Lb _].
  pose proof (digits2_pos_bounds (a * b)) as [_ Hab].
  rewrite Pos2Z.inj_mul in Hab.
  destruct (Z_le_gt_dec (Zpos (digits2_pos b)) (Zpos (digits2_pos (a * b))))
    as [L|G]; [exact L | exfalso].
  assert (2 ^ Zpos (digits2_pos (a * b)) <= 2 ^ (Zpos (digits2_pos b) - 1))
    by (apply Z.pow_le_mono_r; lia).
  nia.
Qed.

(** A height that is a whole multiple of the logical height gives that
    multiple as ratio, exactly. *)
Lemma heightRatio_multiple (k height : Z) :
  1 <= k -> 1 <= height -> k * height < 2 ^ 24 ->
  heightRatio (k * height) height = double_of_int k.
Proof.
  intros Hk Hh Hb.
  destruct k as [|k|k]; try lia. destruct height as [|b|b]; try lia.
  assert (Kb : Zpos k < 2 ^ 24) by nia.
  assert (Bb : Zpos b < 2 ^ 24) by nia.
  change (Zpos k * Zpos b) with (Zpos (k * b)) in *.
  destruct (float_of_int_shape (k * b) Hb) as (c1 & e1 & F1 & B1 & D1 & E1 & R1 & V1).
  destruct (float_of_int_shape b Bb) as (c2 & e2 & F2 & B2 & D2 & E2 & R2 & V2).
  destruct (float_of_int_shape k Kb) as (c & ec & F & B & D & E & R & V).
  unfold heightRatio. rewrite F1, F2, (fmul_one false c1 e1 B1).
  pose proof (digits2_mul k b) as M1. pose proof (digits2_mul_ge k b) as M2.
  pose proof (digits2_pos_bounds k) as Dk.
  assert (Dk1 : 1 <= Zpos (digits2_pos k)) by lia.
  pose proof (digits2_pos_bounds b) as Db.
  assert (Db1 : 1 <= Zpos (digits2_pos b)) by lia.
  assert (Q : fdiv (S754_finite false c1 e1) (S754_finite false c2 e2)
              = S754_finite false c ec).
  { unfold fdiv.
    pose proof (SFdiv_exact prec32 emax32
                  false false c1 c2 c e1 e2 ec B) as X.
    cbv zeta in X. rewrite (fexp_spec prec32 emax32), D1, D2 in X.
    unfold prec32, emax32 in X.
    replace (Z.min (Z.max (24 + e1 - (24 + e2) - 24) (3 - 128 - 24)) (e1 - e2))
      with (e1 - e2 - 24) in X by lia.
    apply X; [lia|].
    replace (e1 - e2 - (e1 - e2 - 24)) with 24 by lia.
    rewrite V1, V2, V, Pos2Z.inj_mul.
    replace (Zpos k * 2 ^ (- ec) * 2 ^ (ec - (e1 - e2 - 24)) * (Zpos b * 2 ^ (- e2)))
      with (Zpos k * Zpos b * (2 ^ (- ec) * 2 ^ (ec - (e1 - e2 - 24)) * 2 ^ (- e2)))
      by ring.
    assert (L : 2 ^ (- e1) * 2 ^ 24 = 2 ^ (24 - e1))
      by (rewrite <- Z.pow_add_r by lia; f_equal; lia).
    assert (R' : 2 ^ (- ec) * 2 ^ (ec - (e1 - e2 - 24)) * 2 ^ (- e2) = 2 ^ (24 - e1))
      by (rewrite <- !Z.pow_add_r by lia; f_equal; lia).
    rewrite R', <- Z.mul_assoc, L. reflexivity. }
  rewrite Q. unfold double_of_float.
  destruct (double_of_int_shape k ltac:(lia)) as (c' & ec' & S0 & B' & D' & E' & V').
  pose proof (S0 false) as Sf. cbn [cond_Zopp] in Sf. rewrite Sf.
  apply (binary_round_exact prec64 emax64); [exact B' |].
  assert (Ec' : ec' = Zpos (digits2_pos k) - 53).
  { pose proof (digits_shift k (- ec') ltac:(lia)) as DS.
    rewrite <- V' in DS. change (Zdigits2 (Zpos c')) with (Zpos (digits2_pos c')) in DS.
    lia. }
  replace (Z.min ec ec') with ec' by lia.
  rewrite Z.sub_diag, Z.pow_0_r, Z.mul_1_r, V, V'.
  rewrite <- Z.mul_assoc, <- Z.pow_add_r by lia. f_equal. f_equal. lia.
Qed.

End Ratio.

(** X10. On a desktop without scaling (every screen at scale 1.0 and,
    where Hyprland answers, every monitor at scale 1.0) the logical
    geometry is the physical geometry, on the generic path and on the
    Hyprland path alike. [adjustDevicePixelRatio] then never leaves a pixmap
    as it is: a pixmap of the desktop's size gets the application's ratio,
    every other pixmap the ratio of the heights. *)
Theorem unscaled_desktop_logical_is_physical (env : Env) (pixmap : QPixmap) :
  Forall unscaledScreen (screens env) ->
  (forall items,
     hyprctlJson env = Some (JArray items) -> Forall unscaledMonitor items) ->
  exists geo,
    result (desktopGeometry env) = Some geo
    /\ result (logicalDesktopGeometry env) = Some geo
    /\ result (adjustDevicePixelRatio env pixmap)
       = Some (Pix.setDevicePixelRatio pixmap
                 (if QSize_eqb (Pix.size pixmap) (Rect.size geo)
                  then appDevicePixelRatio env
                  else heightRatio (Pix.height pixmap) (Rect.height geo))).
Proof.
  intros Hs Hm.
  assert (G : exists geo,
             result (desktopGeometry env) = Some geo
             /\ result (logicalDesktopGeometry env) = Some geo).
  { pose proof (hyprlandDesktopGeometries_result env Rect.null Rect.null) as R.
    unfold desktopGeometry, logicalDesktopGeometry.
    destruct (hyprlandDesktopGeometries env Rect.null Rect.null)
      as [[[[got p] l] t]|]; [|discriminate].
    cbn [result] in R. injection R as R.
    assert (F : (got, p, l) = (false, Rect.null, Rect.null)
                \/ (got = true /\ p = l)).
    { destruct (hyprlandSession env && negb (queryFails env)); [|now left].
      destruct (hyprctlJson env) as [[| | | | |items|]|] eqn:J; try now left.
      right. injection R as -> -> ->. split; [reflexivity|].
      unfold monitorLoop.
      destruct (fold_monitorEntry_unscaled items Rect.null false (Hm items eq_refl))
        as (p' & g' & ->).
      reflexivity. }
    destruct F as [[= -> -> ->] | [-> ->]].
    - exists (screensUnion (screens env)). cbn.
      rewrite (unscaled_unions (screens env) Hs). split; reflexivity.
    - exists l. split; reflexivity. }
  destruct G as (geo & P & L). exists geo. split; [exact P|]. split; [exact L|].
  rewrite (adjustDevicePixelRatio_result env pixmap geo geo P L).
  destruct (QSize_eqb (Pix.size pixmap) (Rect.size geo)); reflexivity.
Qed.

Lemma unscaled_desktop_logical_is_physical_witness :
  result (logicalDesktopGeometry SampleC1.x11)
  = result (desktopGeometry SampleC1.x11).
Proof.
  destruct (unscaled_desktop_logical_is_physical SampleC1.x11 NullPixmap)
    as (geo & P & L & _).
  - repeat constructor; vm_compute; reflexivity || discriminate.
  - intros items J. discriminate J.
  - now rewrite P, L.
Defined.

Lemma monitorEntry_whole (p l : QRect) (g : bool) (v : QJsonValue)
      (m : Z * Z * Z * Z) :
  wholeMonitor v m ->
  monitorEntry (p, l, g) v
  = if shown m
    then (Rect.united p (monitorRect m), Rect.united l (monitorRect m), true)
    else (p, l, g).
Proof.
  destruct m as [[[x y] width] height].
  intros (Hx & Hy & Hw & Hh & obj & -> & Vx & Vy & Vw & Vh & Sc).
  unfold modest in *. cbn [monitorEntry shown monitorRect].
  rewrite Sc, Vx, Vy, Vw, Vh. cbn [Json.toDouble].
  change dzero with (double_of_int 0).
  rewrite (dleb_int width 0), (dleb_int height 0) by lia.
  change (dleb done (double_of_int 0)) with false.
  rewrite !ddiv_one by (apply is_double_int; lia).
  rewrite !toInt_int by (unfold INT_MAX; lia).
  rewrite orb_false_r.
  destruct (Z.leb_spec width 0), (Z.ltb_spec 0 width); try lia; cbn [orb andb];
    try reflexivity.
  destruct (Z.leb_spec height 0), (Z.ltb_spec 0 height); try lia; reflexivity.
Qed.

Lemma fold_monitorEntry_whole (items : list QJsonValue) (ms : list (Z * Z * Z * Z)) :
  Forall2 wholeMonitor items ms ->
  forall u g,
    fold_left monitorEntry items (u, u, g)
    = (fold_left (fun u m => Rect.united u (monitorRect m)) (filter shown ms) u,
       fold_left (fun u m => Rect.united u (monitorRect m)) (filter shown ms) u,
       g || existsb shown ms).
Proof.
  induction 1 as [|v m items ms Hv _ IH]; intros u g.
  - cbn. now rewrite orb_false_r.
  - cbn [fold_left filter existsb].
    rewrite (monitorEntry_whole u u g v m Hv).
    destruct (shown m).
    + cbn [fold_left]. rewrite IH. now rewrite orb_true_r.
    + rewrite IH. reflexivity.
Qed.

(** X11. Monitors that Hyprland describes by whole numbers at scale 1.0:
    [toInt] gives the numbers back, every monitor of positive size
    contributes [QRect(x, y, width, height)] to both unions, the others
    are skipped, and the flag tells whether one was taken. *)
Theorem hyprland_whole_monitors
  (items : list QJsonValue) (ms : list (Z * Z * Z * Z)) :
  Forall2 wholeMonitor items ms ->
  let union :=
    fold_left (fun u m => Rect.united u (monitorRect m)) (filter shown ms)
              Rect.null in
  monitorLoop items = (union, union, existsb shown ms).
Proof.
  intros H. cbv zeta. unfold monitorLoop.
  now rewrite (fold_monitorEntry_whole items ms H Rect.null false).
Qed.

Lemma hyprland_whole_monitors_witness :
  monitorLoop [Sample.goodMonitor]
  = (Rect.make 0 0 1920 1080, Rect.make 0 0 1920 1080, true).
Proof.
  apply (hyprland_whole_monitors [Sample.goodMonitor] [(0, 0, 1920, 1080)]).
  repeat constructor; try (vm_compute; reflexivity).
  exists [("name", JString "DP-1");
          ("width", JDouble (double_of_int 1920));
          ("height", JDouble (double_of_int 1080));
          ("x", JDouble (double_of_int 0));
          ("y", JDouble (double_of_int 0));
          ("scale", JDouble done)]%string.
  repeat split.
Defined.

(** X12. The ratio of the heights is exact for whole multiples: a pixmap
    that is not of the physical size and whose height is [k] times the
    height of the logical geometry, [k >= 2], gets the device pixel ratio
    [k], with no rounding error of the [float] arithmetic in between. *)
Theorem whole_multiple_gives_whole_ratio
  (env : Env) (pixmap : QPixmap) (physicalGeo logicalGeo : QRect) (k : Z) :
  result (desktopGeometry env) = Some physicalGeo ->
  result (logicalDesktopGeometry env) = Some logicalGeo ->
  QSize_eqb (Pix.size pixmap) (Rect.size physicalGeo) = false ->
  2 <= k -> 1 <= Rect.height logicalGeo ->
  Pix.height pixmap = k * Rect.height logicalGeo ->
  Pix.height pixmap < 2 ^ 24 ->
  heightRatio (Pix.height pixmap) (Rect.height logicalGeo) = double_of_int k
  /\ result (adjustDevicePixelRatio env pixmap)
     = Some (Pix.setDevicePixelRatio pixmap (double_of_int k)).
Proof.
  intros P L Np Hk Hh E Hb.
  assert (R : heightRatio (Pix.height pixmap) (Rect.height logicalGeo)
              = double_of_int k).
  { rewrite E. apply heightRatio_multiple; lia. }
  split; [exact R|].
  rewrite (adjustDevicePixelRatio_result env pixmap physicalGeo logicalGeo P L).
  rewrite Np.
  assert (Nl : QSize_eqb (Pix.size pixmap) (Rect.size logicalGeo) = false).
  { destruct (QSize_eqb (Pix.size pixmap) (Rect.size logicalGeo)) eqn:Q;
      [|reflexivity].
    apply QSize_eqb_eq in Q.
    assert (Pix.height pixmap = Rect.height logicalGeo).
    { unfold Pix.height. now rewrite Q. }
    nia. }
  rewrite Nl. cbn [negb]. now rewrite R.
Qed.

Lemma whole_multiple_gives_whole_ratio_witness :
  result (adjustDevicePixelRatio SampleC1.hidpi (Pixmap 4800 3000 done))
  = Some (Pixmap 4800 3000 (double_of_int 3)).
Proof.
  apply (whole_multiple_gives_whole_ratio
           SampleC1.hidpi (Pixmap 4800 3000 done)
           (Rect.make 0 0 3200 2000) (Rect.make 0 0 1600 1000) 3);
    try reflexivity; vm_compute; (reflexivity || discriminate).
Defined.

(** ** The helper tool and the monitor query *)

Lemma generalGrimScreenshot_exit_code env code code' ms ok res :
  generalGrimScreenshot (withGrimRun env (Exits code ms)) ok res
  = generalGrimScreenshot (withGrimRun env (Exits code' ms)) ok res.
Proof. reflexivity. Qed.

Lemma withGrimRun_same env : withGrimRun env (grimRun env) = env.
Proof. now destruct env. Qed.

Lemma is_chosen_helper env :
  is_chosen env HelperTool = true ->
  chosen env = Some HelperTool /\ useGrimAdapter env = true.
Proof.
  unfold is_chosen, chosen.
  destruct (windowManager env), (useGrimAdapter env); try discriminate; auto.
Qed.

(** X13. With the grim adapter chosen on Wayland, [ok] says whether grim
    finished within the 30 seconds of [waitForFinished], and nothing else:
    after a finished run the pixmap is whatever the file gave (a null pixmap
    included), after an unfinished one the pixmap is null and no file was
    touched; the exit code of grim changes neither the result nor the
    events. *)
Theorem helper_flag_is_the_wait
  (env : Env) (fuel : nat) (r : bool * QPixmap) (t : list Event) :
  waylandDetected env = true ->
  is_chosen env HelperTool = true ->
  grabEntireDesktop env fuel = Some (r, t) ->
  fst r = waitForFinished (grimRun env) defaultWait
  /\ (fst r = true ->
      result (adjustDevicePixelRatio env (imageFile env (imgPath env)))
      = Some (snd r)
      /\ loads t = [imgPath env])
  /\ (fst r = false -> snd r = NullPixmap /\ loads t = [])
  /\ (forall code code' ms,
        grimRun env = Exits code ms ->
        grabEntireDesktop (withGrimRun env (Exits code' ms)) fuel = Some (r, t)).
Proof.
  intros W C E.
  destruct (is_chosen_helper env C) as [Ch G].
  assert (Eq : forall code code' ms,
             grimRun env = Exits code ms ->
             grabEntireDesktop (withGrimRun env (Exits code' ms)) fuel
             = grabEntireDesktop env fuel).
  { intros code code' ms R.
    rewrite <- (withGrimRun_same env) at 2. rewrite R.
    rewrite !grabEntireDesktop_wayland by exact W.
    unfold backendRun.
    change (chosen (withGrimRun env (Exits code' ms))) with (chosen env).
    change (chosen (withGrimRun env (Exits code ms))) with (chosen env).
    rewrite Ch.
    now rewrite (generalGrimScreenshot_exit_code env code' code ms). }
  assert (Last : forall code code' ms,
             grimRun env = Exits code ms ->
             grabEntireDesktop (withGrimRun env (Exits code' ms)) fuel = Some (r, t)).
  { intros code code' ms R. now rewrite (Eq code code' ms R). }
  rewrite (grabEntireDesktop_wayland _ _ W) in E.
  unfold backendRun in E. rewrite Ch in E.
  destruct (generalGrimScreenshot env true NullPixmap) as [[r' tb]|] eqn:B;
    [|discriminate].
  injection E as <- <-.
  destruct (preamble_trace env) as [_ P]. destruct (no_fileEvent _ P) as [Pl _].
  rewrite !loads_app, Pl.
  destruct (generalGrimScreenshot_cases _ _ _ _ _ B)
    as [(N & _) | [(Wt & a & ta & A & -> & ->) | (Wt & -> & ->)]].
  - congruence.
  - destruct (adjustDevicePixelRatio_no_file _ _ _ _ A) as [La _].
    change (?x :: ?y :: ?z :: ta) with ([x; y; z] ++ ta).
    rewrite loads_app, La. cbn. rewrite Wt.
    repeat split; try discriminate; auto.
    unfold result. now rewrite A.
  - cbn. rewrite Wt. repeat split; try discriminate; auto.
Qed.

Lemma helper_flag_is_the_wait_witness :
  exists t,
    grabEntireDesktop (withGrimRun SampleGrim.grimExitsWithError (Exits 0 40)) 0
    = Some ((true, NullPixmap), t).
Proof.
  destruct (grabEntireDesktop SampleGrim.grimExitsWithError 0)
    as [[r t]|] eqn:E; [|vm_compute in E; discriminate E].
  destruct (helper_flag_is_the_wait SampleGrim.grimExitsWithError 0 r t)
    as (_ & _ & _ & I); [reflexivity | reflexivity | exact E |].
  exists t. rewrite (I 1 0 40 eq_refl).
  vm_compute in E. injection E as <- _. reflexivity.
Defined.

Lemma hyprctlStarts_app t1 t2 :
  hyprctlStarts (t1 ++ t2) = (hyprctlStarts t1 + hyprctlStarts t2)%nat.
Proof. unfold hyprctlStarts. now rewrite filter_app, length_app. Qed.

Lemma hyprlandDesktopGeometries_starts env physical logical :
  exists r t,
    hyprlandDesktopGeometries env physical logical = Some (r, t)
    /\ hyprctlStarts t = (if hyprlandSession env then 1 else 0)%nat.
Proof.
  unfold hyprlandDesktopGeometries, hyprlandSession.
  destruct (waylandDetected env && WM_eqb (windowManager env) HYPRLAND);
    cbn [negb]; [|eexists; eexists; split; reflexivity].
  destruct (waitForFinished (hyprctlRun env) 1000); cbn [negb];
    [|eexists; eexists; split; reflexivity].
  destruct (hyprctlJson env) as [[| | | | |items|]|];
    try (eexists; eexists; split; reflexivity).
  destruct (monitorLoop items) as [[p l] g].
  destruct g; eexists; eexists; split; reflexivity.
Qed.

(** X14. Every call of [desktopGeometry] and of [logicalDesktopGeometry]
    in a Hyprland session on Wayland starts [hyprctl monitors -j] once, so
    [adjustDevicePixelRatio] starts it twice for one pixmap; in every other
    session none of them starts it. *)
Theorem adjust_queries_monitors_twice (env : Env) (pixmap : QPixmap) :
  let n := if hyprlandSession env then 1%nat else 0%nat in
  hyprctlStarts (events (desktopGeometry env)) = n
  /\ hyprctlStarts (events (logicalDesktopGeometry env)) = n
  /\ returns (adjustDevicePixelRatio env pixmap)
  /\ hyprctlStarts (events (adjustDevicePixelRatio env pixmap)) = (n + n)%nat.
Proof.
  cbv zeta.
  assert (D : exists geo t,
             desktopGeometry env = Some (geo, t)
             /\ hyprctlStarts t = if hyprlandSession env then 1%nat else 0%nat).
  { unfold desktopGeometry.
    destruct (hyprlandDesktopGeometries_starts env Rect.null Rect.null)
      as ([[got p] l] & t & -> & N).
    destruct got; eexists; eexists; (split; [reflexivity|]);
      now rewrite app_nil_r. }
  assert (L : exists geo t,
             logicalDesktopGeometry env = Some (geo, t)
             /\ hyprctlStarts t = if hyprlandSession env then 1%nat else 0%nat).
  { unfold logicalDesktopGeometry.
    destruct (hyprlandDesktopGeometries_starts env Rect.null Rect.null)
      as ([[got p] l] & t & -> & N).
    destruct got; eexists; eexists; (split; [reflexivity|]);
      now rewrite app_nil_r. }
  destruct D as (geo & t1 & D & N1). destruct L as (lgeo & t2 & L & N2).
  unfold adjustDevicePixelRatio. rewrite D, L. cbn [events].
  split; [exact N1|]. split; [exact N2|].
  unfold bind. cbn beta iota.
  destruct (QSize_eqb (Pix.size pixmap) (Rect.size geo));
    [|destruct (negb (QSize_eqb (Pix.size pixmap) (Rect.size lgeo)))];
    unfold bind, ret, events; rewrite ?app_nil_r, hyprctlStarts_app, N1, N2;
    (split; [eexists; eexists; reflexivity | reflexivity]).
Qed.

(** ** C4: cleanup after the round trip *)

(** The wait ends with the first [Response], and not before it. *)
Lemma loopExec_first env n : forall next status uriString,
  (forall k, (k < n)%nat -> busEvents env (next + k) = Unrelated) ->
  busEvents env (next + n) = Response status uriString ->
  loopExec env (S n) next = Some (status, uriString).
Proof.
  induction n as [|n IH]; intros next status uriString Hb Hn.
  - simpl. rewrite Nat.add_0_r in Hn. now rewrite Hn.
  - cbn [loopExec]. pose proof (Hb 0%nat ltac:(lia)) as H0.
    rewrite Nat.add_0_r in H0. rewrite H0.
    apply (IH (S next)).
    + intros k Hk. rewrite Nat.add_succ_l, <- Nat.add_succ_r. apply Hb. lia.
    + now rewrite Nat.add_succ_l, <- Nat.add_succ_r.
Qed.

Lemma loopExec_early env n : forall fuel next,
  (forall k, (k < n)%nat -> busEvents env (next + k) = Unrelated) ->
  (fuel <= n)%nat ->
  loopExec env fuel next = None.
Proof.
  induction n as [|n IH]; intros fuel next Hb Hf.
  - now replace fuel with 0%nat by lia.
  - destruct fuel as [|fuel]; [reflexivity|]. cbn [loopExec].
    pose proof (Hb 0%nat ltac:(lia)) as H0. rewrite Nat.add_0_r in H0. rewrite H0.
    apply IH; [|lia].
    intros k Hk. rewrite Nat.add_succ_l, <- Nat.add_succ_r. apply Hb. lia.
Qed.

(** The run seen from outside, case by case. *)
Lemma freeDesktopPortalRun_registered env fuel ok res :
  serviceRegistered env = true ->
  freeDesktopPortalRun env fuel ok res
  = match loopExec env fuel 0 with
    | None => (portalPrologue env, None)
    | Some (status, uriString) =>
        match gotSignal env res status uriString with
        | None => (portalPrologue env, None)
        | Some (res', t1) =>
            (portalPrologue env ++ t1
             ++ [Disconnect responseSignal; Close; DeleteLater],
             Some (if Pix.isNull res' then false else ok, res'))
        end
    end.
Proof.
  intros H. unfold freeDesktopPortalRun. rewrite H. cbn [negb].
  destruct (loopExec env fuel 0) as [[status uriString]|]; [|reflexivity].
  destruct (gotSignal env res status uriString) as [[res' t1]|]; [|reflexivity].
  cbn. destruct (Pix.isNull res'); cbn; rewrite ?app_nil_r; reflexivity.
Qed.

(** A run that has returned is the computation of [freeDesktopPortal]. *)
Lemma freeDesktopPortalRun_returned env fuel ok res r t :
  freeDesktopPortal env fuel ok res = Some (r, t)
  <-> freeDesktopPortalRun env fuel ok res = (t, Some r).
Proof.
  destruct (serviceRegistered env) eqn:H.
  - rewrite (freeDesktopPortal_registered _ _ _ _ H),
            (freeDesktopPortalRun_registered _ _ _ _ H).
    destruct (loopExec env fuel 0) as [[status uriString]|];
      [|split; discriminate].
    destruct (gotSignal env res status uriString) as [[res' t1]|];
      [|split; discriminate].
    split; intros [= <- <-]; reflexivity.
  - rewrite (freeDesktopPortal_unregistered _ _ _ _ H).
    unfold freeDesktopPortalRun. rewrite H. cbn.
    split; intros [= <- <-]; reflexivity.
Qed.

(** C4, refuted in its cleanup on every path: with a registered broker that
    never sends the response, the request object is made and the handler is
    connected, and however long the run lasts neither [Close] is called nor
    the handler disconnected: the function has no timeout exit. *)
Lemma portal_without_response_never_closes :
  (forall fuel,
     freeDesktopPortalRun (SamplePortal.gnome true Sample.silentBus) fuel true NullPixmap
     = (portalPrologue (SamplePortal.gnome true Sample.silentBus), None))
  /\ In (NewRequest service (requestPath (SamplePortal.gnome true Sample.silentBus)))
        (portalPrologue (SamplePortal.gnome true Sample.silentBus))
  /\ In (Connect responseSignal)
        (portalPrologue (SamplePortal.gnome true Sample.silentBus))
  /\ ~ In Close (portalPrologue (SamplePortal.gnome true Sample.silentBus))
  /\ ~ cleanupOnEveryPath.
Proof.
  assert (H : forall fuel,
             freeDesktopPortalRun (SamplePortal.gnome true Sample.silentBus)
                                  fuel true NullPixmap
             = (portalPrologue (SamplePortal.gnome true Sample.silentBus), None)).
  { intros fuel. rewrite freeDesktopPortalRun_registered by reflexivity.
    now rewrite loopExec_silent. }
  assert (N : ~ In Close (portalPrologue (SamplePortal.gnome true Sample.silentBus))).
  { intros I. cbn in I. repeat (destruct I as [I | I]; [discriminate I|]).
    exact I. }
  split; [exact H|]. split; [cbn; auto|]. split; [cbn; auto 6|].
  split; [exact N|].
  intros C.
  destruct (C (SamplePortal.gnome true Sample.silentBus) true NullPixmap eq_refl)
    as (fuel & I & _).
  rewrite H in I. exact (N I).
Qed.

(** C4, amended. With the broker registered and the [Response] arriving as
    event [n], [freeDesktopPortal] returns once the loop has seen that
    event; its events then end with the disconnection of the handler,
    [Close] and [deleteLater], whatever the status, and before that event
    the run is waiting with neither of them done. When the status is not 0
    nothing is loaded and the pixmap is the caller's, with [ok] false
    exactly when that pixmap is null; called as [grabEntireDesktop] calls
    it, with a null pixmap, the backend then gives [ok = false] and no
    image. Without any response the run waits for ever with the request
    object made and never closed. *)
Theorem portal_cleans_up_and_reports_decline
  (env : Env) (n : nat) (status : Z) (uriString : string)
  (ok : bool) (res : QPixmap) :
  serviceRegistered env = true ->
  firstResponse env n status uriString ->
  (exists res' t1,
     gotSignal env res status uriString = Some (res', t1)
     /\ freeDesktopPortal env (S n) ok res
        = Some ((if Pix.isNull res' then false else ok, res'),
                portalPrologue env ++ t1
                ++ [Disconnect responseSignal; Close; DeleteLater])
     /\ freeDesktopPortalRun env (S n) ok res
        = (portalPrologue env ++ t1
           ++ [Disconnect responseSignal; Close; DeleteLater],
           Some (if Pix.isNull res' then false else ok, res'))
     /\ existsb requestOrCall t1 = false
     /\ (status <> 0 -> t1 = [] /\ res' = res))
  /\ (forall fuel, (fuel <= n)%nat ->
        freeDesktopPortalRun env fuel ok res = (portalPrologue env, None))
  /\ (status <> 0 ->
      waylandDetected env = true ->
      is_chosen env PermissionBroker = true ->
      result (grabEntireDesktop env (S n)) = Some (false, NullPixmap)
      /\ In (Log Error msgNoCapture) (events (grabEntireDesktop env (S n))))
  /\ (forall env',
        serviceRegistered env' = true ->
        (forall k, busEvents env' k = Unrelated) ->
        forall fuel,
          freeDesktopPortalRun env' fuel ok res = (portalPrologue env', None)
          /\ freeDesktopPortal env' fuel ok res = None).
Proof.
  intros Hreg [Hb Hn].
  assert (L : loopExec env (S n) 0 = Some (status, uriString)).
  { apply loopExec_first; [exact Hb | exact Hn]. }
  assert (G : forall res0, exists res' t1,
             gotSignal env res0 status uriString = Some (res', t1)
             /\ existsb requestOrCall t1 = false
             /\ (status <> 0 -> t1 = [] /\ res' = res0)).
  { intros res0.
    destruct (gotSignal env res0 status uriString) as [[res' t1]|] eqn:G.
    - exists res', t1. split; [reflexivity|]. split.
      + pose proof (gotSignal_quiet env res0 status uriString PermissionBroker) as Q.
        rewrite G in Q. unfold invoked in Q. cbn [events] in Q.
        destruct (existsb requestOrCall t1) eqn:X; [|reflexivity].
        apply existsb_exists in X. destruct X as (e & He & R).
        assert (existsb brokerEvent t1 = true).
        { apply existsb_exists. exists e. split; [exact He|].
          unfold brokerEvent. now destruct e. }
        congruence.
      + intros N. unfold gotSignal in G. apply Z.eqb_neq in N. rewrite N in G.
        injection G as <- <-. now split.
    - destruct (gotSignal_returns env res0 status uriString) as (a & t & E).
      congruence. }
  split; [|split; [|split]].
  - destruct (G res) as (res' & t1 & E & Q & D).
    exists res', t1. split; [exact E|].
    split; [now rewrite (freeDesktopPortal_registered _ _ _ _ Hreg), L, E|].
    split; [now rewrite (freeDesktopPortalRun_registered _ _ _ _ Hreg), L, E|].
    split; [exact Q | exact D].
  - intros fuel Hf. rewrite (freeDesktopPortalRun_registered _ _ _ _ Hreg).
    now rewrite (loopExec_early env n fuel 0 Hb Hf).
  - intros N W C.
    destruct (G NullPixmap) as (res' & t1 & E & _ & D).
    destruct (D N) as [-> ->].
    assert (Ch : chosen env = Some PermissionBroker).
    { unfold is_chosen in C. destruct (chosen env) as [[|]|]; try discriminate.
      reflexivity. }
    rewrite (grabEntireDesktop_wayland _ _ W). unfold backendRun. rewrite Ch.
    rewrite (freeDesktopPortal_registered _ _ _ _ Hreg), L, E.
    cbn [Pix.isNull fst result events option_map]. split; [reflexivity|].
    rewrite !in_app_iff. right. right. now left.
  - intros env' Hreg' Hs fuel.
    rewrite (freeDesktopPortalRun_registered _ _ _ _ Hreg'),
            (freeDesktopPortal_registered _ _ _ _ Hreg').
    now rewrite (loopExec_silent env' fuel 0 Hs).
Qed.

Lemma portal_cleans_up_and_reports_decline_witness :
  freeDesktopPortal (SamplePortal.gnome true (SamplePortal.answers 2)) 3 true NullPixmap
  = Some ((false, NullPixmap),
          portalPrologue (SamplePortal.gnome true (SamplePortal.answers 2))
          ++ [Disconnect responseSignal; Close; DeleteLater])
  /\ result (grabEntireDesktop (SamplePortal.gnome true (SamplePortal.answers 2)) 3)
     = Some (false, NullPixmap).
Proof.
  set (env := SamplePortal.gnome true (SamplePortal.answers 2)).
  assert (F : firstResponse env 2 2 "/tmp/shot.png").
  { split; [|reflexivity].
    intros k Hk. destruct k as [|[|k]]; [reflexivity | reflexivity | lia]. }
  destruct (portal_cleans_up_and_reports_decline
              env 2 2 "/tmp/shot.png" true NullPixmap eq_refl F)
    as ((res' & t1 & _ & E & _ & _ & D) & _ & W & _).
  destruct (D ltac:(discriminate)) as [-> ->].
  split; [exact E|].
  apply W; [discriminate | reflexivity | reflexivity].
Defined.

(** ** Rounding, bit by bit *)

Section RoundBits.

Lemma shr_1_bits (m : Z) (r s : bool) :
  0 <= m ->
  shr_1 {| shr_m := m; shr_r := r; shr_s := s |}
  = {| shr_m := m / 2; shr_r := Z.odd m; shr_s := r || s |}.
Proof.
  destruct m as [|[p|p|]|p]; intros H; try lia.
  - reflexivity.
  - assert (D : Zpos p~1 / 2 = Zpos p)
      by (symmetry; apply (Z.div_unique _ 2 _ 1); lia).
    cbn [shr_1]. rewrite D. reflexivity.
  - assert (D : Zpos p~0 / 2 = Zpos p)
      by (symmetry; apply (Z.div_unique _ 2 _ 0); lia).
    cbn [shr_1]. rewrite D. reflexivity.
  - reflexivity.
Qed.

Lemma odd_mod2 (x : Z) : Z.odd x = negb (x mod 2 =? 0).
Proof.
  rewrite Zodd_mod. pose proof (Z.mod_pos_bound x 2 ltac:(lia)) as B.
  destruct (Z.eqb_spec (x mod 2) 1), (Z.eqb_spec (x mod 2) 0); simpl; lia || reflexivity.
Qed.

(** After [n + 1] shifts of an exact number: the quotient, the bit that
    went last, and whether anything went before it. *)
Lemma iter_shr_bits (n : nat) (m : Z) :
  0 <= m ->
  Nat.iter (S n) shr_1 {| shr_m := m; shr_r := false; shr_s := false |}
  = {| shr_m := m / 2 ^ Z.of_nat (S n);
       shr_r := Z.odd (m / 2 ^ Z.of_nat n);
       shr_s := negb (m mod 2 ^ Z.of_nat n =? 0) |}.
Proof.
  intros H. induction n as [|n IH].
  - unfold Nat.iter. cbn [nat_rect]. rewrite (shr_1_bits m false false H).
    change (2 ^ Z.of_nat 1) with 2. change (2 ^ Z.of_nat 0) with 1.
    now rewrite Z.div_1_r, Z.mod_1_r.
  - rewrite Nat.iter_succ, IH.
    assert (P : 0 < 2 ^ Z.of_nat (S n)) by (apply Z.pow_pos_nonneg; lia).
    rewrite shr_1_bits by (apply Z.div_pos; lia).
    f_equal.
    + rewrite Z.div_div by lia.
      rewrite (Nat2Z.inj_succ (S n)), Z.pow_succ_r by lia. f_equal. lia.
    + rewrite (Nat2Z.inj_succ n), mod_pow2_succ by lia.
      rewrite odd_mod2.
      destruct (m mod 2 ^ Z.of_nat n =? 0), ((m / 2 ^ Z.of_nat n) mod 2 =? 0);
        reflexivity.
Qed.

Lemma rne_0 (z : Z) : rne z 0 = z.
Proof.
  unfold rne. rewrite Z.pow_0_r, Z.div_1_r, Z.mod_1_r. reflexivity.
Qed.

(** Shifting an exact number and rounding to nearest even is [rne]. *)
Lemma shr_exact_spec (m e n : Z) :
  0 <= m -> 0 <= n ->
  snd (shr (shr_record_of_loc m loc_Exact) e n) = e + n
  /\ shr_m (fst (shr (shr_record_of_loc m loc_Exact) e n)) = m / 2 ^ n
  /\ round_nearest_even
       (shr_m (fst (shr (shr_record_of_loc m loc_Exact) e n)))
       (loc_of_shr_record (fst (shr (shr_record_of_loc m loc_Exact) e n)))
     = rne m n.
Proof.
  intros Hm Hn. destruct n as [|p|p]; [| |lia].
  - cbn [shr shr_record_of_loc fst snd shr_m loc_of_shr_record round_nearest_even].
    rewrite rne_0, Z.pow_0_r, Z.div_1_r. repeat split; lia.
  - cbn [shr shr_record_of_loc fst snd]. rewrite iter_pos_nat.
    destruct (Pos.to_nat p) as [|k] eqn:K; [lia|].
    rewrite (iter_shr_bits k m Hm).
    assert (Ek : Z.of_nat (S k) = Zpos p) by lia.
    rewrite Ek. cbn [shr_m].
    split; [reflexivity|]. split; [reflexivity|].
    unfold rne.
    assert (Ep : Zpos p = Z.of_nat k + 1) by lia.
    rewrite Ep, Z.pow_add_r, Z.pow_1_r by lia.
    assert (P : 0 < 2 ^ Z.of_nat k) by (apply Z.pow_pos_nonneg; lia).
    rewrite Z.rem_mul_r by lia.
    rewrite odd_mod2.
    pose proof (Z.mod_pos_bound m (2 ^ Z.of_nat k) P) as B1.
    pose proof (Z.mod_pos_bound (m / 2 ^ Z.of_nat k) 2 ltac:(lia)) as B2.
    set (lo := m mod 2 ^ Z.of_nat k) in *.
    set (bit := (m / 2 ^ Z.of_nat k) mod 2) in *.
    set (q := m / (2 ^ Z.of_nat k * 2)).
    destruct (Z.eqb_spec bit 0) as [B0|B0]; cbn [negb].
    + destruct (Z.ltb_spec (2 * (lo + 2 ^ Z.of_nat k * bit)) (2 ^ Z.of_nat k * 2));
        [|nia].
      destruct (lo =? 0); reflexivity.
    + assert (bit = 1) by lia.
      destruct (Z.ltb_spec (2 * (lo + 2 ^ Z.of_nat k * bit)) (2 ^ Z.of_nat k * 2));
        [nia|].
      destruct (Z.eqb_spec lo 0) as [L0|L0]; cbn [negb loc_of_shr_record round_nearest_even].
      * destruct (Z.ltb_spec (2 ^ Z.of_nat k * 2) (2 * (lo + 2 ^ Z.of_nat k * bit)));
          [nia | reflexivity].
      * destruct (Z.ltb_spec (2 ^ Z.of_nat k * 2) (2 * (lo + 2 ^ Z.of_nat k * bit)));
          [reflexivity | nia].
Qed.

End RoundBits.

(** ** What rounding gives, in any format *)

Section RoundSpec.

Variables prec emax : Z.
Hypothesis Hprec : 0 < prec.

Lemma digits_div (m n : Z) :
  0 < m -> 0 <= n < Zdigits2 m ->
  0 < m / 2 ^ n /\ Zdigits2 (m / 2 ^ n) = Zdigits2 m - n.
Proof using Type.
  intros Hm Hn. pose proof (Zdigits2_ge m Hm) as [Lo Hi].
  assert (P : 0 < 2 ^ n) by (apply Z.pow_pos_nonneg; lia).
  assert (Lo' : 2 ^ (Zdigits2 m - n - 1) <= m / 2 ^ n).
  { apply Z.div_le_lower_bound; [exact P|].
    rewrite <- Z.pow_add_r by lia.
    replace (n + (Zdigits2 m - n - 1)) with (Zdigits2 m - 1) by lia. exact Lo. }
  assert (Hi' : m / 2 ^ n < 2 ^ (Zdigits2 m - n)).
  { apply Z.div_lt_upper_bound; [exact P|].
    rewrite <- Z.pow_add_r by lia.
    replace (n + (Zdigits2 m - n)) with (Zdigits2 m) by lia. exact Hi. }
  assert (Q : 0 < 2 ^ (Zdigits2 m - n - 1)) by (apply Z.pow_pos_nonneg; lia).
  split; [lia|]. apply Zdigits2_unique; [lia|]. split; [exact Lo' | exact Hi'].
Qed.

Lemma digits_succ (q : Z) :
  0 < q -> Zdigits2 (q + 1) = Zdigits2 q \/ q + 1 = 2 ^ Zdigits2 q.
Proof using Type.
  intros Hq. pose proof (Zdigits2_ge q Hq) as [Lo Hi].
  destruct (Z.eq_dec (q + 1) (2 ^ Zdigits2 q)) as [E|N]; [now right | left].
  apply Zdigits2_unique; lia.
Qed.

Lemma digits_pow2 (k : Z) : 0 <= k -> Zdigits2 (2 ^ k) = k + 1.
Proof using Type.
  intros Hk. assert (P : 0 < 2 ^ k) by (apply Z.pow_pos_nonneg; lia).
  apply Zdigits2_unique; [exact P|].
  replace (k + 1 - 1) with k by lia. rewrite Z.pow_add_r by lia. lia.
Qed.

(** The last steps of [binary_round_aux], on a rounded mantissa [q] at the
    exponent [t] of the format: the mantissa is kept, or it is [2^prec] and
    goes one exponent up. *)
Lemma renormalize_spec (s : bool) (q t : Z) :
  0 < q ->
  Z.max (Zdigits2 q + t - prec) (3 - emax - prec) = t
  \/ (q = 2 ^ prec /\ 3 - emax - prec <= t) ->
  t + 1 <= emax - prec ->
  exists m e,
    (let '(mrs, e') := shr_fexp prec emax q t loc_Exact in
     match shr_m mrs with
     | 0 => S754_zero s
     | Zpos m0 =>
         if e' <=? emax - prec then S754_finite s m0 e' else S754_infinity s
     | Zneg _ => S754_nan
     end) = S754_finite s m e
    /\ bounded prec emax m e = true
    /\ t <= e
    /\ Zpos m * 2 ^ (e - t) = q.
Proof using Hprec.
  intros Hq C Ht. unfold shr_fexp. rewrite (fexp_spec prec emax).
  destruct C as [C | [-> Et]].
  - rewrite C, Z.sub_diag.
    cbn [shr shr_record_of_loc shr_m].
    destruct q as [|m|m]; try lia.
    exists m, t.
    replace (t <=? emax - prec) with true by (symmetry; apply Z.leb_le; lia).
    split; [reflexivity|]. split.
    + apply (bounded_iff prec emax). split; [exact C | lia].
    + split; [lia|]. rewrite Z.sub_diag, Z.pow_0_r. lia.
  - rewrite (digits_pow2 prec) by lia.
    replace (Z.max (prec + 1 + t - prec) (3 - emax - prec) - t) with 1 by lia.
    pose proof (shr_exact_spec (2 ^ prec) t 1 ltac:(lia) ltac:(lia)) as (E1 & E2 & _).
    destruct (shr (shr_record_of_loc (2 ^ prec) loc_Exact) t 1) as [mrs e'].
    cbn [fst snd] in E1, E2. subst e'. rewrite E2.
    assert (D : 2 ^ prec / 2 ^ 1 = 2 ^ (prec - 1)).
    { replace prec with (prec - 1 + 1) at 1 by lia.
      rewrite Z.pow_add_r by lia. apply Z.div_mul. lia. }
    rewrite D.
    assert (P : 0 < 2 ^ (prec - 1)) by (apply Z.pow_pos_nonneg; lia).
    destruct (2 ^ (prec - 1)) as [|m|m] eqn:Em; try lia.
    exists m, (t + 1).
    replace (t + 1 <=? emax - prec) with true by (symmetry; apply Z.leb_le; lia).
    split; [reflexivity|]. split.
    + apply (bounded_iff prec emax). split; [|lia].
      change (Zpos (digits2_pos m)) with (Zdigits2 (Zpos m)).
      rewrite <- Em, (digits_pow2 (prec - 1)) by lia. lia.
    + split; [lia|]. replace (t + 1 - t) with 1 by lia.
      rewrite <- Em, <- Z.pow_add_r by lia. f_equal. lia.
Qed.

(** A mantissa at the exponent of the format stays there, or becomes
    [2^prec], when one is added. *)
Lemma canonical_succ (q t : Z) :
  0 < q ->
  Z.max (Zdigits2 q + t - prec) (3 - emax - prec) = t ->
  Z.max (Zdigits2 (q + 1) + t - prec) (3 - emax - prec) = t
  \/ (q + 1 = 2 ^ prec /\ 3 - emax - prec <= t).
Proof using Hprec.
  intros Hq C. destruct (digits_succ q Hq) as [E|E]; [left; now rewrite E|].
  destruct (Z_le_gt_dec prec (Zdigits2 q)) as [G|L].
  - right. split; [|lia]. rewrite E. f_equal. lia.
  - left. rewrite E, (digits_pow2 (Zdigits2 q))
      by (pose proof (Zdigits2_positive q Hq); lia). lia.
Qed.

(** [binary_round_aux] on a mantissa that has at least the digits of the
    format: the result is a float of the format, its mantissa is the
    quotient by the power of two that is dropped or the next number, and
    for an exact input it is the quotient rounded to nearest even. *)
Lemma binary_round_aux_spec (s : bool) (m e : Z) (l : location) :
  0 < m ->
  3 - emax - prec <= e ->
  let t := fexp prec emax (Zdigits2 m + e) in
  e <= t ->
  t + 1 <= emax - prec ->
  exists m' e',
    binary_round_aux prec emax s m e l = S754_finite s m' e'
    /\ bounded prec emax m' e' = true
    /\ t <= e'
    /\ m / 2 ^ (t - e) <= Zpos m' * 2 ^ (e' - t) <= m / 2 ^ (t - e) + 1
    /\ (l = loc_Exact -> Zpos m' * 2 ^ (e' - t) = rne m (t - e)).
Proof using Hprec.
  intros Hm He t Ht Ho.
  assert (Tn : t - e = Z.max (Zdigits2 m - prec) 0).
  { unfold t in *. rewrite (fexp_spec prec emax) in *. lia. }
  pose proof (Zdigits2_positive m Hm) as D1.
  destruct (digits_div m (t - e) Hm ltac:(lia)) as [Qp Qd].
  set (q := m / 2 ^ (t - e)) in *.
  assert (Cq : Z.max (Zdigits2 q + t - prec) (3 - emax - prec) = t).
  { rewrite Qd. unfold t in *. rewrite (fexp_spec prec emax) in *. lia. }
  unfold binary_round_aux, shr_fexp. fold t.
  pose proof (shr_spec (shr_record_of_loc m l) e (t - e)) as S0.
  rewrite shr_record_of_loc_m in S0. specialize (S0 ltac:(lia)).
  cbv zeta in S0. replace (Z.max (t - e) 0) with (t - e) in S0 by lia.
  pose proof (shr_exact_spec m e (t - e) ltac:(lia) ltac:(lia)) as X.
  assert (Xl : l = loc_Exact ->
               round_nearest_even
                 (shr_m (fst (shr (shr_record_of_loc m l) e (t - e))))
                 (loc_of_shr_record (fst (shr (shr_record_of_loc m l) e (t - e))))
               = rne m (t - e)).
  { intros ->. apply X. }
  clear X.
  destruct (shr (shr_record_of_loc m l) e (t - e)) as [mrs e1].
  cbn [fst snd] in S0, Xl. destruct S0 as (E1 & E2 & _).
  replace (e + (t - e)) with t in E1 by lia. subst e1.
  pose proof (round_nearest_even_spec mrs) as [R _]. cbv zeta in R.
  set (q' := round_nearest_even (shr_m mrs) (loc_of_shr_record mrs)) in *.
  rewrite E2 in R. fold q in R.
  assert (Cq' : Z.max (Zdigits2 q' + t - prec) (3 - emax - prec) = t
                \/ (q' = 2 ^ prec /\ 3 - emax - prec <= t)).
  { destruct (Z.eq_dec q' q) as [->|N]; [now left|].
    replace q' with (q + 1) by lia. apply canonical_succ; assumption. }
  destruct (renormalize_spec s q' t ltac:(lia) Cq' Ho) as (m' & e' & E & B & Le & V).
  exists m', e'. fold (shr_fexp prec emax q' t loc_Exact).
  split; [exact E|]. split; [exact B|]. split; [exact Le|].
  split; [lia|]. intros L. rewrite V. now apply Xl.
Qed.

End RoundSpec.

(** ** Sums and differences of doubles, by value *)

Section Values.

Lemma rne_scale (a n k : Z) :
  0 <= n -> 0 <= k -> rne (a * 2 ^ k) (n + k) = rne a n.
Proof.
  intros Hn Hk. unfold rne.
  assert (P : 0 < 2 ^ k) by (apply Z.pow_pos_nonneg; lia).
  assert (Q : 0 < 2 ^ n) by (apply Z.pow_pos_nonneg; lia).
  rewrite Z.pow_add_r by lia.
  rewrite Z.div_mul_cancel_r by lia.
  rewrite Z.mul_mod_distr_r by lia.
  destruct (Z.ltb_spec (2 * (a mod 2 ^ n)) (2 ^ n)),
           (Z.ltb_spec (2 * (a mod 2 ^ n * 2 ^ k)) (2 ^ n * 2 ^ k));
    try nia; try reflexivity.
  destruct (Z.ltb_spec (2 ^ n) (2 * (a mod 2 ^ n))),
           (Z.ltb_spec (2 ^ n * 2 ^ k) (2 * (a mod 2 ^ n * 2 ^ k)));
    try nia; reflexivity.
Qed.

Lemma rne_exact (a n : Z) : 0 <= n -> rne (a * 2 ^ n) n = a.
Proof.
  intros Hn. unfold rne.
  assert (P : 0 < 2 ^ n) by (apply Z.pow_pos_nonneg; lia).
  rewrite Z.div_mul, Z.mod_mul by lia.
  destruct (Z.ltb_spec (2 * 0) (2 ^ n)); [reflexivity | lia].
Qed.

Lemma rn_0 : rn 0 = 0.
Proof. reflexivity. Qed.

Lemma bounded64 (m : positive) (e : Z) :
  bounded prec64 emax64 m e = true ->
  -1074 <= e <= 971 /\ Zpos (digits2_pos m) <= 53
  /\ (e = -1074 \/ Zpos (digits2_pos m) = 53).
Proof.
  intros B. apply (bounded_iff prec64 emax64) in B. unfold prec64, emax64 in B.
  lia.
Qed.

Lemma val_digits (m : positive) (e : Z) :
  -1074 <= e ->
  Zdigits2 (Zpos m * 2 ^ (e + 1074)) = Zpos (digits2_pos m) + e + 1074.
Proof. intros He. rewrite digits_shift by lia. lia. Qed.

(** A double of the format is its own rounding. *)
Lemma rn_val (x : qreal) : regular x = true -> rn (val x) = val x.
Proof.
  destruct x as [s| | |[|] m e]; try discriminate; try reflexivity.
  cbn [regular val]. intros B. destruct (bounded64 m e B) as (E & D & _).
  unfold rn. rewrite val_digits by lia.
  set (n := Z.max (Zpos (digits2_pos m) + e + 1074 - 53) 0).
  assert (Hn : 0 <= n <= e + 1074) by (unfold n; lia).
  replace (e + 1074) with ((e + 1074 - n) + n) by lia.
  rewrite Z.pow_add_r, Z.mul_assoc by lia.
  now rewrite rne_exact by lia.
Qed.

(** Normalisation rounds the value. *)
Lemma normalize_val (M : positive) (e : Z) :
  -1074 <= e -> Zpos M * 2 ^ (e + 1074) < 2 ^ 2000 ->
  exists m' e',
    binary_normalize prec64 emax64 (Zpos M) e false = S754_finite false m' e'
    /\ bounded prec64 emax64 m' e' = true
    /\ Zpos m' * 2 ^ (e' + 1074) = rn (Zpos M * 2 ^ (e + 1074)).
Proof.
  intros He Hb. cbn [binary_normalize]. unfold binary_round.
  set (t := fexp prec64 emax64 (Zpos (digits2_pos M) + e)).
  assert (Et : t = Z.max (Zpos (digits2_pos M) + e - 53) (-1074))
    by (unfold t; now rewrite (fexp_spec prec64 emax64)).
  destruct (shl_align_spec M e t) as (E1 & E2 & E3).
  destruct (shl_align M e t) as [mz ez]. cbn [fst snd] in E1, E2, E3.
  pose proof (digits2_pos_bounds M) as [DL _].
  assert (D1 : 1 <= Zpos (digits2_pos M)) by (pose proof (Zdigits2_positive (Zpos M)); cbn in *; lia).
  assert (Dv : Zpos (digits2_pos M) + e + 1074 <= 2000).
  { destruct (Z_le_gt_dec (Zpos (digits2_pos M) + e + 1074) 2000) as [L|G]; [exact L|].
    exfalso.
    assert (2 ^ 2000 <= 2 ^ (Zpos (digits2_pos M) - 1 + (e + 1074)))
      by (apply Z.pow_le_mono_r; lia).
    rewrite Z.pow_add_r in H by lia.
    assert (0 < 2 ^ (e + 1074)) by (apply Z.pow_pos_nonneg; lia). nia. }
  assert (T' : fexp prec64 emax64 (Zdigits2 (Zpos mz) + ez) = t).
  { unfold t. f_equal. cbn [Zdigits2]. lia. }
  pose proof (binary_round_aux_spec prec64 emax64 ltac:(reflexivity) false
                (Zpos mz) ez loc_Exact ltac:(lia)) as X.
  cbv zeta in X. rewrite T' in X.
  destruct X as (m' & e' & R & B & Le & _ & V);
    [unfold prec64, emax64; lia | lia | unfold prec64, emax64; lia |].
  exists m', e'. split; [exact R|]. split; [exact B|].
  specialize (V eq_refl).
  replace (e' + 1074) with ((e' - t) + (t + 1074)) by lia.
  rewrite Z.pow_add_r, Z.mul_assoc, V by lia.
  unfold rn. rewrite val_digits by lia.
  replace (Z.max (Zpos (digits2_pos M) + e + 1074 - 53) 0) with (t + 1074) by lia.
  f_equal.
  replace (Zpos M * 2 ^ (e + 1074)) with (Zpos mz * 2 ^ (ez + 1074)).
  - replace (t + 1074) with ((t - ez) + (ez + 1074)) by lia.
    apply eq_sym, rne_scale; lia.
  - rewrite E2. rewrite <- Z.mul_assoc, <- Z.pow_add_r by lia. f_equal. f_equal. lia.
Qed.

Lemma aligned_val (m : positive) (e ez : Z) :
  -1074 <= ez <= e ->
  Zpos (fst (shl_align m e ez)) * 2 ^ (ez + 1074) = Zpos m * 2 ^ (e + 1074).
Proof.
  intros H. destruct (shl_align_spec m e ez) as (_ & E & _).
  rewrite E. replace (Z.min e ez) with ez by lia.
  rewrite <- Z.mul_assoc, <- Z.pow_add_r by lia. f_equal. f_equal. lia.
Qed.

Lemma regular_finite (x : qreal) :
  regular x = true ->
  (exists s, x = S754_zero s)
  \/ exists m e, x = S754_finite false m e /\ bounded prec64 emax64 m e = true.
Proof.
  destruct x as [s| | |[|] m e]; try discriminate; intros H.
  - left. now exists s.
  - right. now exists m, e.
Qed.

Lemma val_positive (m : positive) (e : Z) :
  -1074 <= e -> 0 < val (S754_finite false m e).
Proof.
  intros He. cbn [val].
  assert (0 < 2 ^ (e + 1074)) by (apply Z.pow_pos_nonneg; lia). lia.
Qed.

(** The sum of two doubles is the rounding of the sum of their values. *)
Lemma dadd_val (x y : qreal) :
  regular x = true -> regular y = true -> val x + val y < 2 ^ 2000 ->
  regular (dadd x y) = true /\ val (dadd x y) = rn (val x + val y).
Proof.
  intros Gx Gy Hb.
  destruct (regular_finite x Gx) as [[sx ->] | (mx & ex & -> & Bx)];
    destruct (regular_finite y Gy) as [[sy ->] | (my & ey & -> & By)].
  - split; [now destruct sx, sy | now destruct sx, sy].
  - cbn [dadd SFadd]. unfold dadd, SFadd. split; [exact Gy|].
    cbn [val Z.add]. change (val (S754_zero sx)) with 0.
    symmetry. apply (rn_val (S754_finite false my ey) Gy).
  - unfold dadd, SFadd. split; [exact Gx|].
    change (val (S754_zero sy)) with 0. rewrite Z.add_0_r.
    symmetry. apply (rn_val (S754_finite false mx ex) Gx).
  - destruct (bounded64 mx ex Bx) as (Ex & _). destruct (bounded64 my ey By) as (Ey & _).
    unfold dadd, SFadd. cbv zeta. cbn [cond_Zopp].
    pose proof (aligned_val mx ex (Z.min ex ey) ltac:(lia)) as Ax.
    pose proof (aligned_val my ey (Z.min ex ey) ltac:(lia)) as Ay.
    set (ax := fst (shl_align mx ex (Z.min ex ey))) in *.
    set (ay := fst (shl_align my ey (Z.min ex ey))) in *.
    change (Zpos ax + Zpos ay) with (Zpos (ax + ay)).
    cbn [val] in Hb |- *.
    assert (S0 : Zpos (ax + ay) * 2 ^ (Z.min ex ey + 1074)
                 = Zpos mx * 2 ^ (ex + 1074) + Zpos my * 2 ^ (ey + 1074)).
    { rewrite Pos2Z.inj_add, Z.mul_add_distr_r. lia. }
    destruct (normalize_val (ax + ay) (Z.min ex ey) ltac:(lia) ltac:(lia))
      as (m' & e' & -> & B & V).
    split; [exact B|]. cbn [val]. now rewrite V, S0.
Qed.

(** The difference of two doubles, the smaller one taken away, is the
    rounding of the difference of their values. *)
Lemma dsub_val (x y : qreal) :
  regular x = true -> regular y = true -> val y <= val x -> val x < 2 ^ 2000 ->
  regular (dsub x y) = true /\ val (dsub x y) = rn (val x - val y).
Proof.
  intros Gx Gy Le Hb.
  destruct (regular_finite x Gx) as [[sx ->] | (mx & ex & -> & Bx)];
    destruct (regular_finite y Gy) as [[sy ->] | (my & ey & -> & By)].
  - split; [now destruct sx, sy | now destruct sx, sy].
  - destruct (bounded64 my ey By) as (Ey & _).
    pose proof (val_positive my ey ltac:(lia)). cbn [val] in *. lia.
  - unfold dsub, SFsub. split; [exact Gx|].
    change (val (S754_zero sy)) with 0. rewrite Z.sub_0_r.
    symmetry. apply (rn_val (S754_finite false mx ex) Gx).
  - destruct (bounded64 mx ex Bx) as (Ex & _). destruct (bounded64 my ey By) as (Ey & _).
    unfold dsub, SFsub. cbv zeta. cbn [cond_Zopp].
    pose proof (aligned_val mx ex (Z.min ex ey) ltac:(lia)) as Ax.
    pose proof (aligned_val my ey (Z.min ex ey) ltac:(lia)) as Ay.
    set (ax := fst (shl_align mx ex (Z.min ex ey))) in *.
    set (ay := fst (shl_align my ey (Z.min ex ey))) in *.
    cbn [val] in Le, Hb |- *.
    assert (P : 0 < 2 ^ (Z.min ex ey + 1074)) by (apply Z.pow_pos_nonneg; lia).
    assert (S0 : (Zpos ax - Zpos ay) * 2 ^ (Z.min ex ey + 1074)
                 = Zpos mx * 2 ^ (ex + 1074) - Zpos my * 2 ^ (ey + 1074)).
    { rewrite Z.mul_sub_distr_r. lia. }
    destruct (Zpos ax - Zpos ay) as [|d|d] eqn:D.
    + cbn [binary_normalize]. split; [reflexivity|].
      cbn [val]. rewrite <- S0. reflexivity.
    + destruct (normalize_val d (Z.min ex ey) ltac:(lia) ltac:(nia))
        as (m' & e' & -> & B & V).
      split; [exact B|]. cbn [val]. now rewrite V, S0.
    + exfalso. nia.
Qed.

(** Doubles of the format compare as their values do. *)
Lemma compare_val (mx my : positive) (ex ey : Z) :
  bounded prec64 emax64 mx ex = true -> bounded prec64 emax64 my ey = true ->
  match ex ?= ey with
  | Eq => Pos.compare_cont Eq mx my
  | Lt => Lt
  | Gt => Gt
  end = (Zpos mx * 2 ^ (ex + 1074) ?= Zpos my * 2 ^ (ey + 1074)).
Proof.
  intros Bx By.
  destruct (bounded64 mx ex Bx) as (Ex & Dx & Cx).
  destruct (bounded64 my ey By) as (Ey & Dy & Cy).
  pose proof (digits2_pos_bounds mx) as [Lx Ux].
  pose proof (digits2_pos_bounds my) as [Ly Uy].
  assert (Mx : Zpos mx < 2 ^ 53).
  { assert (2 ^ Zpos (digits2_pos mx) <= 2 ^ 53) by (apply Z.pow_le_mono_r; lia). lia. }
  assert (My : Zpos my < 2 ^ 53).
  { assert (2 ^ Zpos (digits2_pos my) <= 2 ^ 53) by (apply Z.pow_le_mono_r; lia). lia. }
  destruct (Z.compare_spec ex ey) as [E|E|E].
  - subst ey. rewrite Pos.compare_cont_spec. cbn [Pos.switch_Eq].
    change ((mx ?= my)%positive) with (Zpos mx ?= Zpos my).
    assert (P : 0 < 2 ^ (ex + 1074)) by (apply Z.pow_pos_nonneg; lia).
    destruct (Z.compare_spec (Zpos mx) (Zpos my)) as [C|C|C];
      destruct (Z.compare_spec (Zpos mx * 2 ^ (ex + 1074)) (Zpos my * 2 ^ (ex + 1074)))
        as [C'|C'|C']; try reflexivity; nia.
  - symmetry. apply Z.compare_lt_iff.
    assert (Dy53 : Zpos (digits2_pos my) = 53) by lia.
    rewrite Dy53 in Ly. change (2 ^ (53 - 1)) with (2 ^ 52) in Ly.
    replace (ey + 1074) with ((ex + 1074) + (ey - ex)) by lia.
    rewrite (Z.pow_add_r 2 (ex + 1074) (ey - ex)) by lia.
    assert (P : 0 < 2 ^ (ex + 1074)) by (apply Z.pow_pos_nonneg; lia).
    assert (M : 2 <= 2 ^ (ey - ex)).
    { change 2 with (2 ^ 1) at 1. apply Z.pow_le_mono_r; lia. }
    change (2 ^ 53) with (2 * 2 ^ 52) in Mx.
    assert (Zpos mx < Zpos my * 2 ^ (ey - ex)) by nia. nia.
  - symmetry. apply Z.compare_gt_iff.
    assert (Dx53 : Zpos (digits2_pos mx) = 53) by lia.
    rewrite Dx53 in Lx. change (2 ^ (53 - 1)) with (2 ^ 52) in Lx.
    replace (ex + 1074) with ((ey + 1074) + (ex - ey)) by lia.
    rewrite (Z.pow_add_r 2 (ey + 1074) (ex - ey)) by lia.
    assert (P : 0 < 2 ^ (ey + 1074)) by (apply Z.pow_pos_nonneg; lia).
    assert (M : 2 <= 2 ^ (ex - ey)).
    { change 2 with (2 ^ 1) at 1. apply Z.pow_le_mono_r; lia. }
    change (2 ^ 53) with (2 * 2 ^ 52) in My.
    assert (Zpos my < Zpos mx * 2 ^ (ex - ey)) by nia. nia.
Qed.

Lemma dltb_val (x y : qreal) :
  regular x = true -> regular y = true -> dltb x y = (val x <? val y).
Proof.
  intros Gx Gy.
  destruct (regular_finite x Gx) as [[sx ->] | (mx & ex & -> & Bx)];
    destruct (regular_finite y Gy) as [[sy ->] | (my & ey & -> & By)].
  - reflexivity.
  - destruct (bounded64 my ey By) as (Ey & _).
    pose proof (val_positive my ey ltac:(lia)) as P.
    unfold dltb, SFltb. cbn [SFcompare]. change (val (S754_zero sx)) with 0.
    symmetry. apply Z.ltb_lt. exact P.
  - destruct (bounded64 mx ex Bx) as (Ex & _).
    pose proof (val_positive mx ex ltac:(lia)) as P.
    unfold dltb, SFltb. cbn [SFcompare]. change (val (S754_zero sy)) with 0.
    symmetry. apply Z.ltb_ge. lia.
  - unfold dltb, SFltb. cbn [SFcompare val].
    rewrite (compare_val mx my ex ey Bx By). unfold Z.ltb.
    now destruct (Zpos mx * 2 ^ (ex + 1074) ?= Zpos my * 2 ^ (ey + 1074)).
Qed.

End Values.

(** ** Rounding of whole numbers *)

Section RoundWhole.

Lemma digits_mono (a b : Z) : 0 <= a <= b -> Zdigits2 a <= Zdigits2 b.
Proof.
  intros [Ha Hab]. destruct (Z.eq_dec a 0) as [->|Na].
  - destruct b as [|p|p]; cbn; lia.
  - pose proof (Zdigits2_ge a ltac:(lia)) as [La Ua].
    pose proof (Zdigits2_ge b ltac:(lia)) as [Lb Ub].
    destruct (Z_le_gt_dec (Zdigits2 a) (Zdigits2 b)) as [L|G]; [exact L | exfalso].
    assert (2 ^ Zdigits2 b <= 2 ^ (Zdigits2 a - 1))
      by (apply Z.pow_le_mono_r; pose proof (Zdigits2_positive b ltac:(lia)); lia).
    lia.
Qed.

Lemma rn_small (z : Z) : Zdigits2 z <= 53 -> rn z = z.
Proof.
  intros H. unfold rn. replace (Z.max (Zdigits2 z - 53) 0) with 0 by lia.
  rewrite rne_0, Z.pow_0_r. lia.
Qed.

(** Rounding to nearest is between the two neighbours and within half a
    step. *)
Lemma rne_bounds (z n : Z) :
  0 <= z -> 0 <= n ->
  z / 2 ^ n <= rne z n <= z / 2 ^ n + 1
  /\ 2 * (rne z n * 2 ^ n) <= 2 * z + 2 ^ n
  /\ z - z mod 2 ^ n <= rne z n * 2 ^ n.
Proof.
  intros Hz Hn. unfold rne.
  assert (P : 0 < 2 ^ n) by (apply Z.pow_pos_nonneg; lia).
  pose proof (Z.div_mod z (2 ^ n) ltac:(lia)) as DM.
  pose proof (Z.mod_pos_bound z (2 ^ n) P) as B.
  set (q := z / 2 ^ n) in *. set (r := z mod 2 ^ n) in *.
  destruct (Z.ltb_spec (2 * r) (2 ^ n)); [split; [lia | split; nia]|].
  destruct (Z.ltb_spec (2 ^ n) (2 * r)); [split; [lia | split; nia]|].
  destruct (Z.even q); split; try lia; split; nia.
Qed.

Lemma rn_nonneg (z : Z) : 0 <= z -> 0 <= rn z.
Proof.
  intros Hz. unfold rn.
  set (n := Z.max (Zdigits2 z - 53) 0).
  assert (P : 0 < 2 ^ n) by (apply Z.pow_pos_nonneg; unfold n; lia).
  destruct (rne_bounds z n Hz ltac:(unfold n; lia)) as ([L _] & _).
  assert (0 <= z / 2 ^ n) by (apply Z.div_pos; lia). nia.
Qed.

(** A number with an even mantissa, as the double of a whole number
    below [2^52] is, is not passed by the rounding of anything up to half a
    step above it. *)
Lemma rn_upper (Nv z : Z) :
  0 < Nv -> 53 < Zdigits2 Nv ->
  Nv mod 2 ^ (Zdigits2 Nv - 53 + 1) = 0 ->
  0 <= z -> 2 * z <= 2 * Nv + 2 ^ (Zdigits2 Nv - 53) ->
  rn z <= Nv.
Proof.
  intros HN HD Hev Hz Hb.
  pose proof (Zdigits2_ge Nv HN) as [LN UN].
  remember (Zdigits2 Nv) as dN eqn:EdN.
  remember (dN - 53) as nN eqn:EnN.
  assert (Pn : 0 < 2 ^ nN) by (apply Z.pow_pos_nonneg; lia).
  assert (Ev : exists K, Nv = 2 * K * 2 ^ nN).
  { exists (Nv / 2 ^ (nN + 1)).
    assert (P1 : 2 ^ (nN + 1) = 2 ^ nN * 2)
      by (rewrite Z.pow_add_r by lia; reflexivity).
    pose proof (Z.div_mod Nv (2 ^ (nN + 1)) ltac:(lia)) as DM.
    rewrite Hev in DM. remember (Nv / 2 ^ (nN + 1)) as K0. rewrite P1 in DM. lia. }
  destruct Ev as [K EK].
  assert (E53 : 2 ^ dN = 2 ^ 53 * 2 ^ nN).
  { rewrite <- Z.pow_add_r by lia. f_equal. lia. }
  destruct (Z.eq_dec z 0) as [->|Nz]; [rewrite rn_0; lia|].
  pose proof (Zdigits2_ge z ltac:(lia)) as [Lz Uz].
  pose proof (Zdigits2_positive z ltac:(lia)) as Dz1.
  destruct (Z.lt_total (Zdigits2 z) dN) as [L | [E | G]].
  - (* fewer digits: the rounding stays below the next power of two *)
    assert (T : rn z <= 2 ^ Zdigits2 z).
    { destruct (Z_le_gt_dec (Zdigits2 z) 53) as [S|B].
      - rewrite rn_small by exact S. lia.
      - unfold rn. replace (Z.max (Zdigits2 z - 53) 0) with (Zdigits2 z - 53) by lia.
        set (n := Zdigits2 z - 53) in *.
        assert (P : 0 < 2 ^ n) by (apply Z.pow_pos_nonneg; unfold n; lia).
        destruct (rne_bounds z n Hz ltac:(unfold n; lia)) as ([_ U] & _).
        assert (Ez : 2 ^ Zdigits2 z = 2 ^ 53 * 2 ^ n).
        { rewrite <- Z.pow_add_r by (unfold n; lia). f_equal. unfold n. lia. }
        assert (Q : z / 2 ^ n < 2 ^ 53).
        { apply Z.div_lt_upper_bound; [exact P|]. lia. }
        nia. }
    assert (2 ^ Zdigits2 z <= 2 ^ (dN - 1)) by (apply Z.pow_le_mono_r; lia).
    lia.
  - unfold rn. rewrite E, <- EnN.
    replace (Z.max nN 0) with nN by lia.
    destruct (Z.eq_dec z Nv) as [->|Ne].
    + rewrite EK. rewrite rne_exact by lia. lia.
    + unfold rne.
      pose proof (Z.div_mod z (2 ^ nN) ltac:(lia)) as DM.
      pose proof (Z.mod_pos_bound z (2 ^ nN) Pn) as B.
      set (q := z / 2 ^ nN) in *. set (r := z mod 2 ^ nN) in *.
      assert (Q : q <= 2 * K) by nia.
      destruct (Z.eq_dec q (2 * K)) as [Eq|Nq].
      * assert (R : 2 * r <= 2 ^ nN) by nia.
        destruct (Z.ltb_spec (2 * r) (2 ^ nN)); [nia|].
        destruct (Z.ltb_spec (2 ^ nN) (2 * r)); [lia|].
        rewrite Eq, Z.even_mul. cbn [Z.even orb]. nia.
      * assert (q + 1 <= 2 * K) by lia.
        destruct (Z.ltb_spec (2 * r) (2 ^ nN)); [nia|].
        destruct (Z.ltb_spec (2 ^ nN) (2 * r)); [nia|].
        destruct (Z.even q); nia.
  - exfalso.
    assert (2 ^ dN <= 2 ^ (Zdigits2 z - 1)) by (apply Z.pow_le_mono_r; lia).
    assert (Nv <= 2 ^ dN - 2 ^ nN).
    { assert (2 * K < 2 ^ 53) by nia. nia. }
    lia.
Qed.

(** A double of the format is not passed downwards by the rounding of
    anything above it. *)
Lemma rn_lower (x : qreal) (z : Z) :
  regular x = true -> val x <= z -> val x <= rn z.
Proof.
  intros G Hz.
  destruct (regular_finite x G) as [[s ->] | (m & e & -> & B)].
  - change (val (S754_zero s)) with 0 in *. now apply rn_nonneg.
  - destruct (bounded64 m e B) as (E & D & _).
    pose proof (val_positive m e ltac:(lia)) as Pv. cbn [val] in *.
    set (r := Zpos m * 2 ^ (e + 1074)) in *.
    assert (Dr : Zdigits2 r = Zpos (digits2_pos m) + e + 1074)
      by (unfold r; apply val_digits; lia).
    destruct (Z_le_gt_dec (Zdigits2 z) 53) as [S|Bg];
      [rewrite rn_small by exact S; exact Hz|].
    unfold rn. replace (Z.max (Zdigits2 z - 53) 0) with (Zdigits2 z - 53) by lia.
    set (n := Zdigits2 z - 53) in *.
    assert (P : 0 < 2 ^ n) by (apply Z.pow_pos_nonneg; unfold n; lia).
    destruct (rne_bounds z n ltac:(lia) ltac:(unfold n; lia)) as (_ & _ & Lo).
    pose proof (Z.div_mod z (2 ^ n) ltac:(lia)) as DM.
    pose proof (Z.mod_pos_bound z (2 ^ n) P) as Bm.
    pose proof (digits_mono r z ltac:(lia)) as Dm.
    pose proof (Zdigits2_ge z ltac:(lia)) as [Lz Uz].
    pose proof (Zdigits2_ge r ltac:(lia)) as [Lr Ur].
    destruct (Z.eq_dec (Zdigits2 r) (Zdigits2 z)) as [Ed|Nd].
    + (* same number of digits: [r] is a multiple of the step *)
      assert (Hn : n <= e + 1074) by (unfold n; lia).
      assert (M : r = (Zpos m * 2 ^ (e + 1074 - n)) * 2 ^ n).
      { unfold r. rewrite <- Z.mul_assoc, <- Z.pow_add_r by (unfold n in *; lia).
        f_equal. f_equal. lia. }
      assert (Q : Zpos m * 2 ^ (e + 1074 - n) <= z / 2 ^ n).
      { apply Z.div_le_lower_bound; [exact P|]. lia. }
      nia.
    + (* fewer digits: a power of two lies between *)
      assert (W : 2 ^ (Zdigits2 z - 1) = 2 ^ 52 * 2 ^ n).
      { rewrite <- Z.pow_add_r by (unfold n; lia). f_equal. unfold n. lia. }
      assert (Q : 2 ^ 52 <= z / 2 ^ n).
      { apply Z.div_le_lower_bound; [exact P|]. lia. }
      assert (2 ^ Zdigits2 r <= 2 ^ (Zdigits2 z - 1))
        by (apply Z.pow_le_mono_r; lia).
      nia.
Qed.

(** The step of the loop on one axis: the left edge plus the rounded
    distance to the right edge does not pass a whole bound of the right
    edge. *)
Lemma rn_there_and_back (Nv L R : Z) :
  0 < Nv -> 53 < Zdigits2 Nv ->
  Nv mod 2 ^ (Zdigits2 Nv - 53 + 1) = 0 ->
  0 <= L <= R -> R <= Nv ->
  rn (L + rn (R - L)) <= Nv.
Proof.
  intros HN HD Hev HL HR.
  assert (Pn : 0 < 2 ^ (Zdigits2 Nv - 53)) by (apply Z.pow_pos_nonneg; lia).
  pose proof (rn_nonneg (R - L) ltac:(lia)) as Nn.
  apply rn_upper; try assumption; [lia|].
  destruct (Z_le_gt_dec (Zdigits2 (R - L)) 53) as [S|B].
  - rewrite rn_small by exact S. lia.
  - unfold rn. replace (Z.max (Zdigits2 (R - L) - 53) 0) with (Zdigits2 (R - L) - 53) by lia.
    destruct (rne_bounds (R - L) (Zdigits2 (R - L) - 53) ltac:(lia) ltac:(lia))
      as (_ & H & _).
    pose proof (digits_mono (R - L) Nv ltac:(lia)) as Dm.
    assert (2 ^ (Zdigits2 (R - L) - 53) <= 2 ^ (Zdigits2 Nv - 53))
      by (apply Z.pow_le_mono_r; lia).
    lia.
Qed.

End RoundWhole.

(** * The logical union, one axis at a time *)

Section AxisBound.

Variable N : Z.
Hypothesis HN : 1 <= N < 2 ^ 52.

Lemma whole_bound :
  0 < N * 2 ^ 1074
  /\ 53 < Zdigits2 (N * 2 ^ 1074)
  /\ (N * 2 ^ 1074) mod 2 ^ (Zdigits2 (N * 2 ^ 1074) - 53 + 1) = 0
  /\ N * 2 ^ 1074 < 2 ^ 1999.
Proof using HN.
  destruct N as [|p|p] eqn:E; try lia.
  rewrite (digits_shift p 1074) by lia.
  pose proof (digits2_pos_bounds p) as [Lo Hi].
  assert (D : 1 <= Zpos (digits2_pos p) <= 52).
  { split; [lia|]. apply (Zdigits2_le (Zpos p) 52); lia. }
  assert (P : 0 < 2 ^ 1074) by (apply Z.pow_pos_nonneg; lia).
  split; [lia|]. split; [lia|]. split.
  - set (k := Zpos (digits2_pos p) + 1074 - 53 + 1).
    replace 1074 with (1074 - k + k) by lia.
    rewrite Z.pow_add_r by lia. rewrite Z.mul_assoc. apply Z.mod_mul.
    apply Z.pow_nonzero; lia.
  - apply Z.lt_le_trans with (2 ^ 52 * 2 ^ 1074); [nia|].
    rewrite <- Z.pow_add_r by lia. apply Z.pow_le_mono_r; lia.
Qed.

Lemma val_nonneg (x : qreal) : 0 <= val x.
Proof using Type.
  destruct x as [| | |[|] m e]; cbn [val]; try lia.
  all: try (apply Z.mul_nonneg_nonneg; [lia | apply Z.pow_nonneg; lia]).
Qed.

Lemma regular_not_negative (x : qreal) : regular x = true -> dltb x dzero = false.
Proof using Type.
  intros G. rewrite (dltb_val x dzero G eq_refl).
  change (val dzero) with 0. apply Z.ltb_ge, val_nonneg.
Qed.

Lemma qMax_val (a b : qreal) :
  regular a = true -> regular b = true ->
  regular (qMax a b) = true /\ val (qMax a b) = Z.max (val a) (val b).
Proof using Type.
  intros Ga Gb. unfold qMax. rewrite (dltb_val a b Ga Gb).
  destruct (Z.ltb_spec (val a) (val b)); split; try assumption; lia.
Qed.

Lemma qMin_either (a b : qreal) : qMin a b = a \/ qMin a b = b.
Proof using Type. unfold qMin. destruct (dltb a b); [now left | now right]. Qed.

(** Two parts within [N] have a union within [N]. *)
Lemma span_within (p s rp rs : qreal) :
  within N p s -> within N rp rs ->
  within N (fst (RectF.span p s rp rs))
           (dsub (snd (RectF.span p s rp rs)) (fst (RectF.span p s rp rs))).
Proof using HN.
  intros (Gp & Gs & Vp & Vs & Ga & Va) (Grp & Grs & Vrp & Vrs & Gb & Vb).
  destruct whole_bound as (W0 & W1 & W2 & W3).
  set (Nv := N * 2 ^ 1074) in *.
  assert (B2 : 2 ^ 1999 + 2 ^ 1999 = 2 ^ 2000).
  { change 2000 with (1999 + 1). rewrite Z.pow_add_r by lia. lia. }
  pose proof (val_nonneg p) as Pp. pose proof (val_nonneg s) as Ps.
  pose proof (val_nonneg rp) as Prp. pose proof (val_nonneg rs) as Prs.
  destruct (dadd_val p s Gp Gs ltac:(lia)) as [_ Ea].
  destruct (dadd_val rp rs Grp Grs ltac:(lia)) as [_ Eb].
  assert (La : val p <= val (dadd p s)).
  { rewrite Ea. apply rn_lower; [exact Gp | lia]. }
  assert (Lb : val rp <= val (dadd rp rs)).
  { rewrite Eb. apply rn_lower; [exact Grp | lia]. }
  unfold RectF.span.
  rewrite (regular_not_negative s Gs), (regular_not_negative rs Grs). cbn [fst snd].
  destruct (qMax_val (dadd p s) (dadd rp rs) Ga Gb) as [Gm Vm].
  set (rgt := qMax (dadd p s) (dadd rp rs)) in *.
  assert (Hl : regular (qMin p rp) = true /\ val (qMin p rp) <= val rgt).
  { destruct (qMin_either p rp) as [-> | ->]; split; try assumption; lia. }
  destruct Hl as [Gl Vl].
  set (lft := qMin p rp) in *.
  pose proof (val_nonneg lft) as Pl.
  destruct (dsub_val rgt lft Gm Gl Vl ltac:(lia)) as [Gd Vd].
  assert (Ud : val (dsub rgt lft) <= Nv).
  { assert (0 <= 2 ^ (Zdigits2 Nv - 53)) by (apply Z.pow_nonneg; lia).
    rewrite Vd. apply rn_upper; try assumption; lia. }
  pose proof (val_nonneg (dsub rgt lft)) as Pd.
  destruct (dadd_val lft (dsub rgt lft) Gl Gd ltac:(lia)) as [Gs' Vs'].
  unfold within. repeat split; try assumption; try lia.
  rewrite Vs', Vd.
  replace (val rgt) with (val lft + (val rgt - val lft)) at 1 by lia.
  replace (val lft + (val rgt - val lft) - val lft) with (val rgt - val lft) by lia.
  apply rn_there_and_back; try assumption; lia.
Qed.

End AxisBound.

Section Quotients.

(** The quotient of a whole number below [2^52] by a scale of at least 1
    is zero or a positive double of the format. *)
Lemma ddiv_regular (n : Z) (s : qreal) :
  0 <= n < 2 ^ 52 -> scaleAtLeastOne s = true ->
  regular (ddiv (double_of_int n) s) = true.
Proof.
  intros Hn Hs.
  destruct (scaleAtLeastOne_spec s Hs) as (m2 & e2 & -> & Bm2 & Dm2 & Be2).
  destruct n as [|p|p]; [reflexivity | | lia].
  destruct (double_of_int_shape p ltac:(lia)) as (c & ec & S0 & Bc & Dc & Ec & Vc).
  pose proof (S0 false) as Sf. cbn [cond_Zopp] in Sf. rewrite Sf.
  unfold ddiv, SFdiv.
  destruct (SFdiv_core_spec c ec m2 e2) as (q & r & l & -> & Hq & Hr & _).
  rewrite Dc, Dm2 in Hq |- *.
  set (e' := Z.min (Z.max (53 + ec - (53 + e2) - 53) (-1074)) (ec - e2)) in *.
  set (sh := ec - e2 - e') in *.
  assert (Hsh : 51 <= sh <= 53) by (unfold sh, e'; lia).
  pose proof (digits2_pos_bounds c) as Bd. rewrite Dc in Bd.
  change (53 - 1) with 52 in Bd.
  assert (P1 : 2 ^ sh = 2 ^ (sh - 1) * 2).
  { replace sh with (sh - 1 + 1) at 1 by lia. rewrite Z.pow_add_r by lia. lia. }
  assert (P2 : 2 ^ (sh + 1) = 2 ^ sh * 2) by (rewrite Z.pow_add_r by lia; lia).
  assert (P0 : 0 < 2 ^ (sh - 1)) by (apply Z.pow_pos_nonneg; lia).
  assert (Q1 : 2 ^ (sh - 1) <= q < 2 ^ (sh + 1)) by (split; nia).
  assert (Dq : sh <= Zdigits2 q <= sh + 1).
  { split.
    - destruct (Z_lt_le_dec (Zdigits2 q) sh) as [L|L]; [|exact L]. exfalso.
      pose proof (Zdigits2_ge q ltac:(lia)) as [_ U].
      assert (2 ^ Zdigits2 q <= 2 ^ (sh - 1)) by (apply Z.pow_le_mono_r; lia). lia.
    - apply Zdigits2_le; lia. }
  cbn [xorb].
  destruct (binary_round_aux_spec prec64 emax64 eq_refl false q e' l)
    as (m' & e'' & -> & B & _).
  - lia.
  - unfold e', emax64, prec64. lia.
  - rewrite (fexp_spec prec64 emax64). unfold e', sh, emax64, prec64 in *. lia.
  - rewrite (fexp_spec prec64 emax64). unfold e', sh, emax64, prec64 in *. lia.
  - exact B.
Qed.

(** Below a whole number, the value is below it too. *)
Lemma atMost_val (x : qreal) (n : Z) :
  regular x = true -> atMost x n -> 0 <= n -> val x <= n * 2 ^ 1074.
Proof.
  intros G A Hn.
  assert (P : 0 <= 2 ^ 1074) by (apply Z.pow_nonneg; lia).
  destruct (regular_finite x G) as [[s ->] | (m & e & -> & B)]; [cbn [val]; nia|].
  destruct (bounded64 m e B) as (E & _).
  destruct A as [He Hm]. cbn [val].
  replace 1074 with (- e + (e + 1074)) at 2 by lia.
  rewrite (Z.pow_add_r 2 (- e) (e + 1074)) by lia.
  assert (0 <= 2 ^ (e + 1074)) by (apply Z.pow_nonneg; lia). nia.
Qed.

Lemma val_atMost (x : qreal) (n : Z) :
  regular x = true -> val x <= n * 2 ^ 1074 -> 0 <= n < 2 ^ 52 -> atMost x n.
Proof.
  intros G V Hn.
  destruct (regular_finite x G) as [[s ->] | (m & e & -> & B)]; [exact I|].
  destruct (bounded64 m e B) as (E & _).
  apply (bounded_spec m e) in B. destruct B as [C _].
  pose proof (digits2_pos_bounds m) as [Lo Hi].
  cbn [val] in V. cbn [atMost].
  assert (P : 0 < 2 ^ (e + 1074)) by (apply Z.pow_pos_nonneg; lia).
  assert (He : e <= 0).
  { destruct (Z_le_gt_dec e 0) as [L|L]; [exact L|]. exfalso.
    assert (D : Zpos (digits2_pos m) = 53) by lia. rewrite D in Lo.
    change (53 - 1) with 52 in Lo.
    assert (2 ^ 1074 * 2 <= 2 ^ (e + 1074)).
    { change (2 ^ 1074 * 2) with (2 ^ 1075). apply Z.pow_le_mono_r; lia. }
    assert (0 < 2 ^ 1074) by (apply Z.pow_pos_nonneg; lia). nia. }
  split; [exact He|].
  replace 1074 with (- e + (e + 1074)) in V at 2 by lia.
  rewrite (Z.pow_add_r 2 (- e) (e + 1074)) in V by lia.
  assert (0 < 2 ^ (- e)) by (apply Z.pow_pos_nonneg; lia). nia.
Qed.

(** The corner [a] and the extent [b] of a screen, divided by its scale. *)
Lemma quotients_within (N a b : Z) (s : qreal) :
  1 <= N < 2 ^ 52 -> 0 <= a -> 0 <= b -> a + b <= N ->
  scaleAtLeastOne s = true ->
  within N (ddiv (double_of_int a) s) (ddiv (double_of_int b) s).
Proof.
  intros HN Ha Hb Hab Hs.
  destruct (whole_bound N HN) as (W0 & W1 & W2 & W3).
  pose proof (ddiv_regular a s ltac:(lia) Hs) as Ga.
  pose proof (ddiv_regular b s ltac:(lia) Hs) as Gb.
  destruct (ddiv_int_scale a a s ltac:(lia) ltac:(lia) Hs) as (Aa & _).
  destruct (ddiv_int_scale b b s ltac:(lia) ltac:(lia) Hs) as (Ab & _).
  pose proof (atMost_val _ _ Ga Aa Ha) as Va.
  pose proof (atMost_val _ _ Gb Ab Hb) as Vb.
  set (p := ddiv (double_of_int a) s) in *.
  set (w := ddiv (double_of_int b) s) in *.
  pose proof (val_nonneg p). pose proof (val_nonneg w).
  assert (P : 0 < 2 ^ 1074) by (apply Z.pow_pos_nonneg; lia).
  assert (B2 : 2 ^ 1999 + 2 ^ 1999 = 2 ^ 2000).
  { change 2000 with (1999 + 1). rewrite Z.pow_add_r by lia. lia. }
  destruct (dadd_val p w Ga Gb ltac:(nia)) as [Gs Vs].
  assert (0 <= 2 ^ (Zdigits2 (N * 2 ^ 1074) - 53)) by (apply Z.pow_nonneg; lia).
  unfold within. repeat split; try assumption; try nia.
  rewrite Vs. apply rn_upper; try assumption; nia.
Qed.

End Quotients.

Section GenericUnion.

Lemma null_within (N : Z) : 0 <= N -> within N dzero dzero.
Proof.
  intros HN. assert (0 <= 2 ^ 1074) by (apply Z.pow_nonneg; lia).
  unfold within. change (dadd dzero dzero) with dzero. change (val dzero) with 0.
  repeat split; try reflexivity; nia.
Qed.

Lemma united_within_x (N : Z) (a r : QRectF) :
  1 <= N < 2 ^ 52 ->
  within N (xp a) (w a) -> within N (xp r) (w r) ->
  within N (xp (RectF.united a r)) (w (RectF.united a r)).
Proof.
  intros HN Ha Hr. unfold RectF.united.
  destruct (RectF.isNull a); [exact Hr|].
  destruct (RectF.isNull r); [exact Ha|].
  pose proof (span_within N HN _ _ _ _ Ha Hr) as S.
  destruct (RectF.span (xp a) (w a) (xp r) (w r)) as [lft rgt].
  destruct (RectF.span (yp a) (h a) (yp r) (h r)) as [top bottom].
  exact S.
Qed.

Lemma united_within_y (N : Z) (a r : QRectF) :
  1 <= N < 2 ^ 52 ->
  within N (yp a) (h a) -> within N (yp r) (h r) ->
  within N (yp (RectF.united a r)) (h (RectF.united a r)).
Proof.
  intros HN Ha Hr. unfold RectF.united.
  destruct (RectF.isNull a); [exact Hr|].
  destruct (RectF.isNull r); [exact Ha|].
  pose proof (span_within N HN _ _ _ _ Ha Hr) as S.
  destruct (RectF.span (xp a) (w a) (xp r) (w r)) as [lft rgt].
  destruct (RectF.span (yp a) (h a) (yp r) (h r)) as [top bottom].
  exact S.
Qed.

(** The loop keeps an axis within [N]; [pos] and [ext] are the corner
    and the extent on that axis. *)
Lemma fold_united_within (N : Z) (pos ext : QRectF -> qreal) :
  (forall a r, within N (pos a) (ext a) -> within N (pos r) (ext r) ->
               within N (pos (RectF.united a r)) (ext (RectF.united a r))) ->
  forall (l : list QScreen) (acc : QRectF),
    within N (pos acc) (ext acc) ->
    Forall (fun s => within N (pos (logicalRect s)) (ext (logicalRect s))) l ->
    within N (pos (fold_left (fun geo s => RectF.united geo (logicalRect s)) l acc))
             (ext (fold_left (fun geo s => RectF.united geo (logicalRect s)) l acc)).
Proof.
  intros Hstep. induction l as [|s l IH]; intros acc Hacc Hl; [exact Hacc|].
  inversion Hl as [|? ? Hs Hl']; subst. cbn [fold_left].
  apply IH; [|exact Hl']. apply Hstep; assumption.
Qed.

(** Rounded outwards, an axis within [N] lies between 0 and [N]. *)
Lemma aligned_within (N : Z) (p s : qreal) :
  0 <= N < 2 ^ 52 -> within N p s ->
  0 <= dfloor p /\ dceil (dadd p s) <= N.
Proof.
  intros HN (Gp & _ & _ & _ & Ga & Va). split.
  - destruct (regular_finite p Gp) as [[sp ->] | (m & e & -> & B)]; [cbn; lia|].
    unfold dfloor. cbn [cond_Zopp].
    destruct (Z.leb_spec 0 e).
    + apply Z.mul_nonneg_nonneg; [lia | apply Z.pow_nonneg; lia].
    + apply Z.div_pos; [lia | apply Z.pow_pos_nonneg; lia].
  - pose proof (val_atMost _ N Ga Va HN) as A.
    destruct (regular_finite _ Ga) as [[sp E] | (m & e & E & B)]; rewrite E in *.
    + cbn. lia.
    + apply (dceil_atMost (S754_finite false m e) N I A).
Qed.

(** On the generic path the logical geometry is no wider than the
    physical one when that starts at [x = 0], whatever the order of the
    screens. *)
Lemma generic_width (l : list QScreen) :
  Forall modestScreen l ->
  x1 (screensUnion l) = 0 ->
  Rect.width (RectF.toAlignedRect (screensLogicalUnion l))
  <= Rect.width (screensUnion l).
Proof.
  intros Hl X0. destruct l as [|s0 l0]; [vm_compute; discriminate|].
  set (l := s0 :: l0) in *.
  assert (Hp : Forall (fun s => proper (geometry s)) l).
  { eapply Forall_impl; [|exact Hl]. intros s Hs. apply Hs. }
  destruct (screensUnion_hull s0 l0 Hp) as (Pu & Fenc & _ & _ & Ex2 & _).
  fold l in Pu, Fenc, Ex2. set (u := screensUnion l) in *.
  set (N := x2 u + 1).
  assert (HN : 1 <= N < 2 ^ 52).
  { apply Exists_exists in Ex2. destruct Ex2 as (r & In2 & Q).
    apply in_map_iff in In2. destruct In2 as (s & <- & In2).
    rewrite Forall_forall in Hl. destruct (Hl s In2) as (_ & _ & M & _).
    unfold modest in M. destruct Pu as [Pu _].
    assert (2 ^ 30 < 2 ^ 52) by (vm_compute; reflexivity). unfold N. lia. }
  assert (Hw : Forall (fun s => within N (xp (logicalRect s)) (w (logicalRect s))) l).
  { rewrite Forall_forall in *. intros s Hs.
    destruct (Hl s Hs) as (_ & _ & _ & _ & [Px _] & Sc).
    pose proof (Fenc s Hs) as En. cbv beta in En. unfold encloses in En.
    unfold logicalRect. cbn [xp w].
    apply quotients_within; try assumption;
      unfold Rect.x, Rect.width, N; lia. }
  pose proof (fold_united_within N xp w
                (fun a r => united_within_x N a r HN) l RectF.null
                (null_within N ltac:(lia)) Hw) as F.
  fold (screensLogicalUnion l) in F.
  destruct (aligned_within N _ _ ltac:(lia) F) as [F1 F2].
  unfold RectF.toAlignedRect, Rect.make, Rect.width. cbn [x1 x2].
  rewrite X0. unfold N in F2. lia.
Qed.

Lemma generic_height (l : list QScreen) :
  Forall modestScreen l ->
  y1 (screensUnion l) = 0 ->
  Rect.height (RectF.toAlignedRect (screensLogicalUnion l))
  <= Rect.height (screensUnion l).
Proof.
  intros Hl Y0. destruct l as [|s0 l0]; [vm_compute; discriminate|].
  set (l := s0 :: l0) in *.
  assert (Hp : Forall (fun s => proper (geometry s)) l).
  { eapply Forall_impl; [|exact Hl]. intros s Hs. apply Hs. }
  destruct (screensUnion_hull s0 l0 Hp) as (Pu & Fenc & _ & _ & _ & Ey2).
  fold l in Pu, Fenc, Ey2. set (u := screensUnion l) in *.
  set (N := y2 u + 1).
  assert (HN : 1 <= N < 2 ^ 52).
  { apply Exists_exists in Ey2. destruct Ey2 as (r & In2 & Q).
    apply in_map_iff in In2. destruct In2 as (s & <- & In2).
    rewrite Forall_forall in Hl. destruct (Hl s In2) as (_ & _ & _ & M & _).
    unfold modest in M. destruct Pu as [_ Pu].
    assert (2 ^ 30 < 2 ^ 52) by (vm_compute; reflexivity). unfold N. lia. }
  assert (Hw : Forall (fun s => within N (yp (logicalRect s)) (h (logicalRect s))) l).
  { rewrite Forall_forall in *. intros s Hs.
    destruct (Hl s Hs) as (_ & _ & _ & _ & [_ Py] & Sc).
    pose proof (Fenc s Hs) as En. cbv beta in En. unfold encloses in En.
    unfold logicalRect. cbn [yp h].
    apply quotients_within; try assumption;
      unfold Rect.y, Rect.height, N; lia. }
  pose proof (fold_united_within N yp h
                (fun a r => united_within_y N a r HN) l RectF.null
                (null_within N ltac:(lia)) Hw) as F.
  fold (screensLogicalUnion l) in F.
  destruct (aligned_within N _ _ ltac:(lia) F) as [F1 F2].
  unfold RectF.toAlignedRect, Rect.make, Rect.height. cbn [y1 y2].
  rewrite Y0. unfold N in F2. lia.
Qed.

End GenericUnion.

Section HyprlandUnion.

(** [toInt] of a double that is at most a whole number [n]. *)
Lemma toInt_atMost (v : qreal) (n : Z) :
  atMost v n -> 0 <= n < 2 ^ 31 -> 0 <= toInt v <= n.
Proof.
  intros A Hn.
  assert (R : 0 <= llround v <= n).
  { destruct v as [s| | |[|] m e]; try contradiction; [cbn; lia|].
    destruct A as [He Hm]. unfold llround. cbn [cond_Zopp].
    assert (B : 0 <= round_half_away m e <= n).
    { unfold round_half_away. destruct (Z.leb_spec 0 e) as [L|L].
      - replace e with 0 in * by lia. rewrite Z.pow_0_r in *. lia.
      - assert (P : 0 < 2 ^ (- e)) by (apply Z.pow_pos_nonneg; lia).
        rewrite Z.pow_add_r by lia. split.
        + apply Z.div_pos; lia.
        + apply Z.lt_succ_r. apply Z.div_lt_upper_bound; [lia|]. nia. }
    replace ((LLONG_MIN <=? round_half_away m e) && (round_half_away m e <=? LLONG_MAX))
      with true; [exact B|].
    symmetry. apply andb_true_iff. unfold LLONG_MIN, LLONG_MAX.
    assert (2 ^ 31 < 2 ^ 63) by (vm_compute; reflexivity).
    split; apply Z.leb_le; lia. }
  unfold toInt, int_of_longlong.
  change (2 ^ 32) with (2 ^ 31 + 2 ^ 31).
  rewrite Z.mod_small by lia. lia.
Qed.

Lemma scale_positive (s : qreal) : scaleAtLeastOne s = true -> dleb s dzero = false.
Proof.
  intros Hs. destruct (scaleAtLeastOne_spec s Hs) as (m & e & -> & _). reflexivity.
Qed.

(** The body of the loop on a monitor given by whole numbers. *)
Lemma monitorEntry_scaled (p l : QRect) (g : bool) (v : QJsonValue)
      (m : Z * Z * Z * Z) (s : qreal) :
  scaledMonitor v m s -> scaleAtLeastOne s = true ->
  monitorEntry (p, l, g) v
  = if shown m
    then (Rect.united p (monitorRect m), Rect.united l (logicalMonitorRect m s), true)
    else (p, l, g).
Proof.
  destruct m as [[[x y] width] height].
  intros (Hx & Hy & Hw & Hh & obj & -> & Vx & Vy & Vw & Vh & Sc) Hs.
  unfold modest in *. cbn [monitorEntry shown monitorRect logicalMonitorRect].
  rewrite Sc, Vx, Vy, Vw, Vh. cbn [Json.toDouble].
  change dzero with (double_of_int 0).
  rewrite (dleb_int width 0), (dleb_int height 0) by lia.
  change (double_of_int 0) with dzero. rewrite (scale_positive s Hs).
  rewrite !toInt_int by (unfold INT_MAX; lia).
  rewrite orb_false_r.
  destruct (Z.leb_spec width 0), (Z.leb_spec height 0),
           (Z.ltb_spec 0 width), (Z.ltb_spec 0 height); try lia; reflexivity.
Qed.

Lemma fold_monitorEntry_scaled (items : list QJsonValue)
      (ms : list (Z * Z * Z * Z * qreal)) :
  scaledMonitors items ms ->
  forall p l g,
    fold_left monitorEntry items (p, l, g)
    = (fold_left (fun u e => Rect.united u (monitorRect (fst e)))
                 (filter (fun e => shown (fst e)) ms) p,
       fold_left (fun u e => Rect.united u (logicalMonitorRect (fst e) (snd e)))
                 (filter (fun e => shown (fst e)) ms) l,
       g || existsb (fun e => shown (fst e)) ms).
Proof.
  induction 1 as [|v e items ms [Hv Hs] _ IH]; intros p l g.
  - cbn. now rewrite orb_false_r.
  - cbn [fold_left filter existsb].
    rewrite (monitorEntry_scaled p l g v (fst e) (snd e) Hv Hs).
    destruct (shown (fst e)).
    + cbn [fold_left]. rewrite IH. now rewrite orb_true_r.
    + rewrite IH. reflexivity.
Qed.

(** [QRect::united] keeps an axis between 0 and [N]. *)
Lemma united_spans_x (N : Z) (a r : QRect) :
  spans N (x1 a) (x2 a) -> spans N (x1 r) (x2 r) ->
  spans N (x1 (Rect.united a r)) (x2 (Rect.united a r)).
Proof.
  intros Ha Hr. unfold Rect.united.
  destruct (Rect.isNull a); [exact Hr|].
  destruct (Rect.isNull r); [exact Ha|].
  unfold spans in *.
  destruct (Z.ltb_spec (x2 a) (x1 a - 1)); [lia|].
  destruct (Z.ltb_spec (x2 r) (x1 r - 1)); [lia|].
  destruct (y2 a <? y1 a - 1), (y2 r <? y1 r - 1); cbn [x1 x2]; lia.
Qed.

Lemma united_spans_y (N : Z) (a r : QRect) :
  spans N (y1 a) (y2 a) -> spans N (y1 r) (y2 r) ->
  spans N (y1 (Rect.united a r)) (y2 (Rect.united a r)).
Proof.
  intros Ha Hr. unfold Rect.united.
  destruct (Rect.isNull a); [exact Hr|].
  destruct (Rect.isNull r); [exact Ha|].
  unfold spans in *.
  destruct (Z.ltb_spec (y2 a) (y1 a - 1)); [lia|].
  destruct (Z.ltb_spec (y2 r) (y1 r - 1)); [lia|].
  destruct (x2 a <? x1 a - 1), (x2 r <? x1 r - 1); cbn [y1 y2]; lia.
Qed.

Lemma fold_united_spans {E : Type} (N : Z) (lo hi : QRect -> Z) (rect : E -> QRect) :
  (forall a r, spans N (lo a) (hi a) -> spans N (lo r) (hi r) ->
               spans N (lo (Rect.united a r)) (hi (Rect.united a r))) ->
  forall (l : list E) (acc : QRect),
    spans N (lo acc) (hi acc) ->
    Forall (fun e => spans N (lo (rect e)) (hi (rect e))) l ->
    spans N (lo (fold_left (fun u e => Rect.united u (rect e)) l acc))
            (hi (fold_left (fun u e => Rect.united u (rect e)) l acc)).
Proof.
  intros Hstep. induction l as [|e l IH]; intros acc Hacc Hl; [exact Hacc|].
  inversion Hl as [|? ? He Hl']; subst. cbn [fold_left].
  apply IH; [|exact Hl']. apply Hstep; assumption.
Qed.

(** The quotients of a corner [a] and an extent [b], as [int]s. *)
Lemma quotients_span (N a b : Z) (s : qreal) :
  0 <= a < 2 ^ 30 -> 0 <= b < 2 ^ 30 -> a + b <= N ->
  scaleAtLeastOne s = true ->
  spans N (toInt (ddiv (double_of_int a) s))
          (toInt (ddiv (double_of_int a) s)
           + toInt (ddiv (double_of_int b) s) - 1).
Proof.
  intros Ha Hb Hab Hs.
  assert (2 ^ 30 < 2 ^ 31) by (vm_compute; reflexivity).
  assert (2 ^ 31 < 2 ^ 52) by (vm_compute; reflexivity).
  destruct (ddiv_int_scale a a s ltac:(lia) ltac:(lia) Hs) as (Aa & _).
  destruct (ddiv_int_scale b b s ltac:(lia) ltac:(lia) Hs) as (Ab & _).
  pose proof (toInt_atMost _ a Aa ltac:(lia)).
  pose proof (toInt_atMost _ b Ab ltac:(lia)).
  unfold spans. lia.
Qed.

(** The physical union of the monitors that are shown encloses each. *)
Lemma monitors_hull (es : list (Z * Z * Z * Z * qreal)) :
  Forall (fun e => shown (fst e) = true) es ->
  let u := fold_left (fun u e => Rect.united u (monitorRect (fst e))) es Rect.null in
  Forall (fun e => encloses u (monitorRect (fst e))) es
  /\ (es <> [] -> proper u).
Proof.
  intros Hs.
  assert (Hp : forall e : Z * Z * Z * Z * qreal,
             shown (fst e) = true -> proper (monitorRect (fst e))).
  { intros [[[[x y] width] height] s]. cbn [fst shown monitorRect].
    intros Q. apply andb_true_iff in Q. destruct Q as [Q1 Q2].
    apply Z.ltb_lt in Q1, Q2. unfold proper, Rect.make. cbn [x1 x2 y1 y2]. lia. }
  destruct es as [|e es]; [split; [constructor | intros Q; now elim Q]|].
  inversion Hs as [|? ? He Hes]; subst.
  cbn [fold_left]. rewrite united_null_l.
  set (mk := fun e : Z * Z * Z * Z * qreal => mkQScreen (monitorRect (fst e)) (snd e)).
  change (fun u e => Rect.united u (monitorRect (fst e)))
    with (fun u e => (fun geo s => Rect.united geo (geometry s)) u (mk e)).
  rewrite (fold_left_map (fun geo s => Rect.united geo (geometry s)) mk).
  destruct (fold_united_hull (map mk es) (monitorRect (fst e)) (Hp e He))
    as (Pu & E0 & F & _).
  { apply Forall_forall. intros s Hin. apply in_map_iff in Hin.
    destruct Hin as (e' & <- & Hin). cbn [mk geometry].
    rewrite Forall_forall in Hes. apply Hp, Hes, Hin. }
  cbv zeta. split; [|intros _; exact Pu].
  constructor; [exact E0|].
  rewrite Forall_forall in *. intros e' Hin.
  apply (F (mk e')). apply in_map. exact Hin.
Qed.

(** The two unions of the loop over monitors given by whole numbers:
    the logical one is no wider than the physical one when that starts at
    [x = 0], and no higher when it starts at [y = 0]. *)
Lemma monitorLoop_within (items : list QJsonValue)
      (ms : list (Z * Z * Z * Z * qreal)) :
  scaledMonitors items ms ->
  let physical := fst (fst (monitorLoop items)) in
  let logical := snd (fst (monitorLoop items)) in
  (x1 physical = 0 -> Rect.width logical <= Rect.width physical)
  /\ (y1 physical = 0 -> Rect.height logical <= Rect.height physical).
Proof.
  intros H. unfold monitorLoop.
  rewrite (fold_monitorEntry_scaled items ms H). cbn [fst snd].
  set (es := filter (fun e => shown (fst e)) ms).
  assert (Hes : Forall (fun e => shown (fst e) = true) es).
  { apply Forall_forall. intros e Hin. apply filter_In in Hin. apply Hin. }
  assert (Hms : Forall (fun e => (modest (fst (fst (fst (fst e))))
                                  /\ modest (snd (fst (fst (fst e))))
                                  /\ modest (snd (fst (fst e)))
                                  /\ modest (snd (fst e)))
                                 /\ 0 < snd (fst (fst e)) /\ 0 < snd (fst e)
                                 /\ scaleAtLeastOne (snd e) = true) es).
  { apply Forall_forall. intros e Hin. apply filter_In in Hin.
    destruct Hin as [Hin Sh].
    assert (Q : exists v, scaledMonitor v (fst e) (snd e)
                          /\ scaleAtLeastOne (snd e) = true).
    { clear - H Hin. induction H as [|v e' items ms Hv _ IH]; [contradiction|].
      destruct Hin as [-> | Hin]; [exists v; exact Hv | apply IH, Hin]. }
    destruct Q as (v & Hv & Hs).
    destruct e as [[[[x y] width] height] s]. cbn [fst snd] in *.
    destruct Hv as (Hx & Hy & Hw & Hh & _).
    apply andb_true_iff in Sh. destruct Sh as [S1 S2].
    apply Z.ltb_lt in S1, S2. repeat split; try assumption; apply Hx || apply Hy
      || apply Hw || apply Hh. }
  destruct (monitors_hull es Hes) as [Fenc Pu].
  set (u := fold_left (fun u e => Rect.united u (monitorRect (fst e))) es Rect.null) in *.
  destruct es as [|e0 es0] eqn:Ees.
  { cbn in u. subst u. cbn. split; intros _; unfold Rect.width, Rect.height; cbn; lia. }
  rewrite <- Ees in *. specialize (Pu ltac:(rewrite Ees; discriminate)).
  assert (B : 2 ^ 30 + 2 ^ 30 = 2 ^ 31) by (vm_compute; reflexivity).
  split.
  - intros X0. set (N := x2 u + 1).
    assert (HN : 0 <= N) by (destruct Pu; unfold N; lia).
    assert (Hsp : Forall (fun e => spans N (x1 (logicalMonitorRect (fst e) (snd e)))
                                         (x2 (logicalMonitorRect (fst e) (snd e)))) es).
    { rewrite Forall_forall in *. intros e Hin.
      pose proof (Fenc e Hin) as En. destruct (Hms e Hin) as (Hm & W & Hh & Sc).
      destruct e as [[[[x y] width] height] s]. cbn [fst snd] in *.
      unfold encloses, monitorRect, Rect.make in En. cbn [x1 x2 y1 y2] in En.
      unfold logicalMonitorRect, Rect.make. cbn [x1 x2].
      unfold modest in Hm.
      apply quotients_span; try assumption; unfold N; lia. }
    pose proof (fold_united_spans N x1 x2
                  (fun e => logicalMonitorRect (fst e) (snd e))
                  (united_spans_x N) es Rect.null
                  ltac:(unfold spans; cbn; lia) Hsp) as F.
    unfold spans in F. unfold Rect.width. unfold N in F. lia.
  - intros Y0. set (N := y2 u + 1).
    assert (HN : 0 <= N) by (destruct Pu; unfold N; lia).
    assert (Hsp : Forall (fun e => spans N (y1 (logicalMonitorRect (fst e) (snd e)))
                                         (y2 (logicalMonitorRect (fst e) (snd e)))) es).
    { rewrite Forall_forall in *. intros e Hin.
      pose proof (Fenc e Hin) as En. destruct (Hms e Hin) as (Hm & W & Hh & Sc).
      destruct e as [[[[x y] width] height] s]. cbn [fst snd] in *.
      unfold encloses, monitorRect, Rect.make in En. cbn [x1 x2 y1 y2] in En.
      unfold logicalMonitorRect, Rect.make. cbn [y1 y2].
      unfold modest in Hm.
      apply quotients_span; try assumption; unfold N; lia. }
    pose proof (fold_united_spans N y1 y2
                  (fun e => logicalMonitorRect (fst e) (snd e))
                  (united_spans_y N) es Rect.null
                  ltac:(unfold spans; cbn; lia) Hsp) as F.
    unfold spans in F. unfold Rect.height. unfold N in F. lia.
Qed.

End HyprlandUnion.

Section RatioBound.

(** The integer quotient that [SFdiv] rounds, in either format. *)
Lemma SFdiv_core_quotient (prec emax : Z) (m1 : positive) (e1 : Z)
      (m2 : positive) (e2 : Z) :
  let e' := Z.min (fexp prec emax (Zpos (digits2_pos m1) + e1
                                   - (Zpos (digits2_pos m2) + e2)))
                  (e1 - e2) in
  exists q r l,
    SFdiv_core_binary prec emax (Zpos m1) e1 (Zpos m2) e2 = (q, e', l)
    /\ Zpos m1 * 2 ^ (e1 - e2 - e') = Zpos m2 * q + r
    /\ 0 <= r < Zpos m2.
Proof.
  intros e'. unfold SFdiv_core_binary.
  change (Zdigits2 (Zpos m1)) with (Zpos (digits2_pos m1)).
  change (Zdigits2 (Zpos m2)) with (Zpos (digits2_pos m2)).
  cbv zeta. fold e'.
  set (sh := e1 - e2 - e').
  assert (Hsh : 0 <= sh) by (unfold sh, e'; lia).
  set (m' := match sh with
             | 0 => Zpos m1
             | Zpos _ => Z.shiftl (Zpos m1) sh
             | Zneg _ => 0
             end).
  assert (Hm' : m' = Zpos m1 * 2 ^ sh).
  { unfold m'. destruct sh as [|k|k]; [rewrite Z.pow_0_r; lia | | lia].
    apply Z.shiftl_mul_pow2. lia. }
  pose proof (Z_div_mod m' (Zpos m2) ltac:(lia)) as DM.
  destruct (Z.div_eucl m' (Zpos m2)) as [q r].
  exists q, r, (new_location (Zpos m2) r).
  split; [reflexivity|]. rewrite <- Hm'. split; apply DM.
Qed.

(** The ratio of two heights below [2^24] is their quotient up to the
    last digit of a [float]: it differs from the quotient by at most the
    fraction [2^-23] of it. *)
Lemma heightRatio_close (a b : Z) :
  1 <= a < 2 ^ 24 -> 1 <= b < 2 ^ 24 ->
  regular (heightRatio a b) = true
  /\ 2 ^ 23 * Z.abs (val (heightRatio a b) * b - a * 2 ^ 1074) <= a * 2 ^ 1074.
Proof.
  intros Ha Hb.
  destruct a as [|pa|pa]; try lia. destruct b as [|pb|pb]; try lia.
  destruct (float_of_int_shape pa ltac:(lia)) as (c1 & e1 & F1 & B1 & D1 & _ & E1 & V1).
  destruct (float_of_int_shape pb ltac:(lia)) as (c2 & e2 & F2 & B2 & D2 & _ & E2 & V2).
  unfold heightRatio. rewrite F1, F2, (fmul_one false c1 e1 B1).
  unfold fdiv, SFdiv.
  destruct (SFdiv_core_quotient prec32 emax32 c1 e1 c2 e2) as (q & r & l & -> & Hq & Hr).
  rewrite D1, D2 in Hq |- *. rewrite (fexp_spec prec32 emax32) in Hq |- *.
  unfold prec32, emax32 in Hq |- *.
  replace (Z.min (Z.max (24 + e1 - (24 + e2) - 24) (3 - 128 - 24)) (e1 - e2))
    with (e1 - e2 - 24) in * by lia.
  replace (e1 - e2 - (e1 - e2 - 24)) with 24 in Hq by lia.
  set (e' := e1 - e2 - 24) in *.
  pose proof (digits2_pos_bounds c1) as Bd1. rewrite D1 in Bd1.
  pose proof (digits2_pos_bounds c2) as Bd2. rewrite D2 in Bd2.
  change (24 - 1) with 23 in Bd1, Bd2.
  change (2 ^ 23) with 8388608 in *. change (2 ^ 24) with 16777216 in *.
  assert (Q1 : 8388608 <= q < 33554432) by (split; nia).
  assert (Dq : 24 <= Zdigits2 q <= 25).
  { split.
    - destruct (Z_lt_le_dec (Zdigits2 q) 24) as [L|L]; [|exact L]. exfalso.
      pose proof (Zdigits2_ge q ltac:(lia)) as [_ U].
      assert (2 ^ Zdigits2 q <= 2 ^ 23) by (apply Z.pow_le_mono_r; lia).
      change (2 ^ 23) with 8388608 in *. lia.
    - apply Zdigits2_le; [|lia]. change (2 ^ 25) with 33554432. lia. }
  cbn [xorb].
  set (k := Zdigits2 q - 24) in *.
  destruct (binary_round_aux_spec 24 128 eq_refl false q e' l)
    as (m' & e'' & -> & B & Ht & HQ & _).
  { lia. }
  { unfold e'. lia. }
  { rewrite (fexp_spec 24 128). unfold e'. lia. }
  { rewrite (fexp_spec 24 128). unfold e'. lia. }
  rewrite (fexp_spec 24 128) in Ht, HQ.
  replace (Z.max (Zdigits2 q + e' - 24) (3 - 128 - 24)) with (e' + k) in *
    by (unfold e', k; lia).
  replace (e' + k - e') with k in HQ by lia.
  (* the float is normal: 24 digits *)
  apply (bounded_iff 24 128) in B. destruct B as [C Hmax].
  assert (Dm : Zpos (digits2_pos m') = 24) by (unfold e' in *; lia).
  (* the double of the same value *)
  assert (W : double_of_float (S754_finite false m' e'')
              = S754_finite false (m' * 536870912) (e'' - 29)).
  { cbn [double_of_float].
    apply (binary_round_exact prec64 emax64).
    - apply (bounded_iff prec64 emax64).
      change (Zpos (digits2_pos (m' * 536870912)))
        with (Zdigits2 (Zpos m' * 2 ^ 29)).
      rewrite (digits_shift m' 29) by lia. rewrite Dm.
      unfold prec64, emax64, e' in *. lia.
    - replace (Z.min e'' (e'' - 29)) with (e'' - 29) by lia.
      replace (e'' - (e'' - 29)) with 29 by lia.
      rewrite Z.sub_diag, Z.pow_0_r, Pos2Z.inj_mul.
      change (2 ^ 29) with 536870912. lia. }
  rewrite W. split.
  - cbn [regular]. apply (bounded_iff prec64 emax64).
    change (Zpos (digits2_pos (m' * 536870912)))
      with (Zdigits2 (Zpos m' * 2 ^ 29)).
    rewrite (digits_shift m' 29) by lia. rewrite Dm.
    unfold prec64, emax64, e' in *. lia.
  - cbn [val]. rewrite Pos2Z.inj_mul.
    change (Zpos 536870912) with (2 ^ 29).
    (* everything in units of [2^T] *)
    set (Q := Zpos m' * 2 ^ (e'' - (e' + k))) in *.
    assert (Hk : 0 <= k <= 1) by (unfold k; lia).
    destruct (digits_div q k ltac:(lia) ltac:(unfold k; lia)) as [Fp Fd].
    set (F := q / 2 ^ k) in *.
    assert (F23 : 8388608 <= F).
    { pose proof (Zdigits2_ge F Fp) as [Lo _].
      replace (Zdigits2 F - 1) with 23 in Lo by (unfold k in Fd; lia).
      change (2 ^ 23) with 8388608 in Lo. exact Lo. }
    pose proof (Z.div_mod q (2 ^ k) ltac:(apply Z.pow_nonzero; lia)) as DMq.
    pose proof (Z.mod_pos_bound q (2 ^ k) ltac:(apply Z.pow_pos_nonneg; lia)) as Bq.
    fold F in DMq.
    set (T := e' + k + 1074).
    assert (HT : 0 <= T - 24 - e2) by (unfold T, e'; lia).
    assert (Eval : Zpos m' * 2 ^ 29 * 2 ^ (e'' - 29 + 1074) = Q * 2 ^ T).
    { unfold Q, T. rewrite <- !Z.mul_assoc, <- !Z.pow_add_r by (unfold e' in *; lia).
      f_equal. f_equal. lia. }
    rewrite Eval.
    (* [c2 * Q] is within [c2] of [c1 * 2^(24 - k)] *)
    assert (P24 : 2 ^ 24 = 2 ^ (24 - k) * 2 ^ k)
      by (rewrite <- Z.pow_add_r by lia; f_equal; lia).
    assert (Pk : 0 < 2 ^ k) by (apply Z.pow_pos_nonneg; lia).
    assert (P24k : 0 < 2 ^ (24 - k)) by (apply Z.pow_pos_nonneg; lia).
    set (A := Zpos c1 * 2 ^ (24 - k)).
    assert (EA : A * 2 ^ k = Zpos c2 * q + r).
    { unfold A. rewrite <- Z.mul_assoc, <- P24. exact Hq. }
    assert (HA : Zpos c2 * F <= A < Zpos c2 * (F + 1)).
    { split.
      - apply Z.mul_le_mono_pos_r with (2 ^ k); [exact Pk|]. rewrite EA.
        assert (Zpos c2 * (F * 2 ^ k) <= Zpos c2 * q)
          by (apply Z.mul_le_mono_nonneg_l; lia).
        lia.
      - apply Z.mul_lt_mono_pos_r with (2 ^ k); [exact Pk|]. rewrite EA.
        assert (Zpos c2 * (q + 1) <= Zpos c2 * ((F + 1) * 2 ^ k))
          by (apply Z.mul_le_mono_nonneg_l; lia).
        lia. }
    assert (HcQ : Z.abs (Zpos c2 * Q - A) <= Zpos c2).
    { assert (EQ : Q = F \/ Q = F + 1) by lia.
      destruct EQ as [EQ | EQ]; rewrite EQ; lia. }
    assert (H23 : 8388608 * Zpos c2 <= A).
    { assert (Zpos c2 * 8388608 <= Zpos c2 * F)
        by (apply Z.mul_le_mono_nonneg_l; lia).
      lia. }
    (* back to the heights *)
    set (U := 2 ^ (T - 24 - e2 + k)).
    assert (PU : 0 < U) by (apply Z.pow_pos_nonneg; lia).
    assert (E_b : Q * 2 ^ T * Zpos pb * 2 ^ (- e2) = Zpos c2 * Q * 2 ^ T) by (rewrite V2; lia).
    assert (E_a : Zpos pa * 2 ^ 1074 * 2 ^ (- e2) = A * 2 ^ T).
    { unfold A, T. rewrite V1, <- !Z.mul_assoc, <- !Z.pow_add_r by (unfold e' in *; lia).
      f_equal. f_equal. unfold e'. lia. }
    assert (P2 : 0 < 2 ^ (- e2)) by (apply Z.pow_pos_nonneg; lia).
    assert (PT : 0 < 2 ^ T) by (apply Z.pow_pos_nonneg; unfold T, e'; lia).
    apply Z.mul_le_mono_pos_r with (2 ^ (- e2)); [exact P2|].
    rewrite <- Z.mul_assoc, <- (Z.abs_eq (2 ^ (- e2))) at 1 by lia.
    rewrite <- Z.abs_mul, Z.mul_sub_distr_r.
    rewrite E_b, E_a, <- Z.mul_sub_distr_r, Z.abs_mul, (Z.abs_eq (2 ^ T)) by lia.
    nia.
Qed.

End RatioBound.

(** ** C8: the logical geometry within the physical one *)

(** C8, amended. When the physical geometry has its corner at [x = 0], the
    logical geometry is at most as wide, and when it has its corner at
    [y = 0], the logical geometry is at most as high, in whatever order
    the outputs are listed: on the generic path for screens of at least
    one pixel with modest coordinates and finite scales of at least 1, and
    on the Hyprland path for monitors given by modest whole numbers at
    finite scales of at least 1. *)
Theorem logical_within_physical (env : Env) :
  (genericPath env = true -> Forall modestScreen (screens env)) ->
  (genericPath env = false ->
   forall items, hyprctlJson env = Some (JArray items) ->
                 exists ms, scaledMonitors items ms) ->
  exists physical logical,
    result (desktopGeometry env) = Some physical
    /\ result (logicalDesktopGeometry env) = Some logical
    /\ (Rect.x physical = 0 ->
        wd (Rect.size logical) <= wd (Rect.size physical))
    /\ (Rect.y physical = 0 ->
        ht (Rect.size logical) <= ht (Rect.size physical)).
Proof.
  intros Hgen Hhypr. destruct (genericPath env) eqn:G.
  - destruct (generic_geometries env G) as [P L].
    exists (screensUnion (screens env)),
           (RectF.toAlignedRect (screensLogicalUnion (screens env))).
    split; [exact P|]. split; [exact L|].
    unfold Rect.size, Rect.x, Rect.y. cbn [wd ht]. split; intros Z0.
    + apply generic_width; [apply Hgen; reflexivity | exact Z0].
    + apply generic_height; [apply Hgen; reflexivity | exact Z0].
  - unfold genericPath in G. apply negb_false_iff in G.
    pose proof G as G'. apply andb_true_iff in G'. destruct G' as [_ Q].
    apply negb_true_iff in Q. unfold queryFails in Q.
    apply orb_false_iff in Q. destruct Q as [_ Q].
    destruct (hyprctlJson env) as [[| | | | |items|]|] eqn:J; try discriminate Q.
    assert (R : forall p l,
               result (hyprlandDesktopGeometries env p l)
               = Some (true, fst (fst (monitorLoop items)),
                       snd (fst (monitorLoop items)))).
    { intros p l. now rewrite hyprlandDesktopGeometries_result, G, J. }
    exists (fst (fst (monitorLoop items))), (snd (fst (monitorLoop items))).
    split; [unfold desktopGeometry; now rewrite result_bind, R|].
    split; [unfold logicalDesktopGeometry; now rewrite result_bind, R|].
    destruct (Hhypr eq_refl items eq_refl) as [ms Hms].
    exact (monitorLoop_within items ms Hms).
Qed.

Lemma logical_within_physical_witness :
  (result (desktopGeometry SampleOrder.reversed) = Some (Rect.make 0 0 4480 3240)
   /\ result (logicalDesktopGeometry SampleOrder.reversed)
      = Some (Rect.make 0 0 3584 1620))
  /\ (result (desktopGeometry SampleScaled.rightFirst) = Some (Rect.make 0 0 4480 1440)
      /\ result (logicalDesktopGeometry SampleScaled.rightFirst)
         = Some (Rect.make 0 0 3584 1152)).
Proof.
  split.
  - destruct (logical_within_physical SampleOrder.reversed) as (p & l & P & L & _).
    + intros _. repeat constructor; vm_compute; reflexivity || discriminate.
    + intros G. vm_compute in G. discriminate G.
    + vm_compute in P, L. injection P as <-. injection L as <-.
      split; vm_compute; reflexivity.
  - destruct (logical_within_physical SampleScaled.rightFirst) as (p & l & P & L & _).
    + intros G. vm_compute in G. discriminate G.
    + intros _ items J. injection J as <-.
      exists [((1920, 0, 2560, 1440), dyadic 5 (-2)); ((0, 0, 1920, 1080), done)].
      repeat constructor; try (vm_compute; reflexivity || discriminate).
      * eexists. repeat split; reflexivity.
      * eexists. repeat split; reflexivity.
    + vm_compute in P, L. injection P as <-. injection L as <-.
      split; vm_compute; reflexivity.
Defined.

(** ** C1: the three cases and the ratio of the heights *)

(** C1. [adjustDevicePixelRatio] looks at the size of the image and at the
    two desktop geometries. An image of the size of the physical geometry
    gets the ratio of the application; otherwise, an image that has not the
    size of the logical geometry either gets the ratio of its height to the
    logical height; otherwise, the image has the size of the logical
    geometry and is left as it is. The ratio is the [float] quotient of the
    [float] product of the height of the image and [1.0f] by the logical
    height, widened to a [double]: for a height that is a whole multiple
    of the logical height it is that multiple (2000 to 1000 gives 2.0),
    and for all heights below [2^24] it differs from the quotient by at
    most the fraction [2^-23] of it. Setting the ratio of an image (a
    pixmap that is not null) stores it and keeps the size. *)
Theorem adjust_three_cases (env : Env) (pixmap : QPixmap) :
  exists physicalGeo logicalGeo,
    result (desktopGeometry env) = Some physicalGeo
    /\ result (logicalDesktopGeometry env) = Some logicalGeo
    /\ (Pix.size pixmap = Rect.size physicalGeo ->
        result (adjustDevicePixelRatio env pixmap)
        = Some (Pix.setDevicePixelRatio pixmap (appDevicePixelRatio env)))
    /\ (Pix.size pixmap <> Rect.size physicalGeo ->
        Pix.size pixmap <> Rect.size logicalGeo ->
        result (adjustDevicePixelRatio env pixmap)
        = Some (Pix.setDevicePixelRatio pixmap
                  (heightRatio (Pix.height pixmap) (Rect.height logicalGeo))))
    /\ (Pix.size pixmap <> Rect.size physicalGeo ->
        Pix.size pixmap = Rect.size logicalGeo ->
        result (adjustDevicePixelRatio env pixmap) = Some pixmap)
    /\ heightRatio 2000 1000 = dyadic 2 0
    /\ (forall width height ratio scaleFactor,
          Pix.setDevicePixelRatio (Pixmap width height ratio) scaleFactor
          = Pixmap width height scaleFactor)
    /\ (forall a b,
          heightRatio a b
          = double_of_float
              (SFdiv prec32 emax32
                 (SFmul prec32 emax32
                    (binary_normalize prec32 emax32 a 0 false)
                    (binary_normalize prec32 emax32 1 0 false))
                 (binary_normalize prec32 emax32 b 0 false)))
    /\ (forall k height,
          1 <= k -> 1 <= height -> k * height < 2 ^ 24 ->
          heightRatio (k * height) height = double_of_int k)
    /\ (forall a b,
          1 <= a < 2 ^ 24 -> 1 <= b < 2 ^ 24 ->
          nearQuotient (heightRatio a b) a b 23).
Proof.
  destruct (returns_result _ (desktopGeometry_returns env)) as [physicalGeo P].
  destruct (returns_result _ (logicalDesktopGeometry_returns env)) as [logicalGeo L].
  exists physicalGeo, logicalGeo.
  assert (R : result (adjustDevicePixelRatio env pixmap)
              = Some
                  (if QSize_eqb (Pix.size pixmap) (Rect.size physicalGeo)
                   then Pix.setDevicePixelRatio pixmap (appDevicePixelRatio env)
                   else if negb (QSize_eqb (Pix.size pixmap) (Rect.size logicalGeo))
                   then Pix.setDevicePixelRatio pixmap
                          (heightRatio (Pix.height pixmap) (Rect.height logicalGeo))
                   else pixmap)).
  { unfold adjustDevicePixelRatio. rewrite result_bind, P, result_bind, L.
    destruct (QSize_eqb (Pix.size pixmap) (Rect.size physicalGeo)); [reflexivity|].
    destruct (negb (QSize_eqb (Pix.size pixmap) (Rect.size logicalGeo))); reflexivity. }
  split; [exact P|]. split; [exact L|].
  split; [|split; [|split; [|split; [|split; [|split; [|split]]]]]].
  - intros E. apply QSize_eqb_eq in E. now rewrite R, E.
  - intros N1 N2. apply QSize_eqb_neq in N1, N2. now rewrite R, N1, N2.
  - intros N1 E. apply QSize_eqb_neq in N1. apply QSize_eqb_eq in E.
    now rewrite R, N1, E.
  - vm_compute. reflexivity.
  - reflexivity.
  - reflexivity.
  - apply heightRatio_multiple.
  - intros a b Ha Hb. apply heightRatio_close; assumption.
Qed.

Lemma adjust_three_cases_witness :
  result (adjustDevicePixelRatio SampleC1.x11 (Pixmap 3200 2000 done))
  = Some (Pixmap 3200 2000 (dyadic 2 0))
  /\ result (adjustDevicePixelRatio SampleC1.x11 (Pixmap 1600 1000 (dyadic 3 0)))
     = Some (Pixmap 1600 1000 done)
  /\ result (adjustDevicePixelRatio SampleC1.hidpi (Pixmap 1600 1000 (dyadic 3 0)))
     = Some (Pixmap 1600 1000 (dyadic 3 0))
  /\ heightRatio 3000 1000 = dyadic 3 0
  /\ nearQuotient (heightRatio 1000 3) 1000 3 23.
Proof.
  split; [|split; [|split; [|split]]].
  - destruct (adjust_three_cases SampleC1.x11 (Pixmap 3200 2000 done))
      as (p & l & P & L & _ & H & _).
    vm_compute in P, L. injection P as <-. injection L as <-.
    rewrite H; [reflexivity | vm_compute; discriminate | vm_compute; discriminate].
  - destruct (adjust_three_cases SampleC1.x11 (Pixmap 1600 1000 (dyadic 3 0)))
      as (p & l & P & L & H & _).
    vm_compute in P, L. injection P as <-. injection L as <-.
    rewrite H; reflexivity.
  - destruct (adjust_three_cases SampleC1.hidpi (Pixmap 1600 1000 (dyadic 3 0)))
      as (p & l & P & L & _ & _ & H & _).
    vm_compute in P, L. injection P as <-. injection L as <-.
    rewrite H; [reflexivity | vm_compute; discriminate | reflexivity].
  - destruct (adjust_three_cases SampleC1.x11 NullPixmap)
      as (p & l & _ & _ & _ & _ & _ & _ & _ & _ & H & _).
    exact (H 3 1000 ltac:(lia) ltac:(lia) eq_refl).
  - destruct (adjust_three_cases SampleC1.x11 NullPixmap)
      as (p & l & _ & _ & _ & _ & _ & _ & _ & _ & _ & H).
    apply H; split; vm_compute; reflexivity || discriminate.
Defined.
